(** * pdf_highlighter.py: a shallow embedding and its checked properties

    The program walks a folder for PDF files, searches every page of each
    file for a list of keywords through an external PDF capability (PyMuPDF),
    stamps highlight annotations, saves the annotated copy, and reports to the
    interactive surface through a FIFO queue.

    Layout of this development:
    - [PyStr]      Python text: [str.splitlines], [str.strip], [str.split]
                   and the two keyword parsers;
    - [PyPath]     [pathlib] paths as component lists, glob matching;
    - [FileSys]    the directory tree, [rglob], [mkdir(parents=True)];
    - [Engine]     the exception monad, the interface of the external
                   capabilities and [highlight_document];
    - [App]        the session record, the handlers, [_worker], the queue
                   and the interleaving of worker threads, foreground and
                   handlers;
    - [Handlers]   what the dialogs and the log display add;
    - [Toy]        a sample capability and a sample folder, for concrete
                   runs.
    The properties follow the definitions, grouped by component. *)

From stdpp Require Import base list gmap strings.
From Stdlib Require Import NArith Ascii DecimalString Lia.

Local Open Scope N_scope.
Local Open Scope list_scope.

(* ===================================================================== *)
(** ** Python text *)
(* ===================================================================== *)

Module PyStr.

(** A Python [str] is a sequence of Unicode code points. *)
Abbreviation char := N (only parsing).
Abbreviation str := (list N) (only parsing).

(** An ASCII literal as a Python [str]. *)
Fixpoint py (s : string) : str :=
  match s with
  | EmptyString => []
  | String a s' => N_of_ascii a :: py s'
  end.

(** [str.isspace] on one code point (CPython's [_PyUnicode_IsWhitespace]). *)
Definition isspace (c : char) : bool :=
  (9 <=? c) && (c <=? 13)
  || (28 <=? c) && (c <=? 32)
  || (c =? 133) || (c =? 160) || (c =? 5760)
  || (8192 <=? c) && (c <=? 8202)
  || (c =? 8232) || (c =? 8233) || (c =? 8239) || (c =? 8287) || (c =? 12288).

(** Line boundaries of [str.splitlines] (CPython's [_PyUnicode_IsLinebreak]):
    LF, VT, FF, CR, FS, GS, RS, NEL, LS, PS. *)
Definition islinebreak (c : char) : bool :=
  (10 <=? c) && (c <=? 13)
  || (28 <=? c) && (c <=? 30)
  || (c =? 133) || (c =? 8232) || (c =? 8233).

Definition CR : char := 13.
Definition LF : char := 10.
Definition COMMA : char := 44.

(** [str.splitlines()]: scan to the next line boundary, emit the line,
    skip the boundary reading CR LF as one; no empty line is emitted after
    a final boundary.  [line] is the text of the line being scanned. *)
Fixpoint splitlines_from (line : str) (s : str) : list str :=
  match s with
  | [] => match line with [] => [] | _ => [line] end
  | c :: s' =>
      if islinebreak c then
        line :: match s' with
                | d :: s'' =>
                    if (c =? CR) && (d =? LF) then splitlines_from [] s''
                    else splitlines_from [] s'
                | [] => splitlines_from [] s'
                end
      else splitlines_from (line ++ [c]) s'
  end.

Definition splitlines (s : str) : list str := splitlines_from [] s.

(** [str.split(sep)] for a one-character separator: every occurrence
    splits; the empty string gives one empty piece. *)
Fixpoint split_from (sep : char) (piece : str) (s : str) : list str :=
  match s with
  | [] => [piece]
  | c :: s' =>
      if c =? sep then piece :: split_from sep [] s'
      else split_from sep (piece ++ [c]) s'
  end.

Definition split (sep : char) (s : str) : list str := split_from sep [] s.

(** [str.strip()]: drop leading, then trailing, whitespace. *)
Fixpoint lstrip (s : str) : str :=
  match s with
  | c :: s' => if isspace c then lstrip s' else s
  | [] => []
  end.

Definition rstrip (s : str) : str := rev (lstrip (rev s)).

Definition strip (s : str) : str := rstrip (lstrip s).

(** Truth value of a [str]: non-empty. *)
Definition truthy (s : str) : bool :=
  match s with [] => false | _ => true end.

(** Truth value of a list: non-empty. *)
Definition truthy_list {A} (l : list A) : bool :=
  match l with [] => false | _ => true end.

(** The list comprehension [[x.strip() for x in xs if x.strip()]]. *)
Fixpoint stripped_nonempty (xs : list str) : list str :=
  match xs with
  | [] => []
  | x :: xs' =>
      if truthy (strip x) then strip x :: stripped_nonempty xs'
      else stripped_nonempty xs'
  end.

(** [load_keywords_from_text], on the text [path.read_text] returned. *)
Definition load_keywords_from_text (text : str) : list str :=
  stripped_nonempty (splitlines text).

(** The parsing step of [_edit_keywords], on the dialog's text. *)
Definition parse_keywords (result : str) : list str :=
  stripped_nonempty (split COMMA result).

(** The spec's wording, for comparison: split, trim every piece, then
    discard the empty ones. *)
Definition spec_trim_drop (pieces : list str) : list str :=
  List.filter truthy (map strip pieces).

(** Does a text begin, or end, with whitespace? *)
Definition starts_ws (s : str) : bool :=
  match s with c :: _ => isspace c | [] => false end.

Definition ends_ws (s : str) : bool := starts_ws (rev s).

(** A keyword as the data model has it: non-empty, no whitespace at
    either end. *)
Definition is_keyword (k : str) : Prop :=
  k <> [] /\ starts_ws k = false /\ ends_ws k = false.

(** [sep.join(pieces)]. *)
Fixpoint join (sep : str) (pieces : list str) : str :=
  match pieces with
  | [] => []
  | p :: ps => match ps with [] => p | _ => p ++ sep ++ join sep ps end
  end.

(** What "split on line boundaries" means.  A boundary is one line-break
    character, or CR LF read as one; a lone CR is a boundary only when no
    LF follows it. *)
Definition no_break (l : str) : Prop :=
  Forall (fun c => islinebreak c = false) l.

Inductive boundary : str -> str -> Prop :=
| boundary_crlf rest : boundary [CR; LF] rest
| boundary_one c rest :
    islinebreak c = true ->
    (c = CR -> forall r, rest <> LF :: r) ->
    boundary [c] rest.

Inductive lines_of : str -> list str -> Prop :=
| lines_none : lines_of [] []
| lines_last l : l <> [] -> no_break l -> lines_of l [l]
| lines_more l b rest ls :
    no_break l -> boundary b rest -> lines_of rest ls ->
    lines_of (l ++ b ++ rest) (l :: ls).

End PyStr.

(* ===================================================================== *)
(** ** pathlib paths and glob patterns *)
(* ===================================================================== *)

Module PyPath.
Import PyStr.

(** A path is the list of its components below the filesystem root. *)
Abbreviation Path := (list (list N)) (only parsing).

(** [p.name]: the final component, empty for the root. *)
Definition name (p : Path) : str := List.last p [].

(** [p.parent]: the path without its final component; the root is its
    own parent. *)
Definition parent (p : Path) : Path := removelast p.

(** [a / b] for a relative [b]. *)
Definition joinpath (a b : Path) : Path := a ++ b.

(** [p.relative_to(base)]: the components of [p] after [base]; [None]
    stands for the [ValueError] raised when [base] is not a prefix. *)
Fixpoint relative_to (p base : Path) {struct base} : option Path :=
  match base with
  | [] => Some p
  | b :: base' =>
      match p with
      | c :: p' => if decide (c = b) then relative_to p' base' else None
      | [] => None
      end
  end.

Definition STAR : char := 42.
Definition QUESTION : char := 63.

(** Shell-style matching of a whole name against a pattern made of
    literals, [?] and [*]. *)
Fixpoint fnmatch (pat : str) (nm : str) : bool :=
  match pat with
  | [] => match nm with [] => true | _ => false end
  | c :: pat' =>
      if c =? STAR then
        (fix any_suffix (nm : str) : bool :=
           fnmatch pat' nm
           || match nm with [] => false | _ :: nm' => any_suffix nm' end) nm
      else
        match nm with
        | [] => false
        | d :: nm' => ((c =? QUESTION) || (c =? d)) && fnmatch pat' nm'
        end
  end.

(** ASCII case folding, as a case-insensitive flavour applies it. *)
Definition lower_char (c : char) : char :=
  if (65 <=? c) && (c <=? 90) then c + 32 else c.

Definition lower (s : str) : str := map lower_char s.

(** The pattern handed to [rglob]. *)
Definition PDF_PATTERN : str := py "*.pdf".
Definition PDF_SUFFIX : str := py ".pdf".

(** Matching under the platform's casing rule: case-sensitive on POSIX,
    case-insensitive on Windows. *)
Definition glob_match (case_sensitive : bool) (pat nm : str) : bool :=
  if case_sensitive then fnmatch pat nm else fnmatch (lower pat) (lower nm).

End PyPath.

(* ===================================================================== *)
(** ** The file system *)
(* ===================================================================== *)

Module FileSys.
Import PyStr PyPath.

(** A directory tree: regular files carry their bytes, directories their
    entries in listing order. *)
#[warnings="-register-all"] Inductive node : Type :=
| File (data : list N)
| Dir (entries : list (list N * node)).

Fixpoint find_entry (n : str) (es : list (str * node)) : option node :=
  match es with
  | [] => None
  | (m, c) :: es' => if decide (m = n) then Some c else find_entry n es'
  end.

Fixpoint set_entry (n : str) (c : node) (es : list (str * node))
  : list (str * node) :=
  match es with
  | [] => [(n, c)]
  | (m, d) :: es' =>
      if decide (m = n) then (m, c) :: es' else (m, d) :: set_entry n c es'
  end.

(** The node a path leads to, if any. *)
Fixpoint resolve (t : node) (p : Path) : option node :=
  match p with
  | [] => Some t
  | n :: p' =>
      match t with
      | Dir es =>
          match find_entry n es with
          | Some c => resolve c p'
          | None => None
          end
      | File _ => None
      end
  end.

(** [p.is_file()] and [p.is_dir()]. *)
Definition is_file (t : node) (p : Path) : bool :=
  match resolve t p with Some (File _) => true | _ => false end.

Definition is_dir (t : node) (p : Path) : bool :=
  match resolve t p with Some (Dir _) => true | _ => false end.

Definition read_file (t : node) (p : Path) : option (list N) :=
  match resolve t p with Some (File d) => Some d | _ => None end.

(** Every directory on the way to [p], and [p] itself, exists. *)
Fixpoint chain_exists (t : node) (p : Path) : bool :=
  match t with
  | File _ => false
  | Dir es =>
      match p with
      | [] => true
      | n :: p' =>
          match find_entry n es with
          | Some c => chain_exists c p'
          | None => false
          end
      end
  end.

(** A fresh chain of nested empty directories under a new entry. *)
Fixpoint fresh_dirs (p : Path) : node :=
  match p with
  | [] => Dir []
  | n :: p' => Dir [(n, fresh_dirs p')]
  end.

(** [p.mkdir(parents=True, exist_ok=True)] on the tree: existing
    directories are kept, missing ones are created, a regular file on the
    way raises ([None]) and changes nothing. *)
Fixpoint mkdir_parents (p : Path) (t : node) : option node :=
  match t with
  | File _ => None
  | Dir es =>
      match p with
      | [] => Some t
      | n :: p' =>
          match find_entry n es with
          | Some c =>
              match mkdir_parents p' c with
              | Some c' => Some (Dir (set_entry n c' es))
              | None => None
              end
          | None => Some (Dir (es ++ [(n, fresh_dirs p')]))
          end
      end
  end.

(** Writing a regular file at [p]: the parent must be a directory and [p]
    must not be one. *)
Fixpoint write_file (p : Path) (data : list N) (t : node) : option node :=
  match p with
  | [] => None
  | n :: p' =>
      match t with
      | File _ => None
      | Dir es =>
          match p' with
          | [] =>
              match find_entry n es with
              | Some (Dir _) => None
              | _ => Some (Dir (set_entry n (File data) es))
              end
          | _ =>
              match find_entry n es with
              | Some c =>
                  match write_file p' data c with
                  | Some c' => Some (Dir (set_entry n c' es))
                  | None => None
                  end
              | None => None
              end
          end
      end
  end.

(** [folder.rglob(pattern)] over the tree found at [here]: the matching
    entries of a directory in listing order, then its subdirectories in
    listing order, recursively.  The starting folder itself is not a
    candidate. *)
Fixpoint rglob_tree (m : str -> bool) (here : Path) (t : node) : list Path :=
  match t with
  | File _ => []
  | Dir es =>
      map (fun e => here ++ [fst e]) (List.filter (fun e => m (fst e)) es)
      ++ flat_map (fun e => rglob_tree m (here ++ [fst e]) (snd e)) es
  end.

Definition rglob (case_sensitive : bool) (fs : node) (folder : Path)
    (pat : str) : list Path :=
  match resolve fs folder with
  | Some t => rglob_tree (glob_match case_sensitive pat) folder t
  | None => []
  end.

(** [walk_pdfs]: [[p for p in folder.rglob("*.pdf") if p.is_file()]]. *)
Definition walk_pdfs (case_sensitive : bool) (fs : node) (folder : Path)
  : list Path :=
  List.filter (is_file fs) (rglob case_sensitive fs folder PDF_PATTERN).

(** Number of regular files in a tree. *)
Fixpoint count_files (t : node) : nat :=
  match t with
  | File _ => 1
  | Dir es => list_sum (map (fun e => count_files (snd e)) es)
  end.

(** Entry names are unique in every directory, as on a real file system. *)
Fixpoint unique_names (t : node) : bool :=
  match t with
  | File _ => true
  | Dir es =>
      bool_decide (NoDup (map fst es))
      && forallb (fun e => unique_names (snd e)) es
  end.

(** Every regular file of the tree has a name accepted by [m]; [nm] is
    the name of the tree's root. *)
Fixpoint all_files_match (m : str -> bool) (nm : str) (t : node) : bool :=
  match t with
  | File _ => m nm
  | Dir es => forallb (fun e => all_files_match m (fst e) (snd e)) es
  end.

End FileSys.

(* ===================================================================== *)
(** ** The highlight engine *)
(* ===================================================================== *)

Module Engine.
Import PyStr PyPath FileSys.

(** An exception (an instance of [Exception], the class the engine's
    handler catches) is represented by the text [str(exc)] gives. *)
Abbreviation Exc := (list N) (only parsing).

(** Items of the log queue: a text line, or a tagged tuple. *)
Inductive LogItem : Type :=
| Line (text : list N)
| Tagged (tag : list N) (payload : nat).

Definition PROGRESS : str := py "PROGRESS".
Definition DONE : str := py "DONE".

(** What the worker thread acts on: the file system and the queue. *)
Record World : Type := mkWorld { fs : node; log_q : list LogItem }.

(** Computations that return or raise, keeping the effects made so far. *)
Inductive Outcome (A : Type) : Type :=
| Returned (a : A) (w : World)
| Raised (e : Exc) (w : World).
Arguments Returned {A} a w.
Arguments Raised {A} e w.

Definition M (A : Type) : Type := World -> Outcome A.

Definition ret {A} (a : A) : M A := fun w => Returned a w.

Definition bind {A B} (c : M A) (k : A -> M B) : M B :=
  fun w => match c w with
           | Returned a w' => k a w'
           | Raised e w' => Raised e w'
           end.

Definition raise {A} (e : Exc) : M A := fun w => Raised e w.

(** [try: body / except Exception as exc: handler(exc)]. *)
Definition try_except {A} (body : M A) (handler : Exc -> M A) : M A :=
  fun w => match body w with
           | Returned a w' => Returned a w'
           | Raised e w' => handler e w'
           end.

(** A pure fallible result entering the monad. *)
Definition lift {A} (r : Exc + A) : M A :=
  match r with inl e => raise e | inr a => ret a end.

Definition get_fs : M node := fun w => Returned (fs w) w.

(** [log_q.put(item)]: the queue is unbounded, the item goes to its end. *)
Definition put (item : LogItem) : M unit :=
  fun w => Returned tt (mkWorld (fs w) (log_q w ++ [item])).

Declare Scope engine_scope.
Delimit Scope engine_scope with M.
Notation "x <- c ;; k" := (bind c (fun x => k))
  (at level 100, c at next level, right associativity) : engine_scope.
Notation "c ;;; k" := (bind c (fun _ => k))
  (at level 100, right associativity) : engine_scope.
Local Open Scope engine_scope.

(** A [for] loop over a list, threading the loop-carried state. *)
Fixpoint for_each {A S} (xs : list A) (body : A -> S -> M S) (s : S) : M S :=
  match xs with
  | [] => ret s
  | x :: xs' => s' <- body x s ;; for_each xs' body s'
  end.

(** The external capabilities: PyMuPDF and, for one error text, the
    operating system.  A document is a value that the operations
    transform; pages are addressed by index.  Opening reads the file
    system, saving changes it and may raise after having done so.
    [mkdir_error t p] is the text of the [OSError] that
    [p.mkdir(parents=True, exist_ok=True)] raises on the tree [t] when a
    regular file is in the way; errno, wording and the quoted path in it
    are the platform's. *)
Record PdfLib : Type := mkPdfLib {
  Doc : Type;
  Rect : Type;
  Annot : Type;
  TEXT_DEHYPHENATE : N;
  TEXT_IGNORECASE : N;
  fitz_open : node -> Path -> Exc + Doc;
  page_count : Doc -> nat;
  search_for : Doc -> nat -> list N -> bool -> N -> N -> Exc + list Rect;
  add_highlight_annot : Doc -> nat -> Rect -> Exc + (Doc * Annot);
  set_colors : Doc -> Annot -> N * N * N -> Exc + Doc;
  update : Doc -> Annot -> Exc + Doc;
  save : Doc -> Path -> N -> bool -> node -> node * option Exc;
  close : Doc -> option Exc;
  mkdir_error : node -> Path -> Exc
}.

Definition HILITE_COLOR : N * N * N := (1, 1, 0).

(** Decimal text of a count, as an f-string formats it. *)
Definition str_of_nat (n : nat) : str :=
  py (NilEmpty.string_of_uint (Nat.to_uint n)).

Definition CHECK_MARK : char := 10003.
Definition BALLOT_X : char := 10007.
Definition NBSP : char := 160.

(** [f"✓ {src.name}: {total_hits} hit(s)"] *)
Definition success_line (src : Path) (total_hits : nat) : str :=
  [CHECK_MARK] ++ py " " ++ name src ++ py ": " ++ str_of_nat total_hits
  ++ py " hit(s)".

(** [f"✗ Error {src.name}: {exc}"]: the character between [Error] and the
    name is a no-break space (U+00A0) in the source. *)
Definition failure_line (src : Path) (exc : Exc) : str :=
  [BALLOT_X] ++ py " Error" ++ [NBSP] ++ name src ++ py ": " ++ exc.

Section WithLib.
Context (L : PdfLib).

(** The body of [for inst in text_instances]. *)
Definition annotate_hit (i : nat) (inst : Rect L) (doc : Doc L) : M (Doc L) :=
  r <- lift (add_highlight_annot L doc i inst) ;;
  let '(doc, annot) := r in
  doc <- lift (set_colors L doc annot HILITE_COLOR) ;;
  lift (update L doc annot).

(** The body of [for kw in keywords]; the loop state is the document and
    [total_hits]. *)
Definition search_keyword (i : nat) (kw : str) (st : Doc L * nat)
  : M (Doc L * nat) :=
  let '(doc, total_hits) := st in
  text_instances <-
    lift (search_for L doc i kw false 0
            (N.lor (TEXT_DEHYPHENATE L) (TEXT_IGNORECASE L))) ;;
  doc <- for_each text_instances (annotate_hit i) doc ;;
  ret (doc, (total_hits + length text_instances)%nat).

(** The body of [for page in doc]. *)
Definition search_page (keywords : list str) (i : nat) (st : Doc L * nat)
  : M (Doc L * nat) :=
  for_each keywords (search_keyword i) st.

Definition mkdir (p : Path) : M unit :=
  fun w => match mkdir_parents p (fs w) with
           | Some t => Returned tt (mkWorld t (log_q w))
           | None => Raised (mkdir_error L (fs w) p) w
           end.

Definition doc_save (doc : Doc L) (dest : Path) (garbage : N) (deflate : bool)
  : M unit :=
  fun w => match save L doc dest garbage deflate (fs w) with
           | (t, None) => Returned tt (mkWorld t (log_q w))
           | (t, Some e) => Raised e (mkWorld t (log_q w))
           end.

Definition doc_close (doc : Doc L) : M unit :=
  match close L doc with Some e => raise e | None => ret tt end.

(** The first part of the [try] block: open the document and run the
    page loop; yields the annotated document and [total_hits]. *)
Definition annotate_document (src : Path) (keywords : list str)
  : M (Doc L * nat) :=
  t <- get_fs ;;
  doc <- lift (fitz_open L t src) ;;
  for_each (seq 0 (page_count L doc)) (search_page keywords) (doc, 0%nat).

(** The [try] block of [highlight_document], up to the success line;
    returns [total_hits]. *)
Definition highlight_try (src dest : Path) (keywords : list str) : M nat :=
  st <- annotate_document src keywords ;;
  let '(doc, total_hits) := st in
  mkdir (parent dest) ;;;
  doc_save doc dest 4 true ;;;
  doc_close doc ;;;
  put (Line (success_line src total_hits)) ;;;
  ret total_hits.

(** [highlight_document(src, dest, keywords, log_q)]. *)
Definition highlight_document (src dest : Path) (keywords : list str)
  : M unit :=
  try_except
    (highlight_try src dest keywords ;;; ret tt)
    (fun exc => put (Line (failure_line src exc))).

(** The ways the [try] block can end: in the annotation part, in
    [mkdir], in [save], in [close], or with the success line enqueued. *)
Inductive try_end (src dest : Path) (kws : list str) (w : World)
  : Outcome nat -> Prop :=
| end_annotate e :
    annotate_document src kws w = Raised e w ->
    try_end src dest kws w (Raised e w)
| end_mkdir doc hits :
    annotate_document src kws w = Returned (doc, hits) w ->
    mkdir_parents (parent dest) (fs w) = None ->
    try_end src dest kws w (Raised (mkdir_error L (fs w) (parent dest)) w)
| end_save doc hits t1 t2 e :
    annotate_document src kws w = Returned (doc, hits) w ->
    mkdir_parents (parent dest) (fs w) = Some t1 ->
    save L doc dest 4 true t1 = (t2, Some e) ->
    try_end src dest kws w (Raised e (mkWorld t2 (log_q w)))
| end_close doc hits t1 t2 e :
    annotate_document src kws w = Returned (doc, hits) w ->
    mkdir_parents (parent dest) (fs w) = Some t1 ->
    save L doc dest 4 true t1 = (t2, None) ->
    close L doc = Some e ->
    try_end src dest kws w (Raised e (mkWorld t2 (log_q w)))
| end_success doc hits t1 t2 :
    annotate_document src kws w = Returned (doc, hits) w ->
    mkdir_parents (parent dest) (fs w) = Some t1 ->
    save L doc dest 4 true t1 = (t2, None) ->
    close L doc = None ->
    try_end src dest kws w
            (Returned hits
               (mkWorld t2 (log_q w ++ [Line (success_line src hits)]))).

(** The search the engine performs for one keyword on one page. *)
Definition search_hits (doc : Doc L) (i : nat) (kw : str)
  : Exc + list (Rect L) :=
  search_for L doc i kw false 0
             (N.lor (TEXT_DEHYPHENATE L) (TEXT_IGNORECASE L)).

Definition regions_of {A} (r : Exc + list A) : list A :=
  match r with inr l => l | inl _ => [] end.

(** The spec's wording of the result: for every page in document order,
    for every keyword in the supplied order, the regions the search
    returns, and their number. *)
Definition spec_matches (doc : Doc L) (keywords : list str)
  : list (nat * Rect L) :=
  flat_map
    (fun i =>
       flat_map (fun kw => map (pair i) (regions_of (search_hits doc i kw)))
                keywords)
    (seq 0 (page_count L doc)).

(** The spec's wording of the annotations: one highlight annotation per
    matched region, that is, on the region's page an annotation is added
    over the region, given the highlight colour, and updated. *)
Definition highlight_region (d : Doc L) (m : nat * Rect L) : Exc + Doc L :=
  match add_highlight_annot L d (fst m) (snd m) with
  | inr (d1, annot) =>
      match set_colors L d1 annot HILITE_COLOR with
      | inr d2 => update L d2 annot
      | inl e => inl e
      end
  | inl e => inl e
  end.

Fixpoint highlight_regions (d : Doc L) (ms : list (nat * Rect L))
  : Exc + Doc L :=
  match ms with
  | [] => inr d
  | m :: ms' =>
      match highlight_region d m with
      | inr d' => highlight_regions d' ms'
      | inl e => inl e
      end
  end.

Definition spec_hit_count (doc : Doc L) (keywords : list str) : nat :=
  list_sum
    (map (fun i =>
            list_sum
              (map (fun kw => length (regions_of (search_hits doc i kw)))
                   keywords))
         (seq 0 (page_count L doc))).

(** Two documents on which every search gives the same answer. *)
Definition same_text (d d' : Doc L) : Prop :=
  forall j kw q h f, search_for L d' j kw q h f = search_for L d j kw q h f.

(** The capability's contract that a highlight does not alter what a
    search finds. *)
Definition annotations_keep_text : Prop :=
  (forall d i r d' a,
      add_highlight_annot L d i r = inr (d', a) -> same_text d d')
  /\ (forall d a c d', set_colors L d a c = inr d' -> same_text d d')
  /\ (forall d a d', update L d a = inr d' -> same_text d d').

(** The capability's contract that a save which raises has written no
    regular file, and that closing does not raise. *)
Definition failed_save_writes_nothing : Prop :=
  forall d p g z t t' e,
    save L d p g z t = (t', Some e) ->
    forall q, read_file t' q = read_file t q.

Definition close_never_raises : Prop := forall d, close L d = None.

End WithLib.

(** A computation that leaves the world as it found it. *)
Definition readonly {A} (c : M A) : Prop :=
  forall w, match c w with
            | Returned _ w' => w' = w
            | Raised _ w' => w' = w
            end.

End Engine.

(* ===================================================================== *)
(** ** The interactive session and the batch driver *)
(* ===================================================================== *)

Module App.
Import PyStr PyPath FileSys Engine.
Local Open Scope engine_scope.

(** The attributes of [self] the batch reads.  [keywords] holds a
    reference to a list object in the heap: the handlers rebind it to a
    new list, they never change a list in place. *)
Record Self : Type := mkSelf {
  src_folder : option (list (list N));
  dest_folder : option (list (list N));
  keywords : nat
}.

Record Session : Type := mkSession {
  self : Self;
  heap : gmap nat (list (list N))
}.

(** The list object a reference denotes. *)
Definition deref (h : gmap nat (list str)) (r : nat) : list str :=
  default [] (h !! r).

(** A reference no list object has yet. *)
Definition new_ref (h : gmap nat (list str)) : nat := fresh (dom h).

Definition rebind_keywords (s : Session) (kws : list str) : Session :=
  let r := new_ref (heap s) in
  mkSession (mkSelf (src_folder (self s)) (dest_folder (self s)) r)
            (<[r := kws]> (heap s)).

(** [_load_kw_file], on the text read from the chosen file; [None] when
    the dialog was cancelled. *)
Definition _load_kw_file (text : option str) (s : Session) : Session :=
  match text with
  | Some t => rebind_keywords s (load_keywords_from_text t)
  | None => s
  end.

(** [_edit_keywords], on what the dialog returned. *)
Definition _edit_keywords (result : option str) (s : Session) : Session :=
  match result with
  | Some r => rebind_keywords s (parse_keywords r)
  | None => s
  end.

Definition VALUE_ERROR : Exc := py "is not in the subpath of".
Definition TYPE_ERROR : Exc := py "unsupported operand type(s)".

(** [self.dest_folder or self.src_folder] *)
Definition dest_base_of (s : Self) : option Path :=
  match dest_folder s with
  | Some d => Some d
  | None => src_folder s
  end.

(** [(dest_base / pdf.relative_to(self.src_folder))
     if dest_base != self.src_folder else pdf] *)
Definition dest_path_of (dest_base src : option Path) (pdf : Path)
  : Exc + Path :=
  if decide (dest_base <> src) then
    match src with
    | Some s =>
        match relative_to pdf s with
        | Some rel =>
            match dest_base with
            | Some d => inr (joinpath d rel)
            | None => inl TYPE_ERROR
            end
        | None => inl VALUE_ERROR
        end
    | None => inl TYPE_ERROR
    end
  else inr pdf.

(** The destination of [pdf] can be computed. *)
Definition has_dest (db src : option Path) (pdf : Path) : Prop :=
  exists d, dest_path_of db src pdf = inr d.

Section WithLib.
Context (L : PdfLib).

(** One turn of the [for idx, pdf in enumerate(pdfs, 1)] loop. *)
Definition worker_iteration (s : Session) (dest_base : option Path)
    (idx : nat) (pdf : Path) : M unit :=
  dest_path <- lift (dest_path_of dest_base (src_folder (self s)) pdf) ;;
  highlight_document L pdf dest_path (deref (heap s) (keywords (self s))) ;;;
  put (Tagged PROGRESS idx).

Fixpoint worker_loop (s : Session) (dest_base : option Path) (idx : nat)
    (pdfs : list Path) : M unit :=
  match pdfs with
  | [] => ret tt
  | pdf :: rest =>
      worker_iteration s dest_base idx pdf ;;;
      worker_loop s dest_base (S idx) rest
  end.

(** [_worker(pdfs)], run with no handler interleaved. *)
Definition _worker (s : Session) (pdfs : list Path) : M unit :=
  let dest_base := dest_base_of (self s) in
  worker_loop s dest_base 1 pdfs ;;;
  put (Tagged DONE (length pdfs)).

End WithLib.

(** *** The display *)

Record UI : Type := mkUI {
  progress_maximum : nat;
  progress_value : nat;
  log_txt : list N;
  summary_var : list N
}.

(** [f"Finished {payload} PDF(s)."] *)
Definition summary_line (payload : nat) : str :=
  py "Finished " ++ str_of_nat payload ++ py " PDF(s).".

(** The body of the [while True] loop of [_drain_log_q] for one item. *)
Definition show_item (ui : UI) (item : LogItem) : UI :=
  match item with
  | Tagged tag payload =>
      if decide (tag = PROGRESS) then
        mkUI (progress_maximum ui) payload (log_txt ui) (summary_var ui)
      else if decide (tag = DONE) then
        mkUI (progress_maximum ui) (progress_value ui) (log_txt ui)
             (summary_line payload)
      else ui
  | Line text =>
      mkUI (progress_maximum ui) (progress_value ui)
           (log_txt ui ++ text ++ [LF]) (summary_var ui)
  end.

(** One call of [_drain_log_q]: every pending item, oldest first. *)
Definition _drain_log_q (ui : UI) (q : list LogItem) : UI * list LogItem :=
  (fold_left show_item q ui, []).

(** *** The folder pickers *)

(** [_choose_src], on the folder the dialog returned; [None] stands for
    the empty string of a cancelled dialog. *)
Definition _choose_src (folder : option Path) (s : Session) : Session :=
  match folder with
  | Some f =>
      mkSession (mkSelf (Some f) (dest_folder (self s)) (keywords (self s)))
                (heap s)
  | None => s
  end.

(** [_choose_dest]: a cancelled dialog resets the destination. *)
Definition _choose_dest (folder : option Path) (s : Session) : Session :=
  match folder with
  | Some f =>
      mkSession (mkSelf (src_folder (self s)) (Some f) (keywords (self s)))
                (heap s)
  | None =>
      mkSession (mkSelf (src_folder (self s)) None (keywords (self s)))
                (heap s)
  end.

(** *** Worker threads and foreground, interleaved *)

(** Where a worker thread stands: started but line 182 not yet run, at
    the top of the loop, in a call of [highlight_document], between the
    call and the progress tuple, returned, or dead of an uncaught exception
    raised in the loop turn for the first file of [rest]. *)
Inductive WorkerPc : Type :=
| AtEntry
| AtLoop (idx : nat) (rest : list (list (list N)))
| InJob (idx : nat) (pdf dest : list (list N)) (kw : nat)
        (rest : list (list (list N)))
| AfterJob (idx : nat) (rest : list (list (list N)))
| Finished
| Crashed (idx : nat) (rest : list (list (list N))) (e : list N).

(** A worker thread: its argument [pdfs], its local [dest_base] (not
    assigned, [None] here, before line 182 has run) and where it stands. *)
Record Thread : Type := mkThread {
  batch : list (list (list N));
  thr_dest_base : option (list (list N));
  pc : WorkerPc
}.

(** [len(pdfs)] *)
Definition total (th : Thread) : nat := length (batch th).

(** The application: the attributes of [self], the worker threads started
    so far (no handler waits for one to end before starting the next), the
    file system and the queue, and the display. *)
Record Sys : Type := mkSys {
  session : Session;
  threads : list Thread;
  world : World;
  ui : UI
}.

(** What an observer sees a worker thread do: read its destination base,
    bind the arguments of a call, run the call with the keyword list it
    holds and the items it enqueues, put a single item, die of an uncaught
    exception. *)
Inductive Event : Type :=
| EEnter (dest_base : option (list (list N)))
| EBind (idx : nat) (pdf dest : list (list N)) (kws : list (list N))
| ERun (idx : nat) (kws : list (list N)) (added : list LogItem)
| EPut (item : LogItem)
| ECrash (e : list N).

(** What an observer of the application sees: an event of the worker
    thread [tid], the foreground taking one item off the queue, a handler
    rebinding the keyword list, a folder picker, the start handler
    launching the thread [tid] or showing a notice. *)
Inductive Label : Type :=
| LWorker (tid : nat) (ev : Event)
| LGet (item : LogItem)
| LRebind (kws : list (list N))
| LFolder
| LStart (tid : nat)
| LNotice (title : list N).

(** Who moves next: a worker thread, the foreground taking one item off
    the queue, or one of the five handlers the buttons are bound to.  No
    button is ever disabled, so every handler can run while a batch does. *)
Inductive Action : Type :=
| ActWorker (tid : nat)
| ActGet
| ActEdit (result : option (list N))
| ActLoad (text : option (list N))
| ActChooseSrc (folder : option (list (list N)))
| ActChooseDest (folder : option (list (list N)))
| ActStart.

(** Outcome of the start handler. *)
Inductive StartResult : Type :=
| ShowError (title : list N)
| ShowInfo (title : list N)
| Started (sys : Sys).

Definition current_keywords (s : Sys) : list str :=
  deref (heap (session s)) (keywords (self (session s))).

(** [_start]: the checks, the display reset, and one more worker thread,
    started on the files discovered at this moment. *)
Definition _start (case_sensitive : bool) (s : Sys) : StartResult :=
  match src_folder (self (session s)) with
  | None => ShowError (py "No source")
  | Some src =>
      if negb (truthy_list (current_keywords s))
      then ShowError (py "No keywords")
      else
        let pdfs := walk_pdfs case_sensitive (fs (world s)) src in
        if negb (truthy_list pdfs) then ShowInfo (py "No PDFs")
        else
          Started (mkSys (session s)
                         (threads s ++ [mkThread pdfs None AtEntry])
                         (world s)
                         (mkUI (length pdfs) 0 [] []))
  end.

Definition with_pc (th : Thread) (p : WorkerPc) : Thread :=
  mkThread (batch th) (thr_dest_base th) p.

Definition with_session (s : Sys) (x : Session) : Sys :=
  mkSys x (threads s) (world s) (ui s).

Definition with_thread (s : Sys) (tid : nat) (th : Thread) (w : World) : Sys :=
  mkSys (session s) (<[tid := th]> (threads s)) w (ui s).

(** What a handler does to the attributes of [self]. *)
Definition handle (a : Action) (x : Session) : Session :=
  match a with
  | ActEdit result => _edit_keywords result x
  | ActLoad text => _load_kw_file text x
  | ActChooseSrc folder => _choose_src folder x
  | ActChooseDest folder => _choose_dest folder x
  | _ => x
  end.

Section Interleaving.
Context (L : PdfLib) (case_sensitive : bool).

(** The next move of a worker thread, given the attributes of [self] and
    the world at that moment.  [self.src_folder] and [self.keywords] are
    read anew in every loop turn, [dest_base] once, at line 182. *)
Definition worker_step (x : Session) (th : Thread) (w : World)
  : option (Event * Thread * World) :=
  match pc th with
  | AtEntry =>
      let db := dest_base_of (self x) in
      Some (EEnter db, mkThread (batch th) db (AtLoop 1 (batch th)), w)
  | AtLoop idx (pdf :: rest) =>
      match dest_path_of (thr_dest_base th) (src_folder (self x)) pdf with
      | inr dest =>
          let kw := keywords (self x) in
          Some (EBind idx pdf dest (deref (heap x) kw),
                with_pc th (InJob idx pdf dest kw rest), w)
      | inl e =>
          Some (ECrash e, with_pc th (Crashed idx (pdf :: rest) e), w)
      end
  | AtLoop idx [] =>
      let item := Tagged DONE (total th) in
      Some (EPut item, with_pc th Finished,
            mkWorld (fs w) (log_q w ++ [item]))
  | InJob idx pdf dest kw rest =>
      let kws := deref (heap x) kw in
      match highlight_document L pdf dest kws w with
      | Returned _ w' =>
          Some (ERun idx kws (drop (length (log_q w)) (log_q w')),
                with_pc th (AfterJob idx rest), w')
      | Raised e w' =>
          Some (ECrash e, with_pc th (Crashed idx (pdf :: rest) e), w')
      end
  | AfterJob idx rest =>
      let item := Tagged PROGRESS idx in
      Some (EPut item, with_pc th (AtLoop (S idx) rest),
            mkWorld (fs w) (log_q w ++ [item]))
  | Finished => None
  | Crashed _ _ _ => None
  end.

(** [self.log_q.get_nowait()] and the handling of the item; [None] when
    the queue is empty. *)
Definition get_step (s : Sys) : option (Label * Sys) :=
  match log_q (world s) with
  | item :: q =>
      Some (LGet item,
            mkSys (session s) (threads s)
                  (mkWorld (fs (world s)) q) (show_item (ui s) item))
  | [] => None
  end.

Definition do_action (a : Action) (s : Sys) : option (Label * Sys) :=
  match a with
  | ActWorker tid =>
      match threads s !! tid with
      | Some th =>
          match worker_step (session s) th (world s) with
          | Some (ev, th', w') =>
              Some (LWorker tid ev, with_thread s tid th' w')
          | None => None
          end
      | None => None
      end
  | ActGet => get_step s
  | ActEdit _ | ActLoad _ =>
      let s' := with_session s (handle a (session s)) in
      Some (LRebind (current_keywords s'), s')
  | ActChooseSrc _ | ActChooseDest _ =>
      Some (LFolder, with_session s (handle a (session s)))
  | ActStart =>
      match _start case_sensitive s with
      | Started s' =>
          Some (LStart (length (threads s)), s')
      | ShowError title => Some (LNotice title, s)
      | ShowInfo title => Some (LNotice title, s)
      end
  end.

(** A schedule is the order in which the threads and the handlers move;
    a move that is not enabled is skipped. *)
Fixpoint run (sched : list Action) (s : Sys) : list Label * Sys :=
  match sched with
  | [] => ([], s)
  | a :: sched' =>
      match do_action a s with
      | Some (l, s') => let '(tr, s'') := run sched' s' in (l :: tr, s'')
      | None => run sched' s
      end
  end.

End Interleaving.

(** The index of a thread's next progress tuple, the number of files it
    has still to report, the files it has not yet taken up, and whether it
    is still running or has returned. *)
Definition next_idx (th : Thread) : nat :=
  match pc th with
  | AtEntry => 1
  | AtLoop idx _ => idx
  | InJob idx _ _ _ _ => idx
  | AfterJob idx _ => idx
  | Finished => S (total th)
  | Crashed idx _ _ => idx
  end.

Definition pending (th : Thread) : nat :=
  match pc th with
  | AtEntry => length (batch th)
  | AtLoop _ rest => length rest
  | InJob _ _ _ _ rest => S (length rest)
  | AfterJob _ rest => S (length rest)
  | Finished => 0
  | Crashed _ rest _ => length rest
  end.

Definition rest_of (th : Thread) : list Path :=
  match pc th with
  | AtEntry => batch th
  | AtLoop _ rest => rest
  | InJob _ _ _ _ rest => rest
  | AfterJob _ rest => rest
  | Finished => []
  | Crashed _ rest _ => rest
  end.

Definition alive (th : Thread) : bool :=
  match pc th with
  | Finished => false
  | Crashed _ _ _ => false
  | _ => true
  end.

Definition finished (th : Thread) : bool :=
  match pc th with Finished => true | _ => false end.

Definition crashed (th : Thread) : bool :=
  match pc th with Crashed _ _ _ => true | _ => false end.

(** Worker moves left until the thread ends, if it does not die. *)
Definition moves_left (th : Thread) : nat :=
  match pc th with
  | AtEntry => (3 * length (batch th) + 2)%nat
  | AtLoop _ rest => (3 * length rest + 1)%nat
  | InJob _ _ _ _ rest => (3 * length rest + 3)%nat
  | AfterJob _ rest => (3 * length rest + 2)%nat
  | Finished => 0
  | Crashed _ _ _ => 0
  end.

(** The call in flight in a thread, if any: its index and the list
    object it holds. *)
Definition in_flight (x : Session) (th : Thread) : option (nat * list str) :=
  match pc th with
  | InJob idx _ _ kw _ => Some (idx, deref (heap x) kw)
  | _ => None
  end.

(** The call in flight in the thread [tid] of the application. *)
Definition bound (tid : nat) (s : Sys) : option (nat * list str) :=
  match threads s !! tid with
  | Some th => in_flight (session s) th
  | None => None
  end.

(** The events of one thread, in order. *)
Fixpoint events_of (tid : nat) (tr : list Label) : list Event :=
  match tr with
  | [] => []
  | LWorker i ev :: tr' =>
      if decide (i = tid) then ev :: events_of tid tr' else events_of tid tr'
  | _ :: tr' => events_of tid tr'
  end.

(** The items an event enqueues. *)
Definition event_puts (ev : Event) : list LogItem :=
  match ev with
  | ERun _ _ added => added
  | EPut item => [item]
  | _ => []
  end.

(** The items enqueued along a run by all threads, those enqueued by one
    thread, and the items the foreground took. *)
Fixpoint puts (tr : list Label) : list LogItem :=
  match tr with
  | [] => []
  | LWorker _ ev :: tr' => event_puts ev ++ puts tr'
  | _ :: tr' => puts tr'
  end.

Definition puts_of (tid : nat) (tr : list Label) : list LogItem :=
  flat_map event_puts (events_of tid tr).

Fixpoint gets (tr : list Label) : list LogItem :=
  match tr with
  | [] => []
  | LGet item :: tr' => item :: gets tr'
  | _ :: tr' => gets tr'
  end.

(** The jobs among some events: each input file with the destination
    computed for it. *)
Fixpoint jobs (evs : list Event) : list (Path * Path) :=
  match evs with
  | [] => []
  | EBind _ pdf dest _ :: evs' => (pdf, dest) :: jobs evs'
  | _ :: evs' => jobs evs'
  end.

(** How the thread [tid] uses the keyword list along a run: a call is
    bound to the list current at that moment ([cur], changed only by a
    rebinding), and runs with the very list it was bound to. *)
Fixpoint keywords_discipline (tid : nat) (cur : list str)
    (bound : option (nat * list str)) (tr : list Label) : Prop :=
  match tr with
  | [] => True
  | LRebind kws :: tr' => keywords_discipline tid kws bound tr'
  | LWorker i (EBind idx _ _ kws) :: tr' =>
      if decide (i = tid)
      then kws = cur /\ keywords_discipline tid cur (Some (idx, kws)) tr'
      else keywords_discipline tid cur bound tr'
  | LWorker i (ERun idx kws _) :: tr' =>
      if decide (i = tid)
      then bound = Some (idx, kws) /\ keywords_discipline tid cur None tr'
      else keywords_discipline tid cur bound tr'
  | _ :: tr' => keywords_discipline tid cur bound tr'
  end.

(** The keyword lists the calls of a thread ran with, in order. *)
Fixpoint lists_used (evs : list Event) : list (list str) :=
  match evs with
  | [] => []
  | ERun _ kws _ :: evs' => kws :: lists_used evs'
  | _ :: evs' => lists_used evs'
  end.

Fixpoint rebinds (tr : list Label) : list (list str) :=
  match tr with
  | [] => []
  | LRebind kws :: tr' => kws :: rebinds tr'
  | _ :: tr' => rebinds tr'
  end.

(** The keyword references in use are list objects of the heap: the
    current one, and the one the call in flight in thread [tid] holds. *)
Record refs_ok (tid : nat) (s : Sys) : Prop := mkRefsOk {
  ok_current : is_Some (heap (session s) !! keywords (self (session s)));
  ok_job :
    forall th idx pdf dest kw rest,
      threads s !! tid = Some th ->
      pc th = InJob idx pdf dest kw rest -> is_Some (heap (session s) !! kw)
}.

(** What a batch enqueues before the completion tuple: for each file its
    one line, then its progress tuple. *)
Fixpoint batch_items (idx : nat) (lines : list str) : list LogItem :=
  match lines with
  | [] => []
  | l :: ls => Line l :: Tagged PROGRESS idx :: batch_items (S idx) ls
  end.

(** A line reports either a hit count or an error for the file. *)
Definition reports (pdf : Path) (line : str) : Prop :=
  (exists hits, line = success_line pdf hits)
  \/ (exists e, line = failure_line pdf e).

(** The payloads of the progress tuples, and of the completion tuples,
    among some items. *)
Fixpoint progress_values (items : list LogItem) : list nat :=
  match items with
  | [] => []
  | Tagged tag payload :: items' =>
      if decide (tag = PROGRESS) then payload :: progress_values items'
      else progress_values items'
  | Line _ :: items' => progress_values items'
  end.

Fixpoint done_values (items : list LogItem) : list nat :=
  match items with
  | [] => []
  | Tagged tag payload :: items' =>
      if decide (tag = DONE) then payload :: done_values items'
      else done_values items'
  | Line _ :: items' => done_values items'
  end.

(** What a thread that goes on to return enqueues from where it stands:
    a line and a progress tuple for each file still to report, then the
    completion tuple. *)
Definition output_from (th : Thread) (lines : list str) (items : list LogItem)
  : Prop :=
  match pc th with
  | AtEntry =>
      Forall2 reports (batch th) lines
      /\ items = batch_items 1 lines ++ [Tagged DONE (total th)]
  | AtLoop idx rest =>
      Forall2 reports rest lines
      /\ items = batch_items idx lines ++ [Tagged DONE (total th)]
  | InJob idx pdf _ _ rest =>
      Forall2 reports (pdf :: rest) lines
      /\ items = batch_items idx lines ++ [Tagged DONE (total th)]
  | AfterJob idx rest =>
      Forall2 reports rest lines
      /\ items = Tagged PROGRESS idx :: batch_items (S idx) lines
                 ++ [Tagged DONE (total th)]
  | Finished => lines = [] /\ items = []
  | Crashed _ _ _ => False
  end.

(** The moves of a worker thread, one case per place in the loop. *)
Inductive worker_move (x : Session) (th : Thread) (w : World)
  : Event -> Thread -> World -> Prop :=
| move_enter :
    pc th = AtEntry ->
    worker_move x th w (EEnter (dest_base_of (self x)))
      (mkThread (batch th) (dest_base_of (self x)) (AtLoop 1 (batch th))) w
| move_bind idx pdf rest dest :
    pc th = AtLoop idx (pdf :: rest) ->
    dest_path_of (thr_dest_base th) (src_folder (self x)) pdf = inr dest ->
    worker_move x th w
      (EBind idx pdf dest (deref (heap x) (keywords (self x))))
      (with_pc th (InJob idx pdf dest (keywords (self x)) rest)) w
| move_crash idx pdf rest e :
    pc th = AtLoop idx (pdf :: rest) ->
    dest_path_of (thr_dest_base th) (src_folder (self x)) pdf = inl e ->
    worker_move x th w (ECrash e)
      (with_pc th (Crashed idx (pdf :: rest) e)) w
| move_run idx pdf dest kw rest t line :
    pc th = InJob idx pdf dest kw rest ->
    reports pdf line ->
    worker_move x th w (ERun idx (deref (heap x) kw) [Line line])
      (with_pc th (AfterJob idx rest))
      (mkWorld t (log_q w ++ [Line line]))
| move_progress idx rest :
    pc th = AfterJob idx rest ->
    worker_move x th w (EPut (Tagged PROGRESS idx))
      (with_pc th (AtLoop (S idx) rest))
      (mkWorld (fs w) (log_q w ++ [Tagged PROGRESS idx]))
| move_done idx :
    pc th = AtLoop idx [] ->
    worker_move x th w (EPut (Tagged DONE (total th)))
      (with_pc th Finished)
      (mkWorld (fs w) (log_q w ++ [Tagged DONE (total th)])).

(** The moves of the application: a move of a worker thread, the
    foreground taking one item, or a handler. *)
Inductive move (case_sensitive : bool) (s : Sys)
  : Action -> Label -> Sys -> Prop :=
| move_worker tid th ev th1 w1 :
    threads s !! tid = Some th ->
    worker_move (session s) th (world s) ev th1 w1 ->
    move case_sensitive s (ActWorker tid) (LWorker tid ev)
         (with_thread s tid th1 w1)
| move_get item q :
    log_q (world s) = item :: q ->
    move case_sensitive s ActGet (LGet item)
         (mkSys (session s) (threads s)
                (mkWorld (fs (world s)) q) (show_item (ui s) item))
| move_edit result :
    move case_sensitive s (ActEdit result)
         (LRebind (current_keywords
                     (with_session s (_edit_keywords result (session s)))))
         (with_session s (_edit_keywords result (session s)))
| move_load text :
    move case_sensitive s (ActLoad text)
         (LRebind (current_keywords
                     (with_session s (_load_kw_file text (session s)))))
         (with_session s (_load_kw_file text (session s)))
| move_src folder :
    move case_sensitive s (ActChooseSrc folder) LFolder
         (with_session s (_choose_src folder (session s)))
| move_dest folder :
    move case_sensitive s (ActChooseDest folder) LFolder
         (with_session s (_choose_dest folder (session s)))
| move_start s1 :
    _start case_sensitive s = Started s1 ->
    move case_sensitive s ActStart (LStart (length (threads s))) s1
| move_notice title :
    _start case_sensitive s = ShowError title
    \/ _start case_sensitive s = ShowInfo title ->
    move case_sensitive s ActStart (LNotice title) s.

(** A handler that leaves the source folder [src] in place. *)
Definition keeps_src (src : Path) (a : Action) : Prop :=
  match a with
  | ActChooseSrc (Some f) => f = src
  | _ => True
  end.

(** An action other than the start handler. *)
Definition no_start (a : Action) : Prop :=
  match a with ActStart => False | _ => True end.

(** A file lies under a folder. *)
Definition under (src pdf : Path) : Prop := exists rel, pdf = src ++ rel.

End App.

(* ===================================================================== *)
(** ** The remaining handlers *)
(* ===================================================================== *)

Module Handlers.
Import PyStr PyPath FileSys Engine App.

Definition SPACE : char := 32.

(** [", ".join(self.keywords) if self.keywords else ""], the text the
    edit dialog opens with. *)
Definition edit_initial_value (kws : list str) : str :=
  if truthy_list kws then join [COMMA; SPACE] kws else [].

(** What [_append_log] has written for the items taken: every line
    followed by a newline, tuples leaving no text. *)
Fixpoint logged (items : list LogItem) : str :=
  match items with
  | [] => []
  | Line text :: items' => text ++ [LF] ++ logged items'
  | Tagged _ _ :: items' => logged items'
  end.

End Handlers.

(* ===================================================================== *)
(** ** A sample capability and a sample folder *)
(* ===================================================================== *)

(** A small stand-in for the capabilities, used to run the program on
    concrete inputs.  A file opens when it starts with the marker; its
    pages are the form-feed separated parts of the text that follows, and
    the highlights it carries are listed after a NUL character, a (page,
    offset) pair each; a search returns the offsets at which the keyword
    occurs, letter case ignored. *)
Module Toy.
Import PyStr PyPath FileSys Engine App.

Record doc : Type := mkDoc { pages : list (list N); marks : list (nat * nat) }.

Definition MAGIC : str := py "%PDF".
Definition FORM_FEED : char := 12.
Definition NUL : char := 0.
Definition SLASH : char := 47.
Definition QUOTE : char := 39.

Fixpoint is_prefix (a b : str) : bool :=
  match a, b with
  | [], _ => true
  | x :: a', y :: b' => (x =? y) && is_prefix a' b'
  | _ :: _, [] => false
  end.

Fixpoint find_all (needle hay : str) (off : nat) : list nat :=
  match hay with
  | [] => []
  | _ :: hay' =>
      (if is_prefix needle hay then [off] else [])
      ++ find_all needle hay' (S off)
  end.

(** Highlights as they are written to a file: page and offset, each
    raised by one so that no NUL occurs among them. *)
Definition encode_marks (ms : list (nat * nat)) : list N :=
  flat_map (fun m => [N.of_nat (S (fst m)); N.of_nat (S (snd m))]) ms.

Fixpoint decode_marks (cs : list N) : list (nat * nat) :=
  match cs with
  | i :: r :: cs' =>
      (Nat.pred (N.to_nat i), Nat.pred (N.to_nat r)) :: decode_marks cs'
  | _ => []
  end.

Definition open_doc (t : node) (p : Path) : Exc + doc :=
  match read_file t p with
  | Some data =>
      if is_prefix MAGIC data
      then
        match split NUL (drop 4 data) with
        | text :: rest =>
            inr (mkDoc (split FORM_FEED text) (decode_marks (concat rest)))
        | [] => inr (mkDoc [] [])
        end
      else inl (py "cannot open broken document")
  | None => inl (py "no such file")
  end.

Definition search (d : doc) (i : nat) (kw : str) (quads : bool)
    (hit_max flags : N) : Exc + list nat :=
  match pages d !! i with
  | Some text =>
      inr (if truthy kw then find_all (lower kw) (lower text) 0 else [])
  | None => inl (py "page not in document")
  end.

Definition add_annot (d : doc) (i : nat) (r : nat) : Exc + (doc * nat) :=
  inr (mkDoc (pages d) (marks d ++ [(i, r)]), length (marks d)).

Definition render (d : doc) : list N :=
  MAGIC ++ join [FORM_FEED] (pages d)
  ++ match marks d with [] => [] | ms => NUL :: encode_marks ms end.

Definition save_doc (d : doc) (p : Path) (garbage : N) (deflate : bool)
    (t : node) : node * option Exc :=
  match write_file p (render d) t with
  | Some t' => (t', None)
  | None => (t, Some (py "cannot save"))
  end.

(** The text of the error of [mkdir], worded as on Linux. *)
Definition mkdir_text (t : node) (p : Path) : Exc :=
  (if is_file t p then py "[Errno 17] File exists: "
   else py "[Errno 20] Not a directory: ")
  ++ [QUOTE] ++ join [SLASH] p ++ [QUOTE].

Definition lib : PdfLib :=
  mkPdfLib doc nat nat 16 1
           open_doc
           (fun d => length (pages d))
           search
           add_annot
           (fun d _ _ => inr d)
           (fun d _ => inr d)
           save_doc
           (fun _ => None)
           mkdir_text.

(** [docs/a.pdf] and [docs/sub/c.pdf] open, [docs/b.pdf] does not. *)
Definition sample_fs : node :=
  Dir [(py "docs",
        Dir [(py "a.pdf", File (py "%PDFFail-Safe plan"));
             (py "b.pdf", File (py "not a pdf"));
             (py "sub", Dir [(py "c.pdf", File (py "%PDFsafe and SAFE"))])])].

Definition docs : Path := [py "docs"].
Definition out : Path := [py "out"].

Definition sample_session (dest : option Path) (kws : list str) : Session :=
  mkSession (mkSelf (Some docs) dest 0) {[ 0%nat := kws ]}.

Definition sample_world : World := mkWorld sample_fs [].

(** A folder whose only file has an upper-case extension. *)
Definition upper_fs : node := Dir [(py "A.PDF", File (py "%PDFx"))].

(** The application with the sample folder as source, [out] as
    destination and one keyword, before the start button is pressed; and
    after it has been. *)
Definition sample_app : Sys :=
  mkSys (sample_session (Some out) [py "safe"]) [] sample_world
        (mkUI 100 0 [] []).

Definition sample_sys : Sys :=
  mkSys (sample_session (Some out) [py "safe"])
        [mkThread (walk_pdfs true sample_fs docs) None AtEntry]
        sample_world (mkUI 3 0 [] []).

(** One file is processed, the list is edited, the next call starts. *)
Definition edit_between_jobs : list Action :=
  [ActWorker 0; ActWorker 0; ActWorker 0; ActWorker 0;
   ActEdit (Some (py "plan")); ActWorker 0; ActWorker 0].

(** The list is edited while the first call is in flight. *)
Definition edit_in_flight : list Action :=
  [ActWorker 0; ActWorker 0; ActEdit (Some (py "plan")); ActWorker 0; ActGet].

(** The source folder is changed to another folder after the first file:
    the destination of the second file can no longer be computed. *)
Definition source_changed : list Action :=
  [ActWorker 0; ActWorker 0; ActWorker 0; ActWorker 0;
   ActChooseSrc (Some [py "elsewhere"]); ActWorker 0; ActWorker 0].

(** A folder with a file of the same name in the folder and in a
    subfolder, annotated in place. *)
Definition twin_fs : node :=
  Dir [(py "docs",
        Dir [(py "c.pdf", File (py "%PDFsafe"));
             (py "sub", Dir [(py "c.pdf", File (py "%PDFSAFE"))])])].

Definition twin_app : Sys :=
  mkSys (sample_session None [py "safe"]) [] (mkWorld twin_fs [])
        (mkUI 100 0 [] []).

Definition twin_sys : Sys :=
  mkSys (sample_session None [py "safe"])
        [mkThread (walk_pdfs true twin_fs docs) None AtEntry]
        (mkWorld twin_fs []) (mkUI 2 0 [] []).

(** The source folder is changed to the subfolder after the first file. *)
Definition source_narrowed : list Action :=
  [ActWorker 0; ActWorker 0; ActWorker 0; ActWorker 0;
   ActChooseSrc (Some [py "docs"; py "sub"]); ActWorker 0].

(** The same capability on a full disk: every [save] raises and writes
    nothing. *)
Definition full_disk_lib : PdfLib :=
  mkPdfLib doc nat nat 16 1
           open_doc
           (fun d => length (pages d))
           search
           add_annot
           (fun d _ _ => inr d)
           (fun d _ => inr d)
           (fun _ _ _ _ t => (t, Some (py "disk full")))
           (fun _ => None)
           mkdir_text.

(** The same capability on a disk that fills up during [save]: the first
    three characters are written, then [save] raises. *)
Definition torn_save (d : doc) (p : Path) (garbage : N) (deflate : bool)
    (t : node) : node * option Exc :=
  match write_file p (take 3 (render d)) t with
  | Some t' => (t', Some (py "disk full"))
  | None => (t, Some (py "cannot save"))
  end.

Definition filling_disk_lib : PdfLib :=
  mkPdfLib doc nat nat 16 1
           open_doc
           (fun d => length (pages d))
           search
           add_annot
           (fun d _ _ => inr d)
           (fun d _ => inr d)
           torn_save
           (fun _ => None)
           mkdir_text.

End Toy.

(* ===================================================================== *)
(** * Properties *)
(* ===================================================================== *)

Import PyStr PyPath FileSys Engine App.

(** ** Keyword parsing *)

Section KeywordFacts.

Lemma stripped_nonempty_spec (xs : list (list N)) :
  stripped_nonempty xs = spec_trim_drop xs.
Proof.
  unfold spec_trim_drop.
  induction xs as [|x xs IH]; simpl; [reflexivity|].
  destruct (truthy (strip x)); simpl; congruence.
Qed.

Lemma lstrip_no_leading (s : list N) : starts_ws (lstrip s) = false.
Proof.
  induction s as [|c s IH]; simpl; [reflexivity|].
  destruct (isspace c) eqn:E; [exact IH|]. simpl. exact E.
Qed.

Lemma lstrip_snoc (l : list N) (c : N) :
  isspace c = false -> lstrip (l ++ [c]) = lstrip l ++ [c].
Proof.
  intros Hc. induction l as [|d l IH]; simpl.
  - rewrite Hc. reflexivity.
  - destruct (isspace d); [exact IH|reflexivity].
Qed.

Lemma rstrip_cons (c : N) (s : list N) :
  isspace c = false -> rstrip (c :: s) = c :: rstrip s.
Proof.
  intros Hc. unfold rstrip. simpl.
  rewrite lstrip_snoc by exact Hc.
  rewrite rev_app_distr. reflexivity.
Qed.

Lemma rstrip_keeps_start (s : list N) :
  starts_ws s = false -> starts_ws (rstrip s) = false.
Proof.
  destruct s as [|c s]; simpl; intros H.
  - reflexivity.
  - rewrite rstrip_cons by exact H. simpl. exact H.
Qed.

Lemma strip_trimmed (s : list N) :
  starts_ws (strip s) = false /\ ends_ws (strip s) = false.
Proof.
  unfold strip. split.
  - apply rstrip_keeps_start, lstrip_no_leading.
  - unfold ends_ws, rstrip. rewrite rev_involutive. apply lstrip_no_leading.
Qed.

Lemma stripped_nonempty_keywords (xs : list (list N)) :
  Forall is_keyword (stripped_nonempty xs).
Proof.
  induction xs as [|x xs IH]; simpl; [constructor|].
  destruct (truthy (strip x)) eqn:E; [|exact IH].
  constructor; [|exact IH].
  split; [|apply strip_trimmed].
  intros H. rewrite H in E. discriminate.
Qed.

Lemma no_break_snoc (l : list N) (c : N) :
  no_break l -> islinebreak c = false -> no_break (l ++ [c]).
Proof.
  intros Hl Hc. apply Forall_app. split; [exact Hl|].
  constructor; [exact Hc|constructor].
Qed.

Lemma splitlines_from_spec (n : nat) :
  forall (s line : list N),
    (length s <= n)%nat -> no_break line ->
    lines_of (line ++ s) (splitlines_from line s).
Proof.
  induction n as [|n IH]; intros s line Hlen Hline.
  - destruct s; [|simpl in Hlen; lia]. simpl. rewrite app_nil_r.
    destruct line; [constructor|]. apply lines_last; [discriminate|exact Hline].
  - destruct s as [|c s]; simpl.
    { rewrite app_nil_r.
      destruct line; [constructor|].
      apply lines_last; [discriminate|exact Hline]. }
    simpl in Hlen.
    destruct (islinebreak c) eqn:Hc.
    + destruct s as [|d s].
      * change (line ++ [c]) with (line ++ [c] ++ []).
        apply lines_more; [exact Hline| |constructor].
        apply boundary_one; [exact Hc|]. intros _ r. discriminate.
      * destruct ((c =? CR) && (d =? LF)) eqn:Hcr.
        -- apply andb_true_iff in Hcr as [H1 H2].
           apply N.eqb_eq in H1, H2. subst c d.
           change (line ++ CR :: LF :: s) with (line ++ [CR; LF] ++ ([] ++ s)).
           apply lines_more; [exact Hline|constructor|].
           apply IH; [simpl in Hlen; lia|constructor].
        -- change (line ++ c :: d :: s) with (line ++ [c] ++ ([] ++ d :: s)).
           apply lines_more; [exact Hline| |].
           ++ apply boundary_one; [exact Hc|].
              intros -> r Hr. simpl in Hr. injection Hr as -> _.
              discriminate.
           ++ apply IH; [lia|constructor].
    + replace (line ++ c :: s) with ((line ++ [c]) ++ s)
        by (rewrite <- app_assoc; reflexivity).
      apply IH; [lia|]. apply no_break_snoc; assumption.
Qed.

Lemma splitlines_spec (s : list N) : lines_of s (splitlines s).
Proof.
  apply (splitlines_from_spec (length s) s []); [lia|constructor].
Qed.

Lemma split_from_join (sep : N) (s piece : list N) :
  join [sep] (split_from sep piece s) = piece ++ s.
Proof.
  revert piece. induction s as [|c s IH]; intros piece; simpl.
  - rewrite app_nil_r. reflexivity.
  - destruct (c =? sep) eqn:E.
    + apply N.eqb_eq in E. subst c.
      specialize (IH []). simpl in IH.
      change (join [sep] (piece :: split_from sep [] s))
        with (match split_from sep [] s with
              | [] => piece
              | _ => piece ++ [sep] ++ join [sep] (split_from sep [] s)
              end).
      destruct (split_from sep [] s) eqn:Es.
      * destruct s; simpl in Es; [discriminate|].
        destruct (n =? sep); discriminate.
      * rewrite IH. reflexivity.
    + rewrite IH. rewrite <- app_assoc. reflexivity.
Qed.

Lemma split_from_pieces (sep : N) (s piece : list N) :
  Forall (fun c => c <> sep) piece ->
  Forall (Forall (fun c => c <> sep)) (split_from sep piece s).
Proof.
  revert piece. induction s as [|c s IH]; intros piece Hp; simpl.
  - constructor; [exact Hp|constructor].
  - destruct (c =? sep) eqn:E.
    + constructor; [exact Hp|]. apply IH. constructor.
    + apply IH. apply Forall_app. split; [exact Hp|].
      constructor; [|constructor]. apply N.eqb_neq. exact E.
Qed.

End KeywordFacts.

Section KeywordClaims.

Lemma lstrip_blank (l : list N) :
  lstrip l = [] <-> Forall (fun c => isspace c = true) l.
Proof.
  induction l as [|c l IH]; simpl.
  - split; [constructor|reflexivity].
  - destruct (isspace c) eqn:E.
    + rewrite IH. split; [intros H; constructor; assumption|].
      intros H. inversion H; assumption.
    + split; [discriminate|]. intros H. inversion H; congruence.
Qed.

Lemma strip_blank (l : list N) :
  strip l = [] <-> Forall (fun c => isspace c = true) l.
Proof.
  rewrite <- lstrip_blank. unfold strip.
  pose proof (lstrip_no_leading l) as Hs.
  destruct (lstrip l) as [|c r]; [split; reflexivity|].
  simpl in Hs. rewrite rstrip_cons by exact Hs. split; discriminate.
Qed.

Lemma deref_rebind (s : Session) (kws : list (list N)) :
  deref (heap (rebind_keywords s kws)) (keywords (self (rebind_keywords s kws)))
  = kws.
Proof.
  unfold rebind_keywords, deref. simpl. rewrite lookup_insert_eq. reflexivity.
Qed.

(** C7. Loading keywords splits the text on line boundaries, trims every
    line, discards exactly the lines that are empty or all whitespace, and
    keeps the others in order; no resulting keyword is empty or has
    whitespace at either end. *)
Theorem load_keywords_trimmed_nonblank_in_order (text : list N) :
  lines_of text (splitlines text)
  /\ load_keywords_from_text text = spec_trim_drop (splitlines text)
  /\ (forall l, strip l = [] <-> Forall (fun c => isspace c = true) l)
  /\ Forall is_keyword (load_keywords_from_text text).
Proof.
  split; [apply splitlines_spec|].
  split; [apply stripped_nonempty_spec|].
  split; [apply strip_blank|].
  apply stripped_nonempty_keywords.
Qed.

(** C8. Parsing comma-separated text splits on every comma, trims each
    piece, discards the empty pieces and keeps the order; it is defined on
    every input, the empty text gives the empty list, and
    "foo, , bar,baz " gives foo, bar, baz. *)
Theorem parse_keywords_comma_separated :
  (forall result : list N,
      join [COMMA] (split COMMA result) = result
      /\ Forall (Forall (fun c => c <> COMMA)) (split COMMA result)
      /\ parse_keywords result = spec_trim_drop (split COMMA result)
      /\ Forall is_keyword (parse_keywords result)
      /\ forall s : Session,
          let s' := _edit_keywords (Some result) s in
          deref (heap s') (keywords (self s')) = parse_keywords result)
  /\ parse_keywords [] = []
  /\ parse_keywords (py "foo, , bar,baz ") = [py "foo"; py "bar"; py "baz"].
Proof.
  split; [|split; reflexivity].
  intros result.
  split; [apply (split_from_join COMMA result [])|].
  split; [apply split_from_pieces; constructor|].
  split; [apply stripped_nonempty_spec|].
  split; [apply stripped_nonempty_keywords|].
  intros s. simpl. apply deref_rebind.
Qed.

End KeywordClaims.

(** ** Paths, patterns and the directory tree *)

Section TreeFacts.

Lemma node_ind' (P : node -> Prop) :
  (forall d, P (File d)) ->
  (forall es, Forall (fun e => P (snd e)) es -> P (Dir es)) ->
  forall t, P t.
Proof.
  intros Hf Hd. fix IH 1. intros [d|es]; [apply Hf|].
  apply Hd. induction es as [|e es IHes]; constructor; [apply IH|exact IHes].
Qed.

Lemma find_entry_In (n : list N) (es : list (list N * node)) (c : node) :
  find_entry n es = Some c -> In (n, c) es.
Proof.
  induction es as [|[m d] es IH]; simpl; [discriminate|].
  destruct (decide (m = n)) as [->|Hne].
  - intros [= ->]. left. reflexivity.
  - intros H. right. apply IH, H.
Qed.

Lemma find_entry_unique (n : list N) (es : list (list N * node)) (c : node) :
  NoDup (map fst es) -> In (n, c) es -> find_entry n es = Some c.
Proof.
  induction es as [|[m d] es IH]; simpl; [intros _ []|].
  intros Hnd Hin. apply NoDup_cons in Hnd as [Hm Hnd].
  destruct (decide (m = n)) as [->|Hne].
  - destruct Hin as [[= ->]|Hin]; [reflexivity|].
    exfalso. apply Hm. apply list_elem_of_In.
    apply in_map_iff. exists (n, c). split; [reflexivity|exact Hin].
  - destruct Hin as [[= -> _]|Hin]; [congruence|]. apply IH; assumption.
Qed.

Lemma resolve_app (t : node) (p q : list (list N)) :
  resolve t (p ++ q)
  = match resolve t p with Some c => resolve c q | None => None end.
Proof.
  revert t. induction p as [|n p IH]; intros t; simpl; [reflexivity|].
  destruct t as [d|es]; [reflexivity|].
  destruct (find_entry n es); [apply IH|reflexivity].
Qed.

Lemma name_app (here rel : list (list N)) :
  rel <> [] -> name (here ++ rel) = name rel.
Proof.
  intros Hrel. unfold name.
  induction here as [|h here IH]; simpl; [reflexivity|].
  destruct (here ++ rel) eqn:E; [|exact IH].
  apply app_eq_nil in E as [_ ->]. congruence.
Qed.

(** A pattern without wildcards matches itself only. *)
Lemma fnmatch_literal (pat nm : list N) :
  Forall (fun c => c <> STAR /\ c <> QUESTION) pat ->
  fnmatch pat nm = true <-> nm = pat.
Proof.
  intros Hlit. revert nm.
  induction Hlit as [|c pat [Hs Hq] _ IH]; intros nm; simpl.
  - destruct nm; split; congruence.
  - apply N.eqb_neq in Hs, Hq. rewrite Hs, Hq. simpl.
    destruct nm as [|d nm]; [split; discriminate|].
    rewrite andb_true_iff, N.eqb_eq, IH. split.
    + intros [-> ->]. reflexivity.
    + intros [= -> ->]. split; reflexivity.
Qed.

(** [*] followed by a literal: the name ends with the literal. *)
Lemma fnmatch_star_literal (lit nm : list N) :
  Forall (fun c => c <> STAR /\ c <> QUESTION) lit ->
  fnmatch (STAR :: lit) nm = true <-> exists stem, nm = stem ++ lit.
Proof.
  intros Hlit. simpl.
  induction nm as [|d nm IH].
  - rewrite orb_false_r, fnmatch_literal by exact Hlit. split.
    + intros <-. exists []. reflexivity.
    + intros [stem H]. symmetry in H. apply app_eq_nil in H as [_ ->].
      reflexivity.
  - rewrite orb_true_iff, IH, fnmatch_literal by exact Hlit. split.
    + intros [<-|[stem ->]]; [exists []; reflexivity|].
      exists (d :: stem). reflexivity.
    + intros [[|e stem] H]; simpl in H.
      * left. exact H.
      * right. injection H as -> ->. exists stem. reflexivity.
Qed.

Lemma glob_match_pdf (cs : bool) (nm : list N) :
  glob_match cs PDF_PATTERN nm = true
  <-> exists stem, (if cs then nm else lower nm) = stem ++ PDF_SUFFIX.
Proof.
  assert (Hlit : Forall (fun c => c <> STAR /\ c <> QUESTION) PDF_SUFFIX).
  { repeat constructor; discriminate. }
  unfold glob_match. destruct cs.
  - apply (fnmatch_star_literal PDF_SUFFIX nm Hlit).
  - apply (fnmatch_star_literal PDF_SUFFIX (lower nm) Hlit).
Qed.

(** What [rglob_tree] lists lies strictly below [here] and has a
    matching name. *)
Lemma rglob_tree_sound (m : list N -> bool) (t : node) :
  forall here p,
    In p (rglob_tree m here t) ->
    exists rel, rel <> [] /\ p = here ++ rel /\ m (name p) = true.
Proof.
  induction t as [d|es IH] using node_ind'; intros here p; simpl; [intros []|].
  rewrite in_app_iff, in_map_iff, in_flat_map.
  intros [[e [<- He]]|[e [He Hp]]].
  - apply filter_In in He as [_ Hm].
    exists [fst e]. split; [discriminate|]. split; [reflexivity|].
    rewrite name_app by discriminate. exact Hm.
  - rewrite Forall_forall in IH.
    destruct (IH e (proj2 (list_elem_of_In _ _) He) _ _ Hp)
      as [rel [Hrel [-> Hm]]].
    exists (fst e :: rel). split; [discriminate|].
    split; [rewrite <- app_assoc; reflexivity|exact Hm].
Qed.

(** Every node reachable below [here] under a matching name is listed. *)
Lemma rglob_tree_complete (m : list N -> bool) (rel : list (list N)) :
  forall t here c,
    rel <> [] -> resolve t rel = Some c -> m (name rel) = true ->
    In (here ++ rel) (rglob_tree m here t).
Proof.
  induction rel as [|n rel IH]; intros t here c Hne Hres Hm; [congruence|].
  simpl in Hres. destruct t as [d|es]; [discriminate|].
  destruct (find_entry n es) as [k|] eqn:Hf; [|discriminate].
  apply find_entry_In in Hf. simpl.
  rewrite in_app_iff, in_map_iff, in_flat_map.
  destruct rel as [|n' rel].
  - left. exists (n, k). split; [reflexivity|].
    apply filter_In. split; [exact Hf|exact Hm].
  - right. exists (n, k). split; [exact Hf|]. simpl.
    replace (here ++ n :: n' :: rel) with ((here ++ [n]) ++ n' :: rel)
      by (rewrite <- app_assoc; reflexivity).
    apply (IH k (here ++ [n]) c); [discriminate|exact Hres|].
    unfold name in *. exact Hm.
Qed.

End TreeFacts.

Section WalkFacts.

Lemma walk_pdfs_iff (cs : bool) (fs : node) (folder p : list (list N)) :
  In p (walk_pdfs cs fs folder)
  <-> is_file fs p = true
      /\ exists rel, rel <> [] /\ p = folder ++ rel
                     /\ glob_match cs PDF_PATTERN (name p) = true.
Proof.
  unfold walk_pdfs, rglob. rewrite filter_In. split.
  - intros [Hin Hf]. split; [exact Hf|].
    destruct (resolve fs folder) as [t|]; [|destruct Hin].
    apply rglob_tree_sound in Hin. exact Hin.
  - intros [Hf [rel [Hne [-> Hm]]]]. split; [|exact Hf].
    unfold is_file in Hf. rewrite resolve_app in Hf.
    destruct (resolve fs folder) as [t|]; [|discriminate].
    destruct (resolve t rel) as [c|] eqn:Hres; [|discriminate].
    apply (rglob_tree_complete _ rel t folder c Hne Hres).
    rewrite name_app in Hm by exact Hne. exact Hm.
Qed.

Lemma is_file_child (fs : node) (here : list (list N))
    (es : list (list N * node)) (n : list N) (c : node) :
  resolve fs here = Some (Dir es) ->
  NoDup (map fst es) -> In (n, c) es ->
  resolve fs (here ++ [n]) = Some c.
Proof.
  intros Hres Hnd Hin. rewrite resolve_app, Hres. simpl.
  rewrite (find_entry_unique n es c Hnd Hin). reflexivity.
Qed.

Lemma count_listed_files (m : list N -> bool) (fs : node) (t : node) :
  forall here nm,
    resolve fs here = Some t ->
    unique_names t = true ->
    all_files_match m nm t = true ->
    length (List.filter (is_file fs) (rglob_tree m here t))
    = match t with File _ => 0%nat | Dir _ => count_files t end.
Proof.
  induction t as [d|es IH] using node_ind'; intros here nm Hres Hu Hall;
    [reflexivity|].
  simpl in Hu, Hall. apply andb_true_iff in Hu as [Hnd Hu].
  apply bool_decide_eq_true in Hnd.
  simpl. rewrite List.filter_app, length_app.
  assert (Hsub : incl es es) by apply incl_refl.
  revert Hsub Hu Hall IH. generalize es at 1 3 4 5 6 7 8 as es'.
  induction es' as [|[n c] es' IHes]; intros Hsub Hu Hall IH; [reflexivity|].
  simpl in Hu, Hall.
  apply andb_true_iff in Hu as [Hu1 Hu2].
  apply andb_true_iff in Hall as [Hall1 Hall2].
  apply Forall_cons in IH as [IH1 IH2]. simpl in IH1.
  assert (Hin : In (n, c) es) by (apply Hsub; left; reflexivity).
  assert (Hsub' : incl es' es) by (intros x Hx; apply Hsub; right; exact Hx).
  specialize (IHes Hsub' Hu2 Hall2 IH2).
  pose proof (is_file_child fs here es n c Hres Hnd Hin) as Hchild.
  simpl. rewrite List.filter_app, length_app.
  destruct c as [d|es2].
  - simpl in Hall1. rewrite Hall1. simpl.
    unfold is_file at 1. rewrite Hchild. simpl.
    simpl in IHes. lia.
  - specialize (IH1 (here ++ [n]) n Hchild Hu1 Hall1).
    rewrite IH1.
    destruct (m n); simpl.
    + unfold is_file at 1. rewrite Hchild. simpl in *. lia.
    + simpl in *. lia.
Qed.

Lemma rglob_tree_longer (m : list N -> bool) (t : node)
    (here p : list (list N)) :
  In p (rglob_tree m here t) -> (length here < length p)%nat.
Proof.
  intros H. apply rglob_tree_sound in H as [rel [Hne [-> _]]].
  rewrite length_app. destruct rel; [congruence|simpl; lia].
Qed.

Lemma rglob_tree_prefix (m : list N -> bool) (t : node)
    (here p : list (list N)) :
  In p (rglob_tree m here t) -> take (length here) p = here.
Proof.
  intros H. apply rglob_tree_sound in H as [rel [_ [-> _]]].
  rewrite take_app_length. reflexivity.
Qed.

Lemma snoc_inj (here : list (list N)) (a b : list N) :
  take (S (length here)) (here ++ [a]) = here ++ [b] -> a = b.
Proof.
  intros H. rewrite take_ge in H by (rewrite length_app; simpl; lia).
  apply app_inv_head in H. congruence.
Qed.

(** Under unique names no path is listed twice. *)
Lemma rglob_tree_NoDup (m : list N -> bool) (t : node) :
  unique_names t = true -> forall here, NoDup (rglob_tree m here t).
Proof.
  induction t as [d|es IH] using node_ind'; intros Hu here; [constructor|].
  simpl in Hu. apply andb_true_iff in Hu as [Hnd Hu].
  apply bool_decide_eq_true in Hnd. simpl.
  apply NoDup_app. split; [|split].
  - clear IH Hu. induction es as [|[n c] es IHes]; [constructor|].
    simpl in Hnd. apply NoDup_cons in Hnd as [Hn Hnd]. simpl.
    destruct (m n); [|apply IHes, Hnd]. simpl.
    apply NoDup_cons. split; [|apply IHes, Hnd].
    intros Hin. apply Hn. apply list_elem_of_In in Hin.
    apply in_map_iff in Hin as [[n' c'] [Heq Hin]].
    apply filter_In in Hin as [Hin _]. simpl in Heq.
    apply app_inv_head in Heq. injection Heq as ->.
    apply list_elem_of_In, in_map_iff. exists (n, c'). split; [reflexivity|].
    exact Hin.
  - intros p Hp Hq. apply list_elem_of_In in Hp, Hq.
    apply in_map_iff in Hp as [e [<- _]].
    apply in_flat_map in Hq as [e' [_ Hq]].
    apply rglob_tree_longer in Hq. rewrite !length_app in Hq. simpl in Hq.
    lia.
  - induction es as [|[n c] es IHes]; [constructor|].
    simpl in Hnd, Hu. apply NoDup_cons in Hnd as [Hn Hnd].
    apply andb_true_iff in Hu as [Hu1 Hu].
    apply Forall_cons in IH as [IH1 IH]. simpl in IH1. simpl.
    apply NoDup_app. split; [apply IH1, Hu1|].
    split; [|apply IHes; assumption].
    intros p Hp Hq. apply list_elem_of_In in Hp, Hq.
    apply in_flat_map in Hq as [[n' c'] [Hin Hq]]. simpl in Hq.
    apply rglob_tree_prefix in Hp, Hq.
    rewrite length_app in Hp, Hq. simpl in Hp, Hq.
    rewrite Hp in Hq.
    apply app_inv_head in Hq. injection Hq as ->.
    apply Hn, list_elem_of_In, in_map_iff. exists (n', c').
    split; [reflexivity|exact Hin].
Qed.

Lemma walk_pdfs_NoDup (cs : bool) (fs : node) (folder : list (list N))
    (t : node) :
  resolve fs folder = Some t -> unique_names t = true ->
  NoDup (walk_pdfs cs fs folder).
Proof.
  intros Hres Hu. unfold walk_pdfs, rglob. rewrite Hres.
  apply NoDup_ListNoDup, List.NoDup_filter, NoDup_ListNoDup.
  apply rglob_tree_NoDup, Hu.
Qed.

Lemma Forall2_In_r {A B} (R : A -> B -> Prop) (l : list A) (l' : list B)
    (y : B) :
  Forall2 R l l' -> In y l' -> exists x, In x l /\ R x y.
Proof.
  induction 1 as [|x y' l l' Hxy _ IH]; simpl; [intros []|].
  intros [<-|Hin]; [exists x; split; [left; reflexivity|exact Hxy]|].
  destruct (IH Hin) as [x' [Hx' HR]]. exists x'. split; [right|]; assumption.
Qed.

End WalkFacts.

Section DiscoveryClaims.

(** C6. Discovery returns exactly the regular files strictly below the
    root whose names match the pattern, never a directory; when every
    file below the root matches, the number of paths returned is the
    number of files, each with a matching name; with no matching file the
    result is the empty list. *)
Theorem walk_pdfs_exactly_the_pdf_files (cs : bool) (fs : node)
    (folder : list (list N)) :
  (forall p,
      In p (walk_pdfs cs fs folder)
      <-> is_file fs p = true
          /\ exists rel, rel <> [] /\ p = folder ++ rel
                         /\ glob_match cs PDF_PATTERN (name p) = true)
  /\ (forall p, In p (walk_pdfs cs fs folder) -> is_dir fs p = false)
  /\ (forall es,
         resolve fs folder = Some (Dir es) ->
         unique_names (Dir es) = true ->
         all_files_match (glob_match cs PDF_PATTERN) [] (Dir es) = true ->
         length (walk_pdfs cs fs folder) = count_files (Dir es))
  /\ ((forall rel, rel <> [] -> is_file fs (folder ++ rel) = true ->
                   glob_match cs PDF_PATTERN (name (folder ++ rel)) = false) ->
      walk_pdfs cs fs folder = []).
Proof.
  split; [apply walk_pdfs_iff|].
  split.
  { intros p Hp. apply walk_pdfs_iff in Hp as [Hf _].
    unfold is_file in Hf. unfold is_dir.
    destruct (resolve fs p) as [[d|es]|]; congruence. }
  split.
  { intros es Hres Hu Hall. unfold walk_pdfs, rglob. rewrite Hres.
    apply (count_listed_files _ fs (Dir es) folder [] Hres Hu Hall). }
  intros Hnone.
  destruct (walk_pdfs cs fs folder) as [|p l] eqn:E; [reflexivity|].
  assert (Hin : In p (walk_pdfs cs fs folder))
    by (rewrite E; left; reflexivity).
  apply walk_pdfs_iff in Hin as [Hf [rel [Hne [-> Hm]]]].
  rewrite (Hnone rel Hne Hf) in Hm. discriminate.
Qed.

(** C10, as amended. The pattern is the literal lowercase "*.pdf",
    matched under the traversal's casing rule: under a case-sensitive
    traversal every discovered name ends in the four characters ".pdf",
    so a name whose last four characters are anything else (".PDF", say)
    is never returned; under a case-insensitive traversal the name ends
    in ".pdf" up to letter case. *)
Theorem discovered_names_match_pdf_pattern (cs : bool) (fs : node)
    (folder p : list (list N)) :
  In p (walk_pdfs cs fs folder) ->
  (exists stem, (if cs then name p else lower (name p)) = stem ++ PDF_SUFFIX)
  /\ (cs = true ->
      forall stem ext,
        name p = stem ++ ext -> length ext = 4%nat -> ext = PDF_SUFFIX).
Proof.
  intros Hp. apply walk_pdfs_iff in Hp as [_ [rel [_ [_ Hm]]]].
  apply glob_match_pdf in Hm. split; [exact Hm|].
  intros -> stem ext Hname Hlen. destruct Hm as [stem' Hm].
  rewrite Hname in Hm.
  apply app_inj_2 in Hm as [_ ->]; [reflexivity|exact Hlen].
Qed.

Lemma discovered_names_match_pdf_pattern_witness :
  In [py "docs"; py "a.pdf"] (walk_pdfs true Toy.sample_fs Toy.docs)
  /\ (exists stem, name [py "docs"; py "a.pdf"] = stem ++ PDF_SUFFIX).
Proof.
  assert (H : In [py "docs"; py "a.pdf"]
                 (walk_pdfs true Toy.sample_fs Toy.docs)).
  { left. reflexivity. }
  split; [exact H|].
  exact (proj1 (discovered_names_match_pdf_pattern
                  true Toy.sample_fs Toy.docs [py "docs"; py "a.pdf"] H)).
Defined.

(** C10, as stated, fails under a case-insensitive traversal: the file
    A.PDF is discovered and its name does not end in ".pdf". *)
Lemma discovered_name_may_differ_in_case :
  ~ (forall (cs : bool) (fs : node) (folder p : list (list N)),
        In p (walk_pdfs cs fs folder) ->
        exists stem, name p = stem ++ PDF_SUFFIX).
Proof.
  intros H.
  destruct (H false Toy.upper_fs [] [py "A.PDF"]) as [stem Hstem].
  { left. reflexivity. }
  apply (f_equal (@rev N)) in Hstem. rewrite rev_app_distr in Hstem.
  discriminate Hstem.
Qed.

End DiscoveryClaims.

(** ** Destination paths *)

Section DestinationFacts.

Lemma relative_to_Some (p base rel : list (list N)) :
  relative_to p base = Some rel <-> p = base ++ rel.
Proof.
  revert p. induction base as [|b base IH]; intros p; simpl.
  - split; [intros [= ->]; reflexivity|intros ->; reflexivity].
  - destruct p as [|c p]; [split; discriminate|].
    destruct (decide (c = b)) as [->|Hne].
    + rewrite IH. split; [intros ->; reflexivity|intros [= ->]; reflexivity].
    + split; [discriminate|]. intros [= -> _]. congruence.
Qed.

Lemma dest_path_of_in_place (src pdf : list (list N)) :
  dest_path_of (Some src) (Some src) pdf = inr pdf.
Proof.
  unfold dest_path_of. destruct (decide (Some src <> Some src)); congruence.
Qed.

Lemma dest_path_of_mirror (d src pdf dest : list (list N)) :
  d <> src ->
  dest_path_of (Some d) (Some src) pdf = inr dest
  <-> exists rel, pdf = src ++ rel /\ dest = joinpath d rel.
Proof.
  intros Hne. unfold dest_path_of.
  destruct (decide (Some d <> Some src)) as [_|Heq];
    [|exfalso; apply Heq; congruence].
  destruct (relative_to pdf src) as [rel|] eqn:Hrel.
  - apply relative_to_Some in Hrel. split.
    + intros [= <-]. exists rel. split; [exact Hrel|reflexivity].
    + intros [rel' [Hp ->]]. rewrite Hp in Hrel.
      apply app_inv_head in Hrel. subst. reflexivity.
  - split; [discriminate|]. intros [rel [Hp _]].
    apply relative_to_Some in Hp. congruence.
Qed.

End DestinationFacts.

(** ** The highlight engine *)

Section EngineFacts.
Local Open Scope engine_scope.

Lemma readonly_ret {A} (a : A) : readonly (ret a).
Proof. intros w. reflexivity. Qed.

Lemma readonly_lift {A} (r : list N + A) : readonly (lift r).
Proof. intros w. destruct r; reflexivity. Qed.

Lemma readonly_bind {A B} (c : M A) (k : A -> M B) :
  readonly c -> (forall a, readonly (k a)) -> readonly (bind c k).
Proof.
  intros Hc Hk w. unfold bind. specialize (Hc w).
  destruct (c w) as [a w'|e w']; subst w'; [apply Hk|reflexivity].
Qed.

Lemma readonly_for_each {A S} (xs : list A) (body : A -> S -> M S) :
  (forall x s, readonly (body x s)) -> forall s, readonly (for_each xs body s).
Proof.
  intros Hb. induction xs as [|x xs IH]; intros s; simpl.
  - apply readonly_ret.
  - apply readonly_bind; [apply Hb|exact IH].
Qed.

Context (L : PdfLib).

Lemma readonly_annotate_hit i inst doc : readonly (annotate_hit L i inst doc).
Proof.
  unfold annotate_hit. apply readonly_bind; [apply readonly_lift|].
  intros [d a]. apply readonly_bind; [apply readonly_lift|].
  intros d'. apply readonly_lift.
Qed.

Lemma readonly_search_keyword i kw st : readonly (search_keyword L i kw st).
Proof.
  unfold search_keyword. destruct st as [doc hits].
  apply readonly_bind; [apply readonly_lift|]. intros insts.
  apply readonly_bind; [|intros d; apply readonly_ret].
  apply readonly_for_each. intros x s. apply readonly_annotate_hit.
Qed.

Lemma readonly_search_page kws i st : readonly (search_page L kws i st).
Proof.
  unfold search_page. apply readonly_for_each.
  intros x s. apply readonly_search_keyword.
Qed.

Lemma readonly_annotate_document src kws :
  readonly (annotate_document L src kws).
Proof.
  unfold annotate_document.
  apply readonly_bind; [intros w; reflexivity|]. intros t.
  apply readonly_bind; [apply readonly_lift|]. intros doc.
  apply readonly_for_each. intros x s. apply readonly_search_page.
Qed.

Lemma highlight_try_end src dest kws w :
  try_end L src dest kws w (highlight_try L src dest kws w).
Proof.
  pose proof (readonly_annotate_document src kws w) as Hro.
  unfold highlight_try, bind.
  destruct (annotate_document L src kws w) as [[doc hits] w'|e w'] eqn:Ha;
    subst w'; [|apply end_annotate; exact Ha].
  unfold mkdir.
  destruct (mkdir_parents (parent dest) (fs w)) as [t1|] eqn:Hm;
    [|eapply end_mkdir; eassumption].
  unfold doc_save. simpl.
  destruct (save L doc dest 4 true t1) as [t2 [e|]] eqn:Hs;
    [eapply end_save; eassumption|].
  unfold doc_close.
  destruct (close L doc) as [e|] eqn:Hc; simpl.
  - eapply end_close; eassumption.
  - eapply end_success; eassumption.
Qed.

(** [highlight_document] always returns, having enqueued one line. *)
Lemma highlight_document_one_line src dest kws w :
  exists t line,
    highlight_document L src dest kws w
    = Returned tt (mkWorld t (log_q w ++ [Line line]))
    /\ reports src line.
Proof.
  unfold highlight_document, try_except, bind.
  destruct (highlight_try_end src dest kws w); simpl;
    eexists; eexists; (split; [reflexivity|]);
    try (right; eexists; reflexivity).
  left. eexists. reflexivity.
Qed.

End EngineFacts.

(** ** Directories created before saving *)

Section MkdirFacts.

Lemma find_set_entry (m n : list N) (c : node) (es : list (list N * node)) :
  find_entry m (set_entry n c es)
  = if decide (m = n) then Some c else find_entry m es.
Proof.
  induction es as [|[k d] es IH]; simpl.
  - destruct (decide (n = m)), (decide (m = n)); congruence.
  - destruct (decide (k = n)) as [->|Hkn]; simpl.
    + destruct (decide (n = m)), (decide (m = n)); congruence.
    + destruct (decide (k = m)) as [->|Hkm].
      * destruct (decide (m = n)); congruence.
      * exact IH.
Qed.

Lemma find_entry_snoc (m n : list N) (x : node) (es : list (list N * node)) :
  find_entry m (es ++ [(n, x)])
  = match find_entry m es with
    | Some y => Some y
    | None => if decide (n = m) then Some x else None
    end.
Proof.
  induction es as [|[k d] es IH]; simpl; [reflexivity|].
  destruct (decide (k = m)); [reflexivity|exact IH].
Qed.

Lemma chain_exists_fresh (p : list (list N)) :
  chain_exists (fresh_dirs p) p = true.
Proof.
  induction p as [|n p IH]; simpl; [reflexivity|].
  destruct (decide (n = n)); [exact IH|congruence].
Qed.

Lemma read_file_fresh (p q : list (list N)) : read_file (fresh_dirs p) q = None.
Proof.
  unfold read_file. revert q.
  induction p as [|n p IH]; intros [|m q]; simpl; try reflexivity.
  destruct (decide (n = m)); [apply IH|reflexivity].
Qed.

Lemma read_file_cons (es : list (list N * node)) (m : list N)
    (q : list (list N)) :
  read_file (Dir es) (m :: q)
  = match find_entry m es with Some c => read_file c q | None => None end.
Proof. unfold read_file. simpl. destruct (find_entry m es); reflexivity. Qed.

(** After a successful [mkdir(parents=True, exist_ok=True)] the whole
    chain exists, and no regular file has changed. *)
Lemma mkdir_parents_chain (p : list (list N)) :
  forall t t', mkdir_parents p t = Some t' -> chain_exists t' p = true.
Proof.
  induction p as [|n p IH]; intros [d|es] t'; simpl; try discriminate.
  - intros [= <-]. reflexivity.
  - destruct (find_entry n es) as [c|] eqn:Hf.
    + destruct (mkdir_parents p c) as [c'|] eqn:Hm; [|discriminate].
      intros [= <-]. simpl. rewrite find_set_entry.
      destruct (decide (n = n)); [|congruence]. apply (IH c c' Hm).
    + intros [= <-]. simpl. rewrite find_entry_snoc, Hf.
      destruct (decide (n = n)); [|congruence]. apply chain_exists_fresh.
Qed.

Lemma mkdir_parents_keeps_files (p : list (list N)) :
  forall t t', mkdir_parents p t = Some t' ->
               forall q, read_file t' q = read_file t q.
Proof.
  induction p as [|n p IH]; intros [d|es] t'; simpl; try discriminate.
  - intros [= <-] q. reflexivity.
  - destruct (find_entry n es) as [c|] eqn:Hf.
    + destruct (mkdir_parents p c) as [c'|] eqn:Hm; [|discriminate].
      intros [= <-] [|m q]; [reflexivity|].
      rewrite !read_file_cons, find_set_entry.
      destruct (decide (m = n)) as [->|Hne]; [|reflexivity].
      rewrite Hf. apply (IH c c' Hm).
    + intros [= <-] [|m q]; [reflexivity|].
      rewrite !read_file_cons, find_entry_snoc.
      destruct (find_entry m es) as [y|] eqn:Hm; [reflexivity|].
      destruct (decide (n = m)); [apply read_file_fresh|reflexivity].
Qed.

(** The chain exists: every prefix of the path is a directory. *)
Lemma chain_exists_prefixes (p : list (list N)) :
  forall t, chain_exists t p = true ->
            forall k, is_dir t (take k p) = true.
Proof.
  unfold is_dir.
  induction p as [|n p IH]; intros [d|es]; simpl; try discriminate.
  - intros _ k. rewrite take_nil. reflexivity.
  - intros H [|k]; [reflexivity|]. simpl.
    destruct (find_entry n es) as [c|]; [|discriminate].
    apply (IH c H k).
Qed.

Lemma set_entry_twice (n : list N) (c : node) (es : list (list N * node)) :
  set_entry n c (set_entry n c es) = set_entry n c es.
Proof.
  induction es as [|[m d] es IH]; simpl.
  - destruct (decide (n = n)); [reflexivity|congruence].
  - destruct (decide (m = n)) as [->|Hne]; simpl.
    + destruct (decide (n = n)); [reflexivity|congruence].
    + destruct (decide (m = n)); [congruence|]. rewrite IH. reflexivity.
Qed.

Lemma set_entry_snoc (n : list N) (c : node) (es : list (list N * node)) :
  find_entry n es = None -> set_entry n c (es ++ [(n, c)]) = es ++ [(n, c)].
Proof.
  induction es as [|[m d] es IH]; simpl.
  - intros _. destruct (decide (n = n)); [reflexivity|congruence].
  - destruct (decide (m = n)); [discriminate|].
    intros H. rewrite (IH H). reflexivity.
Qed.

Lemma mkdir_parents_fresh (p : list (list N)) :
  mkdir_parents p (fresh_dirs p) = Some (fresh_dirs p).
Proof.
  induction p as [|n p IH]; simpl; [reflexivity|].
  destruct (decide (n = n)); [|congruence]. rewrite IH. reflexivity.
Qed.

Lemma mkdir_parents_again (p : list (list N)) :
  forall t t', mkdir_parents p t = Some t' -> mkdir_parents p t' = Some t'.
Proof.
  induction p as [|n p IH]; intros [d|es] t'; simpl; try discriminate.
  - intros [= <-]. reflexivity.
  - destruct (find_entry n es) as [c|] eqn:Hf.
    + destruct (mkdir_parents p c) as [c'|] eqn:Hm; [|discriminate].
      intros [= <-]. simpl. rewrite find_set_entry.
      destruct (decide (n = n)); [|congruence].
      rewrite (IH c c' Hm), set_entry_twice. reflexivity.
    + intros [= <-]. simpl. rewrite find_entry_snoc, Hf.
      destruct (decide (n = n)); [|congruence].
      rewrite mkdir_parents_fresh, set_entry_snoc by exact Hf. reflexivity.
Qed.

Lemma is_dir_cons (es : list (list N * node)) (m : list N)
    (q : list (list N)) :
  is_dir (Dir es) (m :: q)
  = match find_entry m es with Some c => is_dir c q | None => false end.
Proof. unfold is_dir. simpl. destruct (find_entry m es); reflexivity. Qed.

Lemma mkdir_parents_keeps_dirs (p : list (list N)) :
  forall t t', mkdir_parents p t = Some t' ->
               forall q, is_dir t q = true -> is_dir t' q = true.
Proof.
  induction p as [|n p IH]; intros [d|es] t'; simpl; try discriminate.
  - intros [= <-] q H. exact H.
  - destruct (find_entry n es) as [c|] eqn:Hf.
    + destruct (mkdir_parents p c) as [c'|] eqn:Hm; [|discriminate].
      intros [= <-] [|m q]; [reflexivity|].
      rewrite !is_dir_cons, find_set_entry.
      destruct (decide (m = n)) as [->|Hne]; [|auto].
      rewrite Hf. apply (IH c c' Hm).
    + intros [= <-] [|m q]; [reflexivity|].
      rewrite !is_dir_cons, find_entry_snoc.
      destruct (find_entry m es) as [y|] eqn:Hm; [auto|discriminate].
Qed.

Lemma is_file_cons (es : list (list N * node)) (m : list N)
    (q : list (list N)) :
  is_file (Dir es) (m :: q)
  = match find_entry m es with Some c => is_file c q | None => false end.
Proof. unfold is_file. simpl. destruct (find_entry m es); reflexivity. Qed.

Lemma mkdir_parents_None_iff (p : list (list N)) :
  forall t, mkdir_parents p t = None
            <-> exists k, is_file t (take k p) = true.
Proof.
  induction p as [|n p IH]; intros [d|es]; simpl.
  - split; [intros _; exists 0%nat; reflexivity|reflexivity].
  - split; [discriminate|]. intros [k Hk]. rewrite take_nil in Hk.
    discriminate.
  - split; [intros _; exists 0%nat; reflexivity|reflexivity].
  - destruct (find_entry n es) as [c|] eqn:Hf.
    + specialize (IH c).
      destruct (mkdir_parents p c) as [c'|].
      * split; [discriminate|]. intros [[|k] Hk]; [discriminate|].
        simpl in Hk. rewrite is_file_cons, Hf in Hk.
        apply proj2 in IH. discriminate IH. exists k. exact Hk.
      * split; [|reflexivity]. intros _.
        destruct (proj1 IH eq_refl) as [k Hk].
        exists (S k). simpl. rewrite is_file_cons, Hf. exact Hk.
    + split; [discriminate|]. intros [[|k] Hk]; [discriminate|].
      simpl in Hk. rewrite is_file_cons, Hf in Hk. discriminate.
Qed.

Lemma is_dir_fresh (p q : list (list N)) :
  is_dir (fresh_dirs p) q = true -> exists k, q = take k p.
Proof.
  revert q. induction p as [|n p IH]; intros [|m q]; simpl.
  - intros _. exists 0%nat. reflexivity.
  - discriminate.
  - intros _. exists 0%nat. reflexivity.
  - rewrite is_dir_cons. simpl.
    destruct (decide (n = m)) as [->|Hne]; [|discriminate].
    intros H. destruct (IH q H) as [k ->]. exists (S k). reflexivity.
Qed.

(** [mkdir] creates nothing but directories on the way to the path. *)
Lemma mkdir_parents_new_dirs (p : list (list N)) :
  forall t t', mkdir_parents p t = Some t' ->
               forall q, is_dir t' q = true ->
                         is_dir t q = true \/ exists k, q = take k p.
Proof.
  induction p as [|n p IH]; intros [d|es] t'; simpl; try discriminate.
  - intros [= <-] q H. left. exact H.
  - destruct (find_entry n es) as [c|] eqn:Hf.
    + destruct (mkdir_parents p c) as [c'|] eqn:Hm; [|discriminate].
      intros [= <-] [|m q]; [left; reflexivity|].
      rewrite !is_dir_cons, find_set_entry.
      destruct (decide (m = n)) as [->|Hne]; [|auto].
      rewrite Hf. intros H.
      destruct (IH c c' Hm q H) as [Hd|[k ->]]; [left; exact Hd|].
      right. exists (S k). reflexivity.
    + intros [= <-] [|m q]; [left; reflexivity|].
      rewrite !is_dir_cons, find_entry_snoc.
      destruct (find_entry m es) as [y|] eqn:Hm; [auto|].
      destruct (decide (n = m)) as [->|Hne]; [|discriminate].
      intros H. destruct (is_dir_fresh p q H) as [k ->].
      right. exists (S k). reflexivity.
Qed.

End MkdirFacts.

Section SaveClaims.
Context (L : PdfLib).

(** C9. Once the document is annotated, the engine first makes the
    directories: when no regular file lies on the way to the destination's
    parent, [mkdir] succeeds; it has created exactly the directories of the
    chain that were missing (every prefix of the parent is a directory
    afterwards, every new directory is such a prefix, the directories and
    the files there were are untouched); and [save] is then called on that
    very tree, so what the call leaves is what this [save] leaves.  When a
    regular file lies on the way, [mkdir] raises and [save] is not called:
    nothing changes and the failure line carries the error of [mkdir]. *)
Theorem parents_exist_before_save (src dest : list (list N))
    (kws : list (list N)) (w : World) (doc : Doc L) (hits : nat) :
  annotate_document L src kws w = Returned (doc, hits) w ->
  ((forall k, is_file (fs w) (take k (parent dest)) = false) ->
   exists t1,
     mkdir_parents (parent dest) (fs w) = Some t1
     /\ (forall k, is_dir t1 (take k (parent dest)) = true)
     /\ (forall q, is_dir t1 q = true ->
                   is_dir (fs w) q = true
                   \/ exists k, q = take k (parent dest))
     /\ (forall q, is_dir (fs w) q = true -> is_dir t1 q = true)
     /\ (forall q, read_file t1 q = read_file (fs w) q)
     /\ highlight_document L src dest kws w
        = Returned tt
            (mkWorld (fst (save L doc dest 4 true t1))
               (log_q w
                ++ [Line match snd (save L doc dest 4 true t1), close L doc
                         with
                         | Some e, _ => failure_line src e
                         | None, Some e => failure_line src e
                         | None, None => success_line src hits
                         end])))
  /\ ((exists k, is_file (fs w) (take k (parent dest)) = true) ->
      highlight_document L src dest kws w
      = Returned tt
          (mkWorld (fs w)
             (log_q w
              ++ [Line (failure_line src
                          (mkdir_error L (fs w) (parent dest)))]))).
Proof.
  intros Ha. split.
  - intros Hfree.
    destruct (mkdir_parents (parent dest) (fs w)) as [t1|] eqn:Hm.
    2:{ apply mkdir_parents_None_iff in Hm as [k Hk].
        rewrite Hfree in Hk. discriminate. }
    exists t1. split; [reflexivity|].
    split; [apply chain_exists_prefixes; eapply mkdir_parents_chain; exact Hm|].
    split; [eapply mkdir_parents_new_dirs; exact Hm|].
    split; [eapply mkdir_parents_keeps_dirs; exact Hm|].
    split; [eapply mkdir_parents_keeps_files; exact Hm|].
    unfold highlight_document, try_except, highlight_try, bind.
    rewrite Ha. unfold mkdir. rewrite Hm. unfold doc_save. simpl.
    destruct (save L doc dest 4 true t1) as [t2 [e|]]; [reflexivity|].
    unfold doc_close. destruct (close L doc); reflexivity.
  - intros Hk. apply mkdir_parents_None_iff in Hk.
    unfold highlight_document, try_except, highlight_try, bind.
    rewrite Ha. unfold mkdir. rewrite Hk. reflexivity.
Qed.

End SaveClaims.

(** ** The batch driver *)

Section WorkerFacts.
Context (L : PdfLib).

Lemma walk_pdfs_has_dest (s : Self) (folder : list (list N)) (cs : bool)
    (t : node) :
  src_folder s = Some folder ->
  Forall (has_dest (dest_base_of s) (Some folder)) (walk_pdfs cs t folder).
Proof.
  intros Hsrc. apply Forall_forall. intros pdf Hin.
  apply list_elem_of_In, walk_pdfs_iff in Hin as [_ [rel [_ [-> _]]]].
  unfold has_dest, dest_base_of. rewrite Hsrc.
  set (d := match dest_folder s with Some d => d | None => folder end).
  replace (match dest_folder s with
           | Some d0 => Some d0
           | None => Some folder
           end)
    with (Some d) by (unfold d; destruct (dest_folder s); reflexivity).
  destruct (decide (d = folder)) as [->|Hne].
  - exists (folder ++ rel). apply dest_path_of_in_place.
  - exists (joinpath d rel). apply dest_path_of_mirror; [exact Hne|].
    exists rel. split; reflexivity.
Qed.

Lemma worker_loop_shape (s : Session) (db : option (list (list N)))
    (pdfs : list (list (list N))) :
  Forall (has_dest db (src_folder (self s))) pdfs ->
  forall idx w,
    exists t lines,
      Forall2 reports pdfs lines
      /\ worker_loop L s db idx pdfs w
         = Returned tt (mkWorld t (log_q w ++ batch_items idx lines)).
Proof.
  induction 1 as [|pdf pdfs [d Hd] _ IH]; intros idx w.
  - exists (fs w), []. split; [constructor|].
    simpl. rewrite app_nil_r. destruct w; reflexivity.
  - destruct (highlight_document_one_line L pdf d
                (deref (heap s) (keywords (self s))) w)
      as [t [line [Hrun Hrep]]].
    destruct (IH (S idx)
                 (mkWorld t ((log_q w ++ [Line line])
                             ++ [Tagged PROGRESS idx])))
      as [t' [lines [Hall Hloop]]].
    exists t', (line :: lines). split; [constructor; assumption|].
    simpl. unfold worker_iteration, bind at 1 2 3. rewrite Hd. simpl.
    rewrite Hrun. unfold put. simpl. rewrite Hloop. simpl.
    rewrite <- !app_assoc. reflexivity.
Qed.

Lemma worker_shape (s : Session) (pdfs : list (list (list N))) (w : World) :
  Forall (has_dest (dest_base_of (self s)) (src_folder (self s))) pdfs ->
  exists t lines,
    Forall2 reports pdfs lines
    /\ _worker L s pdfs w
       = Returned tt
           (mkWorld t (log_q w ++ batch_items 1 lines
                         ++ [Tagged DONE (length pdfs)])).
Proof.
  intros Hd.
  destruct (worker_loop_shape s _ pdfs Hd 1%nat w) as [t [lines [Hall Hloop]]].
  exists t, lines. split; [exact Hall|].
  unfold _worker, bind. rewrite Hloop. unfold put. simpl.
  rewrite <- app_assoc. reflexivity.
Qed.

End WorkerFacts.

(** ** Hit count and annotations *)

Section HitCountFacts.
Context (L : PdfLib).
Local Open Scope engine_scope.

Lemma same_text_refl (d : Doc L) : same_text L d d.
Proof. intros j kw q h f. reflexivity. Qed.

Lemma same_text_trans (a b c : Doc L) :
  same_text L a b -> same_text L b c -> same_text L a c.
Proof. intros H1 H2 j kw q h f. rewrite H2. apply H1. Qed.

Lemma for_each_app {A S} (xs ys : list A) (body : A -> S -> M S) (s : S)
    (w : World) :
  for_each (xs ++ ys) body s w
  = match for_each xs body s w with
    | Returned s' w' => for_each ys body s' w'
    | Raised e w' => Raised e w'
    end.
Proof.
  revert s w. induction xs as [|x xs IH]; intros s w; simpl; [reflexivity|].
  unfold bind. destruct (body x s w) as [s' w'|e w']; [apply IH|reflexivity].
Qed.

Lemma highlight_regions_app (d : Doc L) (a b : list (nat * Rect L)) :
  highlight_regions L d (a ++ b)
  = match highlight_regions L d a with
    | inr d' => highlight_regions L d' b
    | inl e => inl e
    end.
Proof.
  revert d. induction a as [|m a IH]; intros d; simpl; [reflexivity|].
  destruct (highlight_region L d m) as [e|d1]; [reflexivity|apply IH].
Qed.

(** The body of the innermost loop puts one highlight annotation on the
    region: it calls [add_highlight_annot], [set_colors] with the
    highlight colour and [update], in this order. *)
Lemma annotate_hit_region (i : nat) (r : Rect L) (d d' : Doc L)
    (w w' : World) :
  annotate_hit L i r d w = Returned d' w' ->
  highlight_region L d (i, r) = inr d' /\ w' = w.
Proof.
  unfold annotate_hit, highlight_region, bind, lift. simpl.
  destruct (add_highlight_annot L d i r) as [e|[d1 a]]; [discriminate|].
  simpl.
  destruct (set_colors L d1 a HILITE_COLOR) as [e|d2]; [discriminate|].
  simpl.
  destruct (update L d2 a) as [e|d3]; [discriminate|].
  simpl. intros [= <- <-]. split; reflexivity.
Qed.

Lemma highlight_region_same_text (m : nat * Rect L) (d d' : Doc L) :
  annotations_keep_text L ->
  highlight_region L d m = inr d' -> same_text L d d'.
Proof.
  intros [Hadd [Hcol Hupd]]. unfold highlight_region.
  destruct (add_highlight_annot L d (fst m) (snd m)) as [e|[d1 a]] eqn:H1;
    [discriminate|].
  destruct (set_colors L d1 a HILITE_COLOR) as [e|d2] eqn:H2;
    [discriminate|].
  intros H3.
  eapply same_text_trans; [eapply Hadd; eassumption|].
  eapply same_text_trans; [eapply Hcol; eassumption|].
  eapply Hupd; eassumption.
Qed.

Lemma annotate_loop (i : nat) (insts : list (Rect L)) :
  annotations_keep_text L ->
  forall d d' w w',
    for_each insts (annotate_hit L i) d w = Returned d' w' ->
    same_text L d d' /\ w' = w
    /\ highlight_regions L d (map (pair i) insts) = inr d'.
Proof.
  intros Hlaw. induction insts as [|r insts IH]; intros d d' w w'; simpl.
  - intros [= <- <-]. split; [apply same_text_refl|]. split; reflexivity.
  - unfold bind.
    destruct (annotate_hit L i r d w) as [d1 w1|e w1] eqn:H1; [|discriminate].
    apply annotate_hit_region in H1 as [H1 ->].
    intros Hrest. apply IH in Hrest as [Hs' [-> Hrun]].
    split.
    { eapply same_text_trans; [|exact Hs'].
      eapply highlight_region_same_text; eassumption. }
    split; [reflexivity|]. rewrite H1. exact Hrun.
Qed.

Lemma keyword_loop (d0 : Doc L) (i : nat) (kws : list (list N)) :
  annotations_keep_text L ->
  forall d h d' h' w w',
    same_text L d0 d ->
    for_each kws (search_keyword L i) (d, h) w = Returned (d', h') w' ->
    same_text L d0 d' /\ w' = w
    /\ Forall (fun kw => exists l, search_hits L d0 i kw = inr l) kws
    /\ h' = (h + list_sum
                   (map (fun kw => length (regions_of (search_hits L d0 i kw)))
                        kws))%nat
    /\ highlight_regions L d
         (flat_map (fun kw => map (pair i) (regions_of (search_hits L d0 i kw)))
                   kws)
       = inr d'.
Proof.
  intros Hlaw. induction kws as [|kw kws IH]; intros d h d' h' w w' Hd; simpl.
  - intros [= <- <- <-]. split; [exact Hd|]. split; [reflexivity|].
    split; [constructor|]. split; [lia|reflexivity].
  - unfold bind at 1. unfold search_keyword at 1. unfold bind, lift.
    fold (search_hits L d i kw).
    assert (Hsame : search_hits L d i kw = search_hits L d0 i kw)
      by apply Hd.
    rewrite Hsame.
    destruct (search_hits L d0 i kw) as [e|insts] eqn:Hs; [discriminate|].
    simpl.
    destruct (for_each insts (annotate_hit L i) d w) as [d1 w1|e w1] eqn:Ha;
      [|discriminate].
    apply (annotate_loop _ _ Hlaw) in Ha as [Hs1 [-> Ha]].
    simpl. intros Hrest.
    apply IH in Hrest as [Hs' [-> [Hall [-> Hrun]]]];
      [|eapply same_text_trans; eassumption].
    split; [exact Hs'|]. split; [reflexivity|].
    split; [constructor; [exists insts; exact Hs|exact Hall]|].
    rewrite ?Hs. simpl.
    split; [lia|].
    rewrite highlight_regions_app, Ha. exact Hrun.
Qed.

Lemma page_loop (d0 : Doc L) (kws : list (list N)) (pages : list nat) :
  annotations_keep_text L ->
  forall d h d' h' w w',
    same_text L d0 d ->
    for_each pages (search_page L kws) (d, h) w = Returned (d', h') w' ->
    same_text L d0 d' /\ w' = w
    /\ Forall (fun i =>
                 Forall (fun kw => exists l, search_hits L d0 i kw = inr l) kws)
              pages
    /\ h' = (h + list_sum
                   (map (fun i =>
                           list_sum
                             (map
                                (fun kw =>
                                   length (regions_of (search_hits L d0 i kw)))
                                kws))
                        pages))%nat
    /\ highlight_regions L d
         (flat_map
            (fun i =>
               flat_map
                 (fun kw => map (pair i) (regions_of (search_hits L d0 i kw)))
                 kws)
            pages)
       = inr d'.
Proof.
  intros Hlaw. induction pages as [|i pages IH];
    intros d h d' h' w w' Hd; simpl.
  - intros [= <- <- <-]. split; [exact Hd|]. split; [reflexivity|].
    split; [constructor|]. split; [lia|reflexivity].
  - unfold bind at 1. unfold search_page at 1.
    destruct (for_each kws (search_keyword L i) (d, h) w)
      as [[d1 h1] w1|e w1] eqn:Hk; [|discriminate].
    apply (keyword_loop d0 i kws Hlaw _ _ _ _ _ _ Hd) in Hk
      as [Hs1 [-> [Hall1 [-> Hrun1]]]].
    intros Hrest.
    apply IH in Hrest as [Hs' [-> [Hall [-> Hrun]]]]; [|exact Hs1].
    split; [exact Hs'|]. split; [reflexivity|].
    split; [constructor; assumption|]. split; [lia|].
    rewrite highlight_regions_app, Hrun1. exact Hrun.
Qed.

Lemma length_spec_matches (d : Doc L) (kws : list (list N)) :
  length (spec_matches L d kws) = spec_hit_count L d kws.
Proof.
  unfold spec_matches, spec_hit_count.
  induction (seq 0 (page_count L d)) as [|i pages IH]; simpl; [reflexivity|].
  rewrite length_app, IH.
  apply (f_equal (fun n => (n + _)%nat)).
  clear IH. induction kws as [|kw kws IHk]; simpl; [reflexivity|].
  rewrite length_app, length_map, IHk. reflexivity.
Qed.

End HitCountFacts.

Section HitCountClaims.
Context (L : PdfLib).

(** C2. For a capability whose highlights leave the searchable text
    alone: when the engine succeeds on a document, every search of a
    keyword on a page succeeded; the reported hit count is the sum, over
    the pages in order and the keywords in order, of the number of regions
    the search returns; the document handed to [save] is the opened one
    with one highlight annotation put on each of these regions, in that
    order, each added by [add_highlight_annot], coloured by [set_colors]
    and updated; and the success line carries that count. *)
Theorem hit_count_is_sum_of_matched_regions (src dest : list (list N))
    (kws : list (list N)) (w : World) (hits : nat) (w' : World) :
  annotations_keep_text L ->
  highlight_try L src dest kws w = Returned hits w' ->
  exists doc0 doc1 t1,
    fitz_open L (fs w) src = inr doc0
    /\ (forall i kw, (i < page_count L doc0)%nat -> In kw kws ->
                     exists l, search_hits L doc0 i kw = inr l)
    /\ hits = spec_hit_count L doc0 kws
    /\ hits = length (spec_matches L doc0 kws)
    /\ highlight_regions L doc0 (spec_matches L doc0 kws) = inr doc1
    /\ mkdir_parents (parent dest) (fs w) = Some t1
    /\ save L doc1 dest 4 true t1 = (fs w', None)
    /\ log_q w' = log_q w ++ [Line (success_line src hits)].
Proof.
  intros Hlaw Hrun.
  pose proof (highlight_try_end L src dest kws w) as Hend.
  rewrite Hrun in Hend.
  inversion Hend as [ | | | | doc1 hits' t1 t2 Ha Hm Hs Hc]; subst.
  unfold annotate_document, bind, get_fs, lift in Ha.
  destruct (fitz_open L (fs w) src) as [e|doc0] eqn:Ho; [discriminate|].
  simpl in Ha.
  apply (page_loop L doc0 kws _ Hlaw) in Ha
    as [_ [_ [Hall [Hh Hann]]]]; [|apply same_text_refl].
  exists doc0, doc1, t1. split; [reflexivity|].
  split.
  { intros i kw Hi Hkw. rewrite Forall_forall in Hall.
    assert (Hin : i ∈ seq 0 (page_count L doc0)).
    { apply list_elem_of_In, in_seq. lia. }
    specialize (Hall i Hin). rewrite Forall_forall in Hall.
    apply Hall, list_elem_of_In, Hkw. }
  split; [exact Hh|].
  split; [rewrite length_spec_matches; exact Hh|].
  split; [exact Hann|]. split; [exact Hm|]. split; [exact Hs|reflexivity].
Qed.

End HitCountClaims.

(** ** Worker threads and foreground, interleaved *)

Section RunFacts.
Context (L : PdfLib) (cs : bool).

Lemma PROGRESS_ne_DONE : PROGRESS <> DONE.
Proof. intros H. vm_compute in H. discriminate H. Qed.

Lemma progress_values_app (a b : list LogItem) :
  progress_values (a ++ b) = progress_values a ++ progress_values b.
Proof.
  induction a as [|[t|tag n] a IH]; simpl; [reflexivity|exact IH|].
  destruct (decide (tag = PROGRESS)); simpl; congruence.
Qed.

Lemma done_values_app (a b : list LogItem) :
  done_values (a ++ b) = done_values a ++ done_values b.
Proof.
  induction a as [|[t|tag n] a IH]; simpl; [reflexivity|exact IH|].
  destruct (decide (tag = DONE)); simpl; congruence.
Qed.

Lemma deref_rebind_other (s : Session) (kws : list (list N)) (r : nat) :
  is_Some (heap s !! r) ->
  deref (heap (rebind_keywords s kws)) r = deref (heap s) r.
Proof.
  intros Hr. unfold rebind_keywords, deref, new_ref. simpl.
  rewrite lookup_insert_ne; [reflexivity|].
  intros <-. apply elem_of_dom in Hr. exact (is_fresh (dom (heap s)) Hr).
Qed.

Lemma rebind_keeps_refs (s : Session) (kws : list (list N)) (r : nat) :
  is_Some (heap s !! r) -> is_Some (heap (rebind_keywords s kws) !! r).
Proof.
  intros Hr. unfold rebind_keywords. simpl.
  destruct (decide (new_ref (heap s) = r)) as [->|Hne].
  - rewrite lookup_insert_eq. eexists. reflexivity.
  - rewrite lookup_insert_ne by exact Hne. exact Hr.
Qed.

(** What a keyword handler does to the session. *)
Lemma handler_cases (s s' : Session) :
  (exists result, s' = _edit_keywords result s)
  \/ (exists text, s' = _load_kw_file text s) ->
  s' = s \/ exists kws, s' = rebind_keywords s kws.
Proof.
  intros [[[r|] ->]|[[t|] ->]]; simpl; eauto.
Qed.

(** The step function of a worker thread makes the moves of the
    relation: in particular a call of the engine always returns, with one
    line enqueued. *)
Lemma worker_step_move (x : Session) (th : Thread) (w : World) (ev : Event)
    (th1 : Thread) (w1 : World) :
  worker_step L x th w = Some (ev, th1, w1) -> worker_move x th w ev th1 w1.
Proof.
  unfold worker_step.
  destruct (pc th)
    as [|idx [|pdf rest]|idx pdf dest kw rest|idx rest| |idx rest e] eqn:Hpc;
    try discriminate.
  - intros [= <- <- <-]. apply move_enter. exact Hpc.
  - intros [= <- <- <-]. eapply move_done. exact Hpc.
  - destruct (dest_path_of (thr_dest_base th) (src_folder (self x)) pdf)
      as [e|dest] eqn:Hd; intros [= <- <- <-].
    + eapply move_crash; eassumption.
    + eapply move_bind; eassumption.
  - destruct (highlight_document_one_line L pdf dest (deref (heap x) kw) w)
      as [t [line [Hrun Hrep]]].
    rewrite Hrun. simpl. rewrite drop_app_length.
    intros [= <- <- <-]. eapply move_run; eassumption.
  - intros [= <- <- <-]. eapply move_progress. exact Hpc.
Qed.

Lemma worker_move_alive (x : Session) (th : Thread) (w : World) (ev : Event)
    (th1 : Thread) (w1 : World) :
  worker_move x th w ev th1 w1 -> alive th = true.
Proof.
  unfold alive.
  destruct 1 as [H|? ? ? ? H|? ? ? ? H|? ? ? ? ? ? ? H|? ? H|? H];
    rewrite H; reflexivity.
Qed.

Lemma worker_move_queue (x : Session) (th : Thread) (w : World) (ev : Event)
    (th1 : Thread) (w1 : World) :
  worker_move x th w ev th1 w1 -> log_q w1 = log_q w ++ event_puts ev.
Proof. destruct 1; simpl; rewrite ?app_nil_r; reflexivity. Qed.

Lemma worker_move_batch (x : Session) (th : Thread) (w : World) (ev : Event)
    (th1 : Thread) (w1 : World) :
  worker_move x th w ev th1 w1 -> batch th1 = batch th.
Proof. destruct 1; reflexivity. Qed.

(** What [_start] hands to the new worker thread. *)
Lemma start_state (s s1 : Sys) :
  _start cs s = Started s1 ->
  exists src,
    src_folder (self (session s)) = Some src
    /\ s1 = mkSys (session s)
                  (threads s
                   ++ [mkThread (walk_pdfs cs (fs (world s)) src) None
                                AtEntry])
                  (world s)
                  (mkUI (length (walk_pdfs cs (fs (world s)) src)) 0 [] [])
    /\ walk_pdfs cs (fs (world s)) src <> []
    /\ current_keywords s <> []
    /\ is_Some (heap (session s) !! keywords (self (session s))).
Proof.
  unfold _start. destruct (src_folder (self (session s))) as [src|] eqn:Hsrc;
    [|discriminate].
  destruct (truthy_list (current_keywords s)) eqn:Hk; [|discriminate]. simpl.
  destruct (truthy_list (walk_pdfs cs (fs (world s)) src)) eqn:Hp;
    [|discriminate].
  simpl. intros [= <-]. exists src. split; [reflexivity|].
  split; [reflexivity|].
  split; [intros E; rewrite E in Hp; discriminate|].
  split; [intros E; rewrite E in Hk; discriminate|].
  unfold current_keywords, deref in Hk.
  destruct (heap (session s) !! keywords (self (session s))) as [l|];
    [eexists; reflexivity|discriminate].
Qed.

Lemma do_action_move (a : Action) (s : Sys) (l : Label) (s1 : Sys) :
  do_action L cs a s = Some (l, s1) -> move cs s a l s1.
Proof.
  destruct a as [tid| |result|text|folder|folder|]; simpl.
  - destruct (threads s !! tid) as [th|] eqn:Hth; [|discriminate].
    destruct (worker_step L (session s) th (world s)) as [[[ev th1] w1]|]
      eqn:Hstep; [|discriminate].
    intros [= <- <-]. eapply move_worker; [exact Hth|].
    apply worker_step_move. exact Hstep.
  - unfold get_step.
    destruct (log_q (world s)) as [|item q] eqn:Hq; [discriminate|].
    intros [= <- <-]. eapply move_get. exact Hq.
  - intros [= <- <-]. apply move_edit.
  - intros [= <- <-]. apply move_load.
  - intros [= <- <-]. apply move_src.
  - intros [= <- <-]. apply move_dest.
  - destruct (_start cs s) as [title|title|s'] eqn:Hs; intros [= <- <-].
    + apply move_notice. left. exact Hs.
    + apply move_notice. right. exact Hs.
    + apply move_start. exact Hs.
Qed.

Lemma move_session (a : Action) (s : Sys) (l : Label) (s1 : Sys) :
  move cs s a l s1 -> session s1 = handle a (session s).
Proof.
  destruct 1 as [tid th ev th1 w1 Hth Hw|item q Hq|result|text|folder|folder
                |s1 Hs|title Hs]; try reflexivity.
  destruct (start_state s s1 Hs) as [src [_ [-> _]]]. reflexivity.
Qed.

(** Induction over a run, move by move, for schedules whose actions all
    satisfy [Q] and an invariant [Inv] these actions preserve. *)
Lemma run_moves (Q : Action -> Prop) (Inv : Sys -> Prop)
    (P : Sys -> list Label -> Sys -> Prop) :
  (forall s, Inv s -> P s [] s) ->
  (forall s a l s1, Inv s -> Q a -> move cs s a l s1 -> Inv s1) ->
  (forall s a l s1 tr s2,
      Inv s -> Q a -> move cs s a l s1 -> P s1 tr s2 -> P s (l :: tr) s2) ->
  forall sched s tr s',
    Forall Q sched -> Inv s -> run L cs sched s = (tr, s') -> P s tr s'.
Proof.
  intros Hnil Hinv Hcons.
  induction sched as [|a sched IH]; intros s tr s' HQ Hs; simpl.
  - intros [= <- <-]. apply Hnil, Hs.
  - apply Forall_cons in HQ as [Ha HQ].
    destruct (do_action L cs a s) as [[l s1]|] eqn:Hact;
      [|apply IH; assumption].
    destruct (run L cs sched s1) as [tr1 s2] eqn:Hr.
    intros [= <- <-]. apply do_action_move in Hact.
    eapply Hcons; [exact Hs|exact Ha|exact Hact|].
    apply IH; [exact HQ| |exact Hr].
    eapply Hinv; eassumption.
Qed.

Lemma Forall_True {A} (l : list A) : Forall (fun _ => True) l.
Proof. apply Forall_forall. intros; exact I. Qed.

(** First in, first out: what was queued at the start followed by what
    the worker threads enqueued is what the foreground took followed by
    what is still queued. *)
Lemma run_fifo (sched : list Action) (s : Sys) (tr : list Label) (s' : Sys) :
  run L cs sched s = (tr, s') ->
  log_q (world s) ++ puts tr = gets tr ++ log_q (world s').
Proof.
  intros Hrun.
  apply (run_moves (fun _ => True) (fun _ => True)
           (fun s tr s' =>
              log_q (world s) ++ puts tr = gets tr ++ log_q (world s')))
    with (sched := sched); auto using Forall_True.
  - intros s0 _. simpl. rewrite app_nil_r. reflexivity.
  - intros s0 a l s1 tr0 s2 _ _ Hmove IH.
    destruct Hmove as [tid th ev th1 w1 Hth Hw|item q Hq|result|text|folder
                      |folder|s1 Hs|title Hs]; simpl in *; try exact IH.
    + apply worker_move_queue in Hw. rewrite Hw in IH.
      rewrite <- IH, <- app_assoc. reflexivity.
    + rewrite Hq, <- IH. reflexivity.
    + destruct (start_state s0 s1 Hs) as [src [_ [-> _]]]. exact IH.
Qed.

(** The events of one thread along a run: induction over them, for
    schedules whose handlers preserve a property [I] of the attributes of
    [self]. *)
Lemma run_thread (I : Session -> Prop)
    (PT : Thread -> list Event -> Thread -> Prop) :
  (forall th, PT th [] th) ->
  (forall x w th ev th1 w1 evs th2,
      I x -> worker_move x th w ev th1 w1 ->
      PT th1 evs th2 -> PT th (ev :: evs) th2) ->
  forall sched s tr s' tid th,
    Forall (fun a => forall x, I x -> I (handle a x)) sched ->
    I (session s) ->
    threads s !! tid = Some th ->
    run L cs sched s = (tr, s') ->
    exists th', threads s' !! tid = Some th' /\ PT th (events_of tid tr) th'.
Proof.
  intros Hnil Hcons sched s tr s' tid th HQ HI Hth Hrun. revert th Hth.
  apply (run_moves (fun a => forall x, I x -> I (handle a x))
           (fun s => I (session s))
           (fun s tr s' =>
              forall th, threads s !! tid = Some th ->
                         exists th', threads s' !! tid = Some th'
                                     /\ PT th (events_of tid tr) th'))
    with (sched := sched) (s := s) (tr := tr) (s' := s'); auto.
  - intros s0 _ th Hth. exists th. split; [exact Hth|apply Hnil].
  - intros s0 a l s1 Hs Ha Hmove. rewrite (move_session _ _ _ _ Hmove).
    apply Ha, Hs.
  - intros s0 a l s1 tr0 s2 Hs _ Hmove IH th Hth.
    destruct Hmove as [i thi ev th1 w1 Hthi Hw|item q Hq|result|text|folder
                      |folder|s1 Hs1|title Hs1]; simpl in *;
      try (apply IH; exact Hth).
    + destruct (decide (i = tid)) as [->|Hne].
      * rewrite Hth in Hthi. injection Hthi as <-.
        destruct (IH th1) as [th' [Hth' HP]].
        { apply list_lookup_insert_eq. eapply lookup_lt_Some. exact Hth. }
        exists th'. split; [exact Hth'|]. eapply Hcons; eassumption.
      * apply IH. rewrite list_lookup_insert_ne by exact Hne. exact Hth.
    + destruct (start_state s0 s1 Hs1) as [src [_ [-> _]]]. apply IH. simpl.
      apply lookup_app_l_Some. exact Hth.
Qed.

End RunFacts.

Section ThreadFacts.
Context (L : PdfLib) (cs : bool).

Lemma puts_of_cons_worker (tid : nat) (ev : Event) (tr : list Label) :
  puts_of tid (LWorker tid ev :: tr) = event_puts ev ++ puts_of tid tr.
Proof.
  unfold puts_of. simpl. destruct (decide (tid = tid)); [|congruence].
  reflexivity.
Qed.

(** The progress tuples a thread enqueues are consecutive indices, one
    for each file it has reported. *)
Lemma thread_progress (sched : list Action) (s : Sys) (tr : list Label)
    (s' : Sys) (tid : nat) (th : Thread) :
  threads s !! tid = Some th ->
  run L cs sched s = (tr, s') ->
  exists th',
    threads s' !! tid = Some th'
    /\ batch th' = batch th
    /\ (pending th' <= pending th)%nat
    /\ progress_values (puts_of tid tr)
       = seq (next_idx th) (pending th - pending th').
Proof.
  intros Hth Hrun.
  apply (run_thread L cs (fun _ => True)
           (fun th evs th' =>
              batch th' = batch th
              /\ (pending th' <= pending th)%nat
              /\ progress_values (flat_map event_puts evs)
                 = seq (next_idx th) (pending th - pending th')))
    with (sched := sched) (s := s) (tr := tr) (s' := s'); auto.
  - intros th0. split; [reflexivity|]. split; [lia|].
    rewrite Nat.sub_diag. reflexivity.
  - intros x w th0 ev th1 w1 evs th2 _ Hw [Hb [Hle IH]].
    cbn [flat_map]. rewrite progress_values_app, IH.
    remember (pending th2) as p2 eqn:Ep2. clear Ep2 IH.
    destruct Hw as [Hpc|idx pdf rest dest Hpc Hd|idx pdf rest e Hpc Hd
                   |idx pdf dest kw rest t line Hpc Hrep|idx rest Hpc|idx Hpc];
      unfold pending, next_idx, total in *; simpl in *; rewrite Hpc in *;
      simpl in *.
    + split; [exact Hb|]. split; [lia|reflexivity].
    + split; [exact Hb|]. split; [lia|reflexivity].
    + split; [exact Hb|]. split; [lia|reflexivity].
    + split; [exact Hb|]. split; [lia|reflexivity].
    + destruct (decide (PROGRESS = PROGRESS)); [|congruence].
      split; [exact Hb|]. split; [lia|].
      replace (S (length rest) - p2)%nat with (S (length rest - p2))%nat
        by lia.
      reflexivity.
    + destruct (decide (DONE = PROGRESS)) as [E|_];
        [symmetry in E; destruct (PROGRESS_ne_DONE E)|].
      split; [exact Hb|]. split; [lia|].
      replace (0 - p2)%nat with 0%nat by lia. reflexivity.
  - apply Forall_forall. auto.
Qed.

(** The completion tuple is enqueued once, when the thread returns, as
    its last item; a thread that has ended makes no further move. *)
Lemma thread_done (sched : list Action) (s : Sys) (tr : list Label)
    (s' : Sys) (tid : nat) (th : Thread) :
  threads s !! tid = Some th ->
  run L cs sched s = (tr, s') ->
  exists th',
    threads s' !! tid = Some th'
    /\ done_values (puts_of tid tr)
       = (if alive th && finished th' then [total th] else [])
    /\ (alive th = true -> finished th' = true ->
        exists items, puts_of tid tr = items ++ [Tagged DONE (total th)])
    /\ (alive th = false -> th' = th /\ events_of tid tr = []).
Proof.
  intros Hth Hrun.
  apply (run_thread L cs (fun _ => True)
           (fun th evs th' =>
              done_values (flat_map event_puts evs)
              = (if alive th && finished th' then [total th] else [])
              /\ (alive th = true -> finished th' = true ->
                  exists items,
                    flat_map event_puts evs
                    = items ++ [Tagged DONE (total th)])
              /\ (alive th = false -> th' = th /\ evs = [])))
    with (sched := sched) (s := s) (tr := tr) (s' := s'); auto.
  - intros th0. split.
    { unfold alive, finished. destruct (pc th0); reflexivity. }
    split; [|intros _; split; reflexivity].
    unfold alive, finished. destruct (pc th0); discriminate.
  - intros x w th0 ev th1 w1 evs th2 _ Hw [IH [IHlast IHend]].
    pose proof (worker_move_alive _ _ _ _ _ _ Hw) as Ha. rewrite Ha.
    assert (Htot : total th1 = total th0).
    { unfold total. rewrite (worker_move_batch _ _ _ _ _ _ Hw). reflexivity. }
    rewrite Htot in IH, IHlast. clear Htot.
    cbn [flat_map]. rewrite done_values_app, IH. clear IH.
    split; [|split; [|congruence]].
    + destruct Hw as [Hpc|idx pdf rest dest Hpc Hd|idx pdf rest e Hpc Hd
                     |idx pdf dest kw rest t line Hpc Hrep|idx rest Hpc
                     |idx Hpc]; try reflexivity.
      * destruct (IHend eq_refl) as [-> _]. reflexivity.
      * destruct (IHend eq_refl) as [-> _]. reflexivity.
    + intros _ Hfin.
      destruct Hw as [Hpc|idx pdf rest dest Hpc Hd|idx pdf rest e Hpc Hd
                     |idx pdf dest kw rest t line Hpc Hrep|idx rest Hpc
                     |idx Hpc].
      * destruct (IHlast eq_refl Hfin) as [items ->]. exists items.
        reflexivity.
      * destruct (IHlast eq_refl Hfin) as [items ->]. exists items.
        reflexivity.
      * destruct (IHend eq_refl) as [-> _]. discriminate.
      * destruct (IHlast eq_refl Hfin) as [items ->].
        exists (Line line :: items). reflexivity.
      * destruct (IHlast eq_refl Hfin) as [items ->].
        exists (Tagged PROGRESS idx :: items). reflexivity.
      * destruct (IHend eq_refl) as [_ ->]. exists []. reflexivity.
  - apply Forall_forall. auto.
Qed.

(** A thread that has returned has enqueued, for every file of its
    batch in order, one line reporting on the file and the progress tuple
    with the file's index, and then the completion tuple with the number
    of files. *)
Lemma thread_output (sched : list Action) (s : Sys) (tr : list Label)
    (s' : Sys) (tid : nat) (th : Thread) :
  threads s !! tid = Some th ->
  run L cs sched s = (tr, s') ->
  exists th',
    threads s' !! tid = Some th'
    /\ (finished th' = true ->
        exists lines, output_from th lines (puts_of tid tr)).
Proof.
  intros Hth Hrun.
  apply (run_thread L cs (fun _ => True)
           (fun th evs th' =>
              finished th' = true ->
              exists lines, output_from th lines (flat_map event_puts evs)))
    with (sched := sched) (s := s) (tr := tr) (s' := s'); auto.
  - intros th0 Hfin. exists []. unfold output_from, finished in *.
    destruct (pc th0); try discriminate. split; reflexivity.
  - intros x w th0 ev th1 w1 evs th2 _ Hw IH Hfin.
    destruct (IH Hfin) as [lines Hout]. clear IH. cbn [flat_map].
    destruct Hw as [Hpc|idx pdf rest dest Hpc Hd|idx pdf rest e Hpc Hd
                   |idx pdf dest kw rest t line Hpc Hrep|idx rest Hpc|idx Hpc];
      unfold output_from, total in *; simpl in *; rewrite Hpc.
    + exists lines. exact Hout.
    + exists lines. exact Hout.
    + destruct Hout.
    + destruct Hout as [Hall ->]. exists (line :: lines).
      split; [constructor; assumption|reflexivity].
    + destruct Hout as [Hall ->]. exists lines.
      split; [exact Hall|reflexivity].
    + destruct Hout as [-> ->]. exists []. split; [constructor|reflexivity].
  - apply Forall_forall. auto.
Qed.

(** A thread dies only of the error of the destination computation for
    the file it was about to take up: no error of the engine ends it. *)
Lemma thread_crash (sched : list Action) (s : Sys) (tr : list Label)
    (s' : Sys) (tid : nat) (th : Thread) :
  threads s !! tid = Some th ->
  run L cs sched s = (tr, s') ->
  exists th',
    threads s' !! tid = Some th'
    /\ forall idx rest e,
        pc th' = Crashed idx rest e ->
        pc th = Crashed idx rest e
        \/ exists pdf rest' src',
            rest = pdf :: rest'
            /\ dest_path_of (thr_dest_base th') src' pdf = inl e.
Proof.
  intros Hth Hrun.
  destruct (run_thread L cs (fun _ => True)
           (fun th evs th' =>
              (alive th = false -> th' = th)
              /\ forall idx rest e,
                  pc th' = Crashed idx rest e ->
                  pc th = Crashed idx rest e
                  \/ exists pdf rest' src',
                      rest = pdf :: rest'
                      /\ dest_path_of (thr_dest_base th') src' pdf = inl e))
    with (sched := sched) (s := s) (tr := tr) (s' := s') (tid := tid)
         (th := th) as [th' [Hth' [_ HP]]].
  - intros th0. split; [reflexivity|]. intros idx rest e H. left. exact H.
  - intros x w th0 ev th1 w1 evs th2 _ Hw [IHend IH].
    split; [pose proof (worker_move_alive _ _ _ _ _ _ Hw); congruence|].
    intros idx0 rest0 e0 Hc. right.
    destruct (IH idx0 rest0 e0 Hc) as [H1|H1]; [|exact H1].
    destruct Hw as [Hpc|idx pdf rest dest Hpc Hd|idx pdf rest e Hpc Hd
                   |idx pdf dest kw rest t line Hpc Hrep|idx rest Hpc|idx Hpc];
      simpl in H1; try discriminate.
    injection H1 as <- <- <-.
    rewrite (IHend eq_refl). exists pdf, rest, (src_folder (self x)).
    split; [reflexivity|exact Hd].
  - apply Forall_forall. auto.
  - exact I.
  - exact Hth.
  - exact Hrun.
  - exists th'. split; [exact Hth'|exact HP].
Qed.

Lemma dest_base_of_Some (s : Self) (src : list (list N)) :
  src_folder s = Some src ->
  dest_base_of s = Some (default src (dest_folder s)).
Proof.
  intros H. unfold dest_base_of. rewrite H. destruct (dest_folder s);
    reflexivity.
Qed.

Lemma dest_path_of_under (d src rel : list (list N)) :
  dest_path_of (Some d) (Some src) (src ++ rel)
  = inr (if decide (d = src) then src ++ rel else d ++ rel).
Proof.
  destruct (decide (d = src)) as [->|Hne]; [apply dest_path_of_in_place|].
  apply dest_path_of_mirror; [exact Hne|]. exists rel. split; reflexivity.
Qed.

Lemma keeps_src_handle (src : list (list N)) (a : Action) (x : Session) :
  keeps_src src a ->
  src_folder (self x) = Some src -> src_folder (self (handle a x)) = Some src.
Proof.
  destruct a as [tid| |[r|]|[t|]|[f|]|[f|]|]; simpl; try (intros _ H; exact H).
  intros -> _. reflexivity.
Qed.

(** While the source folder stays [src], a thread whose remaining files
    lie under [src] does not die; every destination it computes is the one
    [dest_path_of] gives for its destination base and [src]; and the files
    it takes up are its remaining files, in order. *)
Lemma thread_jobs (src : list (list N)) (sched : list Action) (s : Sys)
    (tr : list Label) (s' : Sys) (tid : nat) (th : Thread) :
  Forall (keeps_src src) sched ->
  src_folder (self (session s)) = Some src ->
  threads s !! tid = Some th ->
  Forall (under src) (rest_of th) ->
  (pc th <> AtEntry -> is_Some (thr_dest_base th)) ->
  crashed th = false ->
  run L cs sched s = (tr, s') ->
  exists th' d,
    threads s' !! tid = Some th'
    /\ (pc th <> AtEntry -> thr_dest_base th = Some d)
    /\ (pc th' <> AtEntry -> thr_dest_base th' = Some d)
    /\ Forall (fun j => dest_path_of (Some d) (Some src) (fst j) = inr (snd j))
              (jobs (events_of tid tr))
    /\ rest_of th = map fst (jobs (events_of tid tr)) ++ rest_of th'
    /\ crashed th' = false.
Proof.
  intros Hsched Hsrc Hth Hunder Hbase Hcr Hrun.
  destruct (run_thread L cs (fun x => src_folder (self x) = Some src)
           (fun th evs th' =>
              Forall (under src) (rest_of th) ->
              (pc th <> AtEntry -> is_Some (thr_dest_base th)) ->
              crashed th = false ->
              exists d,
                (pc th <> AtEntry -> thr_dest_base th = Some d)
                /\ (pc th' <> AtEntry -> thr_dest_base th' = Some d)
                /\ Forall (fun j => dest_path_of (Some d) (Some src) (fst j)
                                    = inr (snd j))
                          (jobs evs)
                /\ rest_of th = map fst (jobs evs) ++ rest_of th'
                /\ crashed th' = false))
    with (sched := sched) (s := s) (tr := tr) (s' := s') (tid := tid)
         (th := th) as [th' [Hth' HP]].
  - intros th0 Hu Hb Hc.
    assert (Hd : pc th0 = AtEntry \/ pc th0 <> AtEntry)
      by (destruct (pc th0); [left; reflexivity|right; discriminate..]).
    destruct Hd as [E|E].
    + exists src. split; [congruence|]. split; [congruence|].
      split; [constructor|]. split; [reflexivity|exact Hc].
    + destruct (Hb E) as [d Hd]. exists d. split; [auto|]. split; [auto|].
      split; [constructor|]. split; [reflexivity|exact Hc].
  - intros x w th0 ev th1 w1 evs th2 Hx Hw IH Hu Hb Hc.
    destruct Hw as [Hpc|idx pdf rest dest Hpc Hd|idx pdf rest e Hpc Hd
                   |idx pdf dest kw rest t line Hpc Hrep|idx rest Hpc|idx Hpc];
      unfold rest_of, crashed in *; simpl in *; rewrite Hpc in *;
      simpl in *.
    + destruct IH as [d [H1 [H2 [H3 [H4 H5]]]]];
        [exact Hu|intros _; rewrite (dest_base_of_Some _ _ Hx); eauto
        |reflexivity|].
      exists d. split; [congruence|]. split; [exact H2|].
      split; [exact H3|]. split; [exact H4|exact H5].
    + apply Forall_cons in Hu as [Hp Hu].
      destruct IH as [d [H1 [H2 [H3 [H4 H5]]]]];
        [exact Hu|intros _; apply Hb; discriminate|reflexivity|].
      exists d. split; [intros _; apply H1; discriminate|].
      split; [exact H2|].
      split.
      { constructor; [|exact H3]. simpl.
        rewrite <- (H1 ltac:(discriminate)), <- Hx. exact Hd. }
      split; [rewrite H4; reflexivity|exact H5].
    + apply Forall_cons in Hu as [[rel ->] Hu].
      destruct (Hb ltac:(discriminate)) as [d Hd'].
      rewrite Hd', Hx, dest_path_of_under in Hd. discriminate.
    + destruct IH as [d [H1 [H2 [H3 [H4 H5]]]]];
        [exact Hu|intros _; apply Hb; discriminate|reflexivity|].
      exists d. split; [intros _; apply H1; discriminate|].
      split; [exact H2|]. split; [exact H3|]. split; [exact H4|exact H5].
    + destruct IH as [d [H1 [H2 [H3 [H4 H5]]]]];
        [exact Hu|intros _; apply Hb; discriminate|reflexivity|].
      exists d. split; [intros _; apply H1; discriminate|].
      split; [exact H2|]. split; [exact H3|]. split; [exact H4|exact H5].
    + destruct IH as [d [H1 [H2 [H3 [H4 H5]]]]];
        [constructor|intros _; apply Hb; discriminate|reflexivity|].
      exists d. split; [intros _; apply H1; discriminate|].
      split; [exact H2|]. split; [exact H3|]. split; [exact H4|exact H5].
  - eapply Forall_impl; [exact Hsched|]. intros a Ha x Hx.
    apply keeps_src_handle; assumption.
  - exact Hsrc.
  - exact Hth.
  - exact Hrun.
  - destruct (HP Hunder Hbase Hcr) as [d H]. exists th', d.
    split; [exact Hth'|exact H].
Qed.

End ThreadFacts.

Section KeywordRunFacts.
Context (L : PdfLib) (cs : bool).

Lemma refs_ok_move (tid : nat) (s : Sys) (a : Action) (l : Label) (s1 : Sys) :
  refs_ok tid s -> move cs s a l s1 -> refs_ok tid s1.
Proof.
  intros [Hc Hj] Hmove.
  destruct Hmove as [i thi ev th1 w1 Hthi Hw|item q Hq|result|text|folder
                    |folder|s1 Hs1|title Hs1].
  - constructor; simpl; [exact Hc|].
    intros th idx pdf dest kw rest Hth Hpc.
    destruct (decide (i = tid)) as [->|Hne].
    + rewrite list_lookup_insert_eq in Hth
        by (eapply lookup_lt_Some; exact Hthi).
      injection Hth as <-.
      destruct Hw; simpl in Hpc; try discriminate.
      injection Hpc as _ _ _ <- _. exact Hc.
    + rewrite list_lookup_insert_ne in Hth by exact Hne.
      eapply Hj; eassumption.
  - constructor; simpl; assumption.
  - destruct (handler_cases (session s) (_edit_keywords result (session s)))
      as [E|[kws E]]; [left; eexists; reflexivity| |]; rewrite E.
    + destruct s; constructor; assumption.
    + constructor; simpl.
      * rewrite lookup_insert_eq. eexists. reflexivity.
      * intros th idx pdf dest kw rest Hth Hpc.
        apply rebind_keeps_refs. eapply Hj; eassumption.
  - destruct (handler_cases (session s) (_load_kw_file text (session s)))
      as [E|[kws E]]; [right; eexists; reflexivity| |]; rewrite E.
    + destruct s; constructor; assumption.
    + constructor; simpl.
      * rewrite lookup_insert_eq. eexists. reflexivity.
      * intros th idx pdf dest kw rest Hth Hpc.
        apply rebind_keeps_refs. eapply Hj; eassumption.
  - destruct folder; constructor; simpl; assumption.
  - destruct folder; constructor; simpl; assumption.
  - destruct (start_state cs s s1 Hs1) as [src [_ [-> _]]].
    constructor; simpl; [exact Hc|].
    intros th idx pdf dest kw rest Hth Hpc.
    apply lookup_app_Some in Hth as [Hth|[_ Hth]]; [eapply Hj; eassumption|].
    destruct (tid - length (threads s))%nat; simpl in Hth; [|discriminate].
    injection Hth as <-. discriminate.
  - constructor; assumption.
Qed.

Lemma bound_rebind (tid : nat) (s : Sys) (x : Session) :
  refs_ok tid s ->
  x = session s \/ (exists kws, x = rebind_keywords (session s) kws) ->
  bound tid (with_session s x) = bound tid s.
Proof.
  intros [Hc Hj] [->|[kws ->]]; [destruct s; reflexivity|].
  unfold bound, in_flight, with_session. cbn [threads session].
  destruct (threads s !! tid) as [th|] eqn:Hth; [|reflexivity].
  destruct (pc th) as [| |idx pdf dest kw rest| | |] eqn:Hpc; try reflexivity.
  rewrite (deref_rebind_other (session s) kws kw); [reflexivity|].
  eapply Hj; [reflexivity|exact Hpc].
Qed.

(** A call is bound to the current list and runs with the list it was
    bound to, whatever was rebound in between. *)
Lemma run_keywords (tid : nat) (sched : list Action) (s : Sys)
    (tr : list Label) (s' : Sys) :
  refs_ok tid s ->
  run L cs sched s = (tr, s') ->
  keywords_discipline tid (current_keywords s) (bound tid s) tr.
Proof.
  intros Hok Hrun.
  apply (run_moves L cs (fun _ => True) (refs_ok tid)
           (fun s tr s' =>
              keywords_discipline tid (current_keywords s) (bound tid s) tr))
    with (sched := sched) (s := s) (tr := tr) (s' := s').
  - intros s0 _. exact I.
  - intros s0 a l s1 Hs _ Hmove. eapply refs_ok_move; eassumption.
  - intros s0 a l s1 tr0 s2 Hs _ Hmove IH.
    destruct Hmove as [i thi ev th1 w1 Hthi Hw|item q Hq|result|text|folder
                      |folder|s1 Hs1|title Hs1].
    + assert (Hcur : current_keywords (with_thread s0 i th1 w1)
                     = current_keywords s0) by reflexivity.
      rewrite Hcur in IH. clear Hcur.
      destruct (decide (i = tid)) as [->|Hne].
      * assert (Hb1 : bound tid (with_thread s0 tid th1 w1)
                      = in_flight (session s0) th1).
        { unfold bound. simpl. rewrite list_lookup_insert_eq
            by (eapply lookup_lt_Some; exact Hthi). reflexivity. }
        assert (Hb0 : bound tid s0 = in_flight (session s0) thi).
        { unfold bound. rewrite Hthi. reflexivity. }
        rewrite Hb1 in IH. rewrite Hb0. clear Hb0 Hb1.
        destruct Hw as [Hpc|idx pdf rest dest Hpc Hd|idx pdf rest e Hpc Hd
                       |idx pdf dest kw rest t line Hpc Hrep|idx rest Hpc
                       |idx Hpc];
          unfold in_flight in *; simpl in *; rewrite Hpc;
          try (destruct (decide (tid = tid)); [|congruence]);
          try exact IH.
        -- split; [reflexivity|exact IH].
        -- split; [reflexivity|exact IH].
      * assert (Hb : bound tid (with_thread s0 i th1 w1) = bound tid s0).
        { unfold bound. simpl. rewrite list_lookup_insert_ne by exact Hne.
          reflexivity. }
        rewrite Hb in IH.
        destruct ev; simpl; try exact IH;
          destruct (decide (i = tid)); try congruence; exact IH.
    + exact IH.
    + simpl. rewrite bound_rebind in IH; [exact IH|exact Hs|].
      apply handler_cases. left. eexists. reflexivity.
    + simpl. rewrite bound_rebind in IH; [exact IH|exact Hs|].
      apply handler_cases. right. eexists. reflexivity.
    + simpl. destruct folder; exact IH.
    + simpl. destruct folder; exact IH.
    + simpl. destruct (start_state cs s0 s1 Hs1) as [src [_ [-> _]]].
      assert (Hb : bound tid
                     (mkSys (session s0)
                        (threads s0
                         ++ [mkThread (walk_pdfs cs (fs (world s0)) src) None
                                      AtEntry])
                        (world s0)
                        (mkUI (length (walk_pdfs cs (fs (world s0)) src)) 0
                              [] []))
                   = bound tid s0).
      { unfold bound. simpl.
        destruct (threads s0 !! tid) as [th|] eqn:Hth.
        - rewrite (lookup_app_l_Some _ _ _ _ Hth). reflexivity.
        - apply lookup_ge_None in Hth. rewrite lookup_app_r by exact Hth.
          destruct (tid - length (threads s0))%nat as [|k]; [reflexivity|].
          reflexivity. }
      rewrite Hb in IH. exact IH.
    + exact IH.
  - apply Forall_True.
  - exact Hok.
  - exact Hrun.
Qed.

Lemma disciplined_same_list (tid : nat) (k0 : list (list N))
    (tr : list Label) :
  forall cur bound,
    keywords_discipline tid cur bound tr ->
    cur = k0 ->
    (forall idx kws, bound = Some (idx, kws) -> kws = k0) ->
    Forall (fun k => k = k0) (rebinds tr) ->
    Forall (fun k => k = k0) (lists_used (events_of tid tr)).
Proof.
  induction tr as [|l tr IH]; intros cur bound Hd Hcur Hb Hre;
    [constructor|].
  destruct l as [i ev|item|kws| |i|title]; simpl in *.
  - destruct (decide (i = tid)) as [->|Hne].
    + destruct ev as [db|idx pdf dest kws|idx kws added|item|e]; simpl in *;
        try (destruct (decide (tid = tid)); [|congruence]);
        try (eapply IH; eassumption).
      * destruct Hd as [-> Hd]. eapply IH; [exact Hd|exact Hcur| |exact Hre].
        intros idx' kws' [= _ <-]. exact Hcur.
      * destruct Hd as [-> Hd]. constructor; [eapply Hb; reflexivity|].
        eapply IH; [exact Hd|exact Hcur| |exact Hre]. intros ? ? [=].
    + destruct ev as [db|idx pdf dest kws|idx kws added|item|e]; simpl in *;
        try (destruct (decide (i = tid)); [congruence|]);
        eapply IH; eassumption.
  - eapply IH; eassumption.
  - apply Forall_cons in Hre as [-> Hre].
    eapply IH; [exact Hd|reflexivity|exact Hb|exact Hre].
  - eapply IH; eassumption.
  - eapply IH; eassumption.
  - eapply IH; eassumption.
Qed.

End KeywordRunFacts.

Section BatchFacts.
Context (L : PdfLib) (cs : bool).

Lemma run_app (a b : list Action) (s : Sys) :
  run L cs (a ++ b) s
  = let '(tr1, s1) := run L cs a s in
    let '(tr2, s2) := run L cs b s1 in (tr1 ++ tr2, s2).
Proof.
  revert s. induction a as [|x a IH]; intros s; simpl.
  - destruct (run L cs b s). reflexivity.
  - destruct (do_action L cs x s) as [[l s1]|]; [|apply IH].
    rewrite IH. destruct (run L cs a s1) as [tr1 s2].
    destruct (run L cs b s2). reflexivity.
Qed.

Lemma last_cons_default {A} (l : list A) (x d : A) :
  List.last (x :: l) d = List.last l x.
Proof.
  revert x d. induction l as [|y l IH]; intros x d; [reflexivity|].
  change (List.last (x :: y :: l) d) with (List.last (y :: l) d).
  rewrite (IH y d), (IH y x). reflexivity.
Qed.

(** While no batch is started, the display shows the last progress value
    and the last completion value the foreground took, and the progress
    maximum stays. *)
Lemma run_display (sched : list Action) (s : Sys) (tr : list Label)
    (s' : Sys) :
  Forall no_start sched ->
  run L cs sched s = (tr, s') ->
  progress_value (ui s')
  = List.last (progress_values (gets tr)) (progress_value (ui s))
  /\ summary_var (ui s')
     = List.last (map summary_line (done_values (gets tr)))
                 (summary_var (ui s))
  /\ progress_maximum (ui s') = progress_maximum (ui s).
Proof.
  intros Hq Hrun.
  apply (run_moves L cs no_start (fun _ => True)
           (fun s tr s' =>
              progress_value (ui s')
              = List.last (progress_values (gets tr)) (progress_value (ui s))
              /\ summary_var (ui s')
                 = List.last (map summary_line (done_values (gets tr)))
                             (summary_var (ui s))
              /\ progress_maximum (ui s') = progress_maximum (ui s)))
    with (sched := sched) (s := s) (tr := tr) (s' := s').
  - intros s0 _. split; [|split]; reflexivity.
  - intros; exact I.
  - intros s0 a l s1 tr0 s2 _ Hns Hmove [IH1 [IH2 IH3]].
    destruct Hmove as [i thi ev th1 w1 Hthi Hw|item q Hq'|result|text|folder
                      |folder|s1 Hs1|title Hs1];
      simpl in *; try (split; [|split]; assumption); try destruct Hns.
    rewrite IH1, IH2, IH3. clear IH1 IH2 IH3.
    destruct item as [text|tag payload]; simpl;
      [split; [|split]; reflexivity|].
    destruct (decide (tag = PROGRESS)) as [->|Hp]; simpl.
    + destruct (decide (PROGRESS = DONE)) as [E|_];
        [destruct (PROGRESS_ne_DONE E)|].
      split; [|split; reflexivity].
      symmetry. apply last_cons_default.
    + destruct (decide (tag = DONE)) as [->|Hd]; simpl;
        [|split; [|split]; reflexivity].
      split; [reflexivity|]. split; [|reflexivity].
      symmetry. apply last_cons_default.
  - exact Hq.
  - exact I.
  - exact Hrun.
Qed.

(** While no batch is started and no other thread is running, every item
    enqueued is an item of the one thread. *)
Lemma single_batch (tid : nat) (sched : list Action) (s : Sys)
    (tr : list Label) (s' : Sys) :
  Forall no_start sched ->
  (forall i th, i <> tid -> threads s !! i = Some th -> alive th = false) ->
  run L cs sched s = (tr, s') ->
  puts tr = puts_of tid tr.
Proof.
  intros Hq Hinv Hrun.
  apply (run_moves L cs no_start
           (fun s => forall i th, i <> tid -> threads s !! i = Some th ->
                                  alive th = false)
           (fun s tr s' => puts tr = puts_of tid tr))
    with (sched := sched) (s := s) (tr := tr) (s' := s').
  - intros s0 _. reflexivity.
  - intros s0 a l s1 Hs Hns Hmove.
    destruct Hmove as [i thi ev th1 w1 Hthi Hw|item q Hq'|result|text|folder
                      |folder|s1 Hs1|title Hs1];
      simpl in *; try exact Hs; try destruct Hns.
    intros j th Hj Hth.
    destruct (decide (i = j)) as [->|Hne].
    + pose proof (worker_move_alive _ _ _ _ _ _ Hw) as Ha.
      rewrite (Hs j thi Hj Hthi) in Ha. discriminate.
    + rewrite list_lookup_insert_ne in Hth by exact Hne. eapply Hs; eassumption.
  - intros s0 a l s1 tr0 s2 Hs Hns Hmove IH.
    destruct Hmove as [i thi ev th1 w1 Hthi Hw|item q Hq'|result|text|folder
                      |folder|s1 Hs1|title Hs1];
      simpl in *; try exact IH.
    destruct (decide (i = tid)) as [->|Hne].
    + rewrite puts_of_cons_worker, IH. reflexivity.
    + pose proof (worker_move_alive _ _ _ _ _ _ Hw) as Ha.
      rewrite (Hs i thi Hne Hthi) in Ha. discriminate.
  - exact Hq.
  - exact Hinv.
  - exact Hrun.
Qed.

(** The items of one thread are among all the items enqueued, in the
    same order. *)
Lemma puts_of_sublist (tid : nat) (tr : list Label) :
  sublist (puts_of tid tr) (puts tr).
Proof.
  induction tr as [|l tr IH]; [constructor|].
  destruct l as [i ev|item|kws| |i|title]; try exact IH.
  simpl. destruct (decide (i = tid)) as [->|Hne].
  - rewrite puts_of_cons_worker. apply sublist_app; [reflexivity|exact IH].
  - unfold puts_of in *. simpl.
    destruct (decide (i = tid)); [congruence|].
    apply sublist_inserts_l. exact IH.
Qed.

(** A worker thread that is running can move. *)
Lemma worker_enabled (x : Session) (th : Thread) (w : World) :
  alive th = true ->
  exists ev th1 w1,
    worker_step L x th w = Some (ev, th1, w1)
    /\ (moves_left th1 < moves_left th)%nat.
Proof.
  unfold alive, worker_step, moves_left.
  destruct (pc th)
    as [|idx [|pdf rest]|idx pdf dest kw rest|idx rest| |idx rest e] eqn:Hpc;
    try discriminate; intros _.
  - eexists _, _, _. split; [reflexivity|]. simpl. lia.
  - eexists _, _, _. split; [reflexivity|]. simpl. lia.
  - destruct (dest_path_of (thr_dest_base th) (src_folder (self x)) pdf);
      eexists _, _, _; (split; [reflexivity|]); simpl; lia.
  - destruct (highlight_document_one_line L pdf dest (deref (heap x) kw) w)
      as [t [line [Hrun _]]].
    rewrite Hrun. eexists _, _, _. split; [reflexivity|]. simpl. lia.
  - eexists _, _, _. split; [reflexivity|]. simpl. lia.
Qed.

(** A worker thread, left to run, ends. *)
Lemma worker_finishes (tid : nat) (n : nat) :
  forall s th,
    threads s !! tid = Some th ->
    (moves_left th <= n)%nat ->
    exists th',
      threads (snd (run L cs (repeat (ActWorker tid) n) s)) !! tid = Some th'
      /\ alive th' = false.
Proof.
  induction n as [|n IH]; intros s th Hth Hn; simpl.
  - exists th. split; [exact Hth|].
    unfold moves_left, alive in *. destruct (pc th); try reflexivity; lia.
  - rewrite Hth. destruct (alive th) eqn:Ha.
    + destruct (worker_enabled (session s) th (world s) Ha)
        as [ev [th1 [w1 [Hstep Hm]]]].
      rewrite Hstep.
      destruct (run L cs (repeat (ActWorker tid) n) (with_thread s tid th1 w1))
        as [tr s2] eqn:Hr.
      simpl. change s2 with (snd (tr, s2)). rewrite <- Hr.
      apply (IH _ th1); [|lia].
      simpl. apply list_lookup_insert_eq. eapply lookup_lt_Some. exact Hth.
    + assert (Hnone : worker_step L (session s) th (world s) = None).
      { unfold worker_step, alive in *.
        destruct (pc th); try discriminate; reflexivity. }
      rewrite Hnone. apply (IH s th Hth).
      unfold moves_left, alive in *.
      destruct (pc th); simpl in *; try discriminate; lia.
Qed.

(** The foreground, left to run, empties the queue and leaves the
    threads where they are. *)
Lemma foreground_drains (n : nat) :
  forall s, (length (log_q (world s)) <= n)%nat ->
            log_q (world (snd (run L cs (repeat ActGet n) s))) = []
            /\ threads (snd (run L cs (repeat ActGet n) s)) = threads s.
Proof.
  induction n as [|n IH]; intros s Hn; simpl.
  - destruct (log_q (world s)); [split; reflexivity|simpl in Hn; lia].
  - unfold get_step.
    destruct (log_q (world s)) as [|item q] eqn:Hq.
    + destruct (IH s) as [H1 H2]; [rewrite Hq; simpl; lia|].
      split; assumption.
    + set (s1 := mkSys (session s) (threads s)
                       (mkWorld (fs (world s)) q) (show_item (ui s) item)).
      destruct (IH s1) as [H1 H2]; [simpl in *; lia|].
      destruct (run L cs (repeat ActGet n) s1) as [tr s2]. simpl in *.
      split; assumption.
Qed.

Lemma seq_prefix (a b : list nat) (i k : nat) :
  a ++ b = seq i k -> a = seq i (length a) /\ (length a <= k)%nat.
Proof.
  revert i k. induction a as [|x a IH]; intros i k; simpl.
  - intros _. split; [reflexivity|lia].
  - destruct k as [|k]; simpl; [discriminate|].
    intros [= -> H]. destruct (IH _ _ H) as [Ha Hk].
    split; [f_equal; exact Ha|lia].
Qed.

Lemma last_seq_from_1 (j : nat) : List.last (seq 1 j) 0%nat = j.
Proof.
  destruct j as [|j]; [reflexivity|].
  rewrite seq_S. apply last_last.
Qed.

Lemma Forall_repeat {A} (P : A -> Prop) (x : A) (n : nat) :
  P x -> Forall P (repeat x n).
Proof. intros H. induction n; simpl; constructor; assumption. Qed.

(** The thread [_start] launches: the last one, about to enter, on the
    files discovered under the source folder. *)
Lemma started_thread (sys0 sys : Sys) :
  _start cs sys0 = Started sys ->
  exists src,
    src_folder (self (session sys0)) = Some src
    /\ session sys = session sys0
    /\ world sys = world sys0
    /\ threads sys !! length (threads sys0)
       = Some (mkThread (walk_pdfs cs (fs (world sys0)) src) None AtEntry)
    /\ (forall i th, i <> length (threads sys0) ->
                     threads sys !! i = Some th -> threads sys0 !! i = Some th)
    /\ Forall (under src) (walk_pdfs cs (fs (world sys0)) src)
    /\ refs_ok (length (threads sys0)) sys
    /\ ui sys = mkUI (length (walk_pdfs cs (fs (world sys0)) src)) 0 [] [].
Proof.
  intros Hs. destruct (start_state cs sys0 sys Hs)
    as [src [Hsrc [-> [_ [_ Hc]]]]].
  exists src. split; [exact Hsrc|]. split; [reflexivity|].
  split; [reflexivity|]. simpl.
  split.
  { rewrite lookup_app_r by lia. rewrite Nat.sub_diag. reflexivity. }
  split.
  { intros i th Hi Hth. apply lookup_app_Some in Hth as [Hth|[Hge Hth]];
      [exact Hth|].
    destruct (i - length (threads sys0))%nat as [|k] eqn:E;
      [lia|discriminate]. }
  split.
  { apply Forall_forall. intros p Hp.
    apply list_elem_of_In, walk_pdfs_iff in Hp as [_ [rel [_ [-> _]]]].
    exists rel. reflexivity. }
  split; [|reflexivity].
  constructor; simpl; [exact Hc|].
  intros th idx pdf dest kw rest Hth Hpc.
  rewrite lookup_app_r in Hth by lia. rewrite Nat.sub_diag in Hth.
  injection Hth as <-. discriminate.
Qed.

End BatchFacts.

Section WorkerAlone.
Context (L : PdfLib) (cs : bool).
Local Open Scope engine_scope.

Lemma worker_action (tid : nat) (sched : list Action) (s : Sys) (th : Thread)
    (ev : Event) (th1 : Thread) (w1 : World) :
  threads s !! tid = Some th ->
  worker_step L (session s) th (world s) = Some (ev, th1, w1) ->
  snd (run L cs (ActWorker tid :: sched) s)
  = snd (run L cs sched (with_thread s tid th1 w1))
  /\ threads (with_thread s tid th1 w1) !! tid = Some th1.
Proof.
  intros Hth Hstep. split.
  - simpl. rewrite Hth, Hstep.
    destruct (run L cs sched (with_thread s tid th1 w1)). reflexivity.
  - simpl. apply list_lookup_insert_eq. eapply lookup_lt_Some. exact Hth.
Qed.

Lemma dead_thread_stays (tid : nat) (n : nat) (s : Sys) (th : Thread) :
  threads s !! tid = Some th -> alive th = false ->
  run L cs (repeat (ActWorker tid) n) s = ([], s).
Proof.
  intros Hth Ha. induction n as [|n IH]; [reflexivity|].
  simpl. rewrite Hth.
  assert (Hnone : worker_step L (session s) th (world s) = None).
  { unfold worker_step, alive in *.
    destruct (pc th); try discriminate; reflexivity. }
  rewrite Hnone. exact IH.
Qed.

Lemma worker_loop_cons (s : Session) (db : option (list (list N)))
    (idx : nat) (pdf : list (list N)) (rest : list (list (list N)))
    (w : World) :
  worker_loop L s db idx (pdf :: rest) w
  = match dest_path_of db (src_folder (self s)) pdf with
    | inl e => Raised e w
    | inr dest =>
        match highlight_document L pdf dest
                (deref (heap s) (keywords (self s))) w with
        | Returned _ w1 =>
            worker_loop L s db (S idx) rest
              (mkWorld (fs w1) (log_q w1 ++ [Tagged PROGRESS idx]))
        | Raised e w1 => Raised e w1
        end
    end.
Proof.
  simpl. unfold worker_iteration, bind, lift.
  destruct (dest_path_of db (src_folder (self s)) pdf); simpl; [reflexivity|].
  destruct (highlight_document L pdf l (deref (heap s) (keywords (self s))) w);
    reflexivity.
Qed.

(** With nothing interleaved, the moves of a worker thread through the
    loop compute what [worker_loop] computes: the same world when the loop
    ends, the same exception and world when the destination computation
    raises. *)
Lemma worker_moves_are_worker_loop (tid : nat)
    (pdfs : list (list (list N))) :
  forall idx s th,
    threads s !! tid = Some th ->
    pc th = AtLoop idx pdfs ->
    (forall w',
        worker_loop L (session s) (thr_dest_base th) idx pdfs (world s)
        = Returned tt w' ->
        world (snd (run L cs (repeat (ActWorker tid) (3 * length pdfs)) s))
        = w'
        /\ session (snd (run L cs (repeat (ActWorker tid) (3 * length pdfs))
                             s))
           = session s
        /\ threads (snd (run L cs (repeat (ActWorker tid) (3 * length pdfs))
                             s))
           !! tid
           = Some (with_pc th (AtLoop (idx + length pdfs) [])))
    /\ (forall e w',
           worker_loop L (session s) (thr_dest_base th) idx pdfs (world s)
           = Raised e w' ->
           world (snd (run L cs (repeat (ActWorker tid) (3 * length pdfs)) s))
           = w'
           /\ exists i rest,
               threads (snd (run L cs
                               (repeat (ActWorker tid) (3 * length pdfs)) s))
               !! tid
               = Some (with_pc th (Crashed i rest e))).
Proof.
  induction pdfs as [|pdf rest IH]; intros idx s th Hth Hpc.
  - split.
    + intros w' [= <-]. simpl. split; [reflexivity|]. split; [reflexivity|].
      rewrite Hth, Nat.add_0_r, <- Hpc. destruct th; reflexivity.
    + intros e w' [=].
  - replace (3 * length (pdf :: rest))%nat
      with (S (S (S (3 * length rest)))) by (simpl; lia).
    cbn [repeat]. rewrite worker_loop_cons.
    destruct (dest_path_of (thr_dest_base th) (src_folder (self (session s)))
                pdf) as [e0|dest] eqn:Hd.
    + split; [intros w' [=]|]. intros e w' [= <- <-].
      destruct (worker_action tid
                  (repeat (ActWorker tid) (S (S (3 * length rest))))
                  s th (ECrash e0) (with_pc th (Crashed idx (pdf :: rest) e0))
                  (world s) Hth) as [Hrun Hth1].
      { unfold worker_step. rewrite Hpc, Hd. reflexivity. }
      change (ActWorker tid
                :: ActWorker tid :: ActWorker tid
                   :: repeat (ActWorker tid) (3 * length rest))
        with (ActWorker tid
                :: repeat (ActWorker tid) (S (S (3 * length rest)))).
      rewrite Hrun, (dead_thread_stays tid _ _ _ Hth1 eq_refl). cbn [snd].
      split; [reflexivity|]. exists idx, (pdf :: rest). exact Hth1.
    + destruct (highlight_document_one_line L pdf dest
                  (deref (heap (session s)) (keywords (self (session s))))
                  (world s)) as [t [line [Hdoc _]]].
      rewrite Hdoc. cbn [fs log_q].
      set (w1 := mkWorld t (log_q (world s) ++ [Line line])).
      set (w2 := mkWorld t ((log_q (world s) ++ [Line line])
                            ++ [Tagged PROGRESS idx])).
      set (th1 := with_pc th (InJob idx pdf dest
                                (keywords (self (session s))) rest)).
      set (th2 := with_pc th (AfterJob idx rest)).
      set (th3 := with_pc th (AtLoop (S idx) rest)).
      destruct (worker_action tid
                  (repeat (ActWorker tid) (S (S (3 * length rest))))
                  s th
                  (EBind idx pdf dest
                     (deref (heap (session s)) (keywords (self (session s)))))
                  th1 (world s) Hth) as [Hrun1 Hth1].
      { unfold worker_step. rewrite Hpc, Hd. reflexivity. }
      set (s1 := with_thread s tid th1 (world s)) in *.
      destruct (worker_action tid
                  (repeat (ActWorker tid) (S (3 * length rest)))
                  s1 th1
                  (ERun idx
                     (deref (heap (session s)) (keywords (self (session s))))
                     (drop (length (log_q (world s))) (log_q w1)))
                  th2 w1 Hth1) as [Hrun2 Hth2].
      { unfold worker_step. cbn [pc th1 with_pc s1 with_thread session world].
        rewrite Hdoc. reflexivity. }
      set (s2 := with_thread s1 tid th2 w1) in *.
      destruct (worker_action tid (repeat (ActWorker tid) (3 * length rest))
                  s2 th2 (EPut (Tagged PROGRESS idx)) th3 w2 Hth2)
        as [Hrun3 Hth3].
      { reflexivity. }
      set (s3 := with_thread s2 tid th3 w2) in *.
      change (ActWorker tid
                :: ActWorker tid :: ActWorker tid
                   :: repeat (ActWorker tid) (3 * length rest))
        with (ActWorker tid
                :: repeat (ActWorker tid) (S (S (3 * length rest)))).
      rewrite Hrun1.
      change (repeat (ActWorker tid) (S (S (3 * length rest))))
        with (ActWorker tid :: repeat (ActWorker tid) (S (3 * length rest))).
      rewrite Hrun2.
      change (repeat (ActWorker tid) (S (3 * length rest)))
        with (ActWorker tid :: repeat (ActWorker tid) (3 * length rest)).
      rewrite Hrun3.
      destruct (IH (S idx) s3 th3 Hth3 eq_refl) as [IHret IHraise].
      change (session s3) with (session s) in IHret, IHraise.
      change (world s3) with w2 in IHret, IHraise.
      change (thr_dest_base th3) with (thr_dest_base th) in IHret, IHraise.
      split.
      * intros w' Hloop. destruct (IHret w' Hloop) as [H1 [H2 H3]].
        split; [exact H1|]. split; [exact H2|].
        rewrite H3. unfold th3, with_pc. simpl.
        replace (idx + S (length rest))%nat with (S (idx + length rest))
          by lia.
        reflexivity.
      * intros e w' Hloop. destruct (IHraise e w' Hloop) as [H1 [i [r H2]]].
        split; [exact H1|]. exists i, r. exact H2.
Qed.

(** The worker thread of a started batch, run alone to its end, leaves
    the world [_worker] computes, and returns or dies as [_worker] returns
    or raises. *)
Lemma worker_thread_alone (sys0 sys : Sys) (src : list (list N)) :
  _start cs sys0 = Started sys ->
  src_folder (self (session sys0)) = Some src ->
  exists th',
    threads (snd (run L cs
                    (repeat (ActWorker (length (threads sys0)))
                            (3 * length (walk_pdfs cs (fs (world sys0)) src)
                             + 2))
                    sys))
    !! length (threads sys0) = Some th'
    /\ match _worker L (session sys0) (walk_pdfs cs (fs (world sys0)) src)
               (world sys0) with
       | Returned _ w' =>
           world (snd (run L cs
                         (repeat (ActWorker (length (threads sys0)))
                                 (3 * length
                                        (walk_pdfs cs (fs (world sys0)) src)
                                  + 2))
                         sys)) = w'
           /\ pc th' = Finished
       | Raised e w' =>
           world (snd (run L cs
                         (repeat (ActWorker (length (threads sys0)))
                                 (3 * length
                                        (walk_pdfs cs (fs (world sys0)) src)
                                  + 2))
                         sys)) = w'
           /\ exists i rest, pc th' = Crashed i rest e
       end.
Proof.
  intros Hstart Hsrc.
  destruct (started_thread cs sys0 sys Hstart)
    as [src' [Hsrc' [Hsess [Hworld [Hth _]]]]].
  rewrite Hsrc in Hsrc'. injection Hsrc' as <-.
  set (tid := length (threads sys0)) in *.
  set (pdfs := walk_pdfs cs (fs (world sys0)) src) in *.
  set (th0 := mkThread pdfs None AtEntry) in *.
  set (th1 := mkThread pdfs (dest_base_of (self (session sys)))
                       (AtLoop 1 pdfs)).
  replace (3 * length pdfs + 2)%nat with (S (3 * length pdfs + 1)) by lia.
  cbn [repeat].
  destruct (worker_action tid (repeat (ActWorker tid) (3 * length pdfs + 1))
              sys th0 (EEnter (dest_base_of (self (session sys)))) th1
              (world sys) Hth eq_refl) as [Hrun1 Hth1].
  rewrite Hrun1. set (s1 := with_thread sys tid th1 (world sys)) in *.
  rewrite repeat_app, run_app.
  destruct (run L cs (repeat (ActWorker tid) (3 * length pdfs)) s1)
    as [tr2 s2] eqn:Hr2.
  destruct (worker_moves_are_worker_loop tid pdfs 1%nat s1 th1 Hth1 eq_refl)
    as [Hret Hraise].
  rewrite Hr2 in Hret, Hraise. cbn [snd] in Hret, Hraise.
  change (session s1) with (session sys) in Hret, Hraise.
  change (world s1) with (world sys) in Hret, Hraise.
  change (thr_dest_base th1) with (dest_base_of (self (session sys)))
    in Hret, Hraise.
  rewrite Hsess, Hworld in Hret, Hraise.
  unfold _worker, bind.
  destruct (worker_loop L (session sys0) (dest_base_of (self (session sys0)))
              1 pdfs (world sys0)) as [[] w'|e w'].
  - destruct (Hret w' eq_refl) as [Hw [Hs Hth2]].
    cbn [repeat run do_action]. rewrite Hth2.
    unfold worker_step. cbn [pc with_pc]. cbn [snd with_thread threads world].
    eexists. split.
    { apply list_lookup_insert_eq. eapply lookup_lt_Some. exact Hth2. }
    split; [|reflexivity]. unfold put. rewrite Hw. reflexivity.
  - destruct (Hraise e w' eq_refl) as [Hw [i [r Hth2]]].
    rewrite (dead_thread_stays tid 1 s2 _ Hth2 eq_refl). cbn [snd].
    eexists. split; [exact Hth2|]. split; [exact Hw|].
    exists i, r. reflexivity.
Qed.

End WorkerAlone.

Section BatchClaims.
Context (L : PdfLib).

Lemma distinct_dests (d src : list (list N)) (p1 p2 d1 d2 : list (list N)) :
  dest_path_of (Some d) (Some src) p1 = inr d1 ->
  dest_path_of (Some d) (Some src) p2 = inr d2 ->
  p1 <> p2 -> d1 <> d2.
Proof.
  intros H1 H2 Hp Hd. apply Hp.
  destruct (decide (d = src)) as [Heq|Hne].
  - rewrite Heq, dest_path_of_in_place in H1, H2. congruence.
  - apply dest_path_of_mirror in H1 as [r1 [-> ->]]; [|exact Hne].
    apply dest_path_of_mirror in H2 as [r2 [-> E2]]; [|exact Hne].
    subst d2. unfold joinpath in Hd. apply app_inv_head in Hd.
    congruence.
Qed.

Lemma NoDup_map_snd {A B} (l : list (A * B)) :
  NoDup (map fst l) ->
  (forall j1 j2, In j1 l -> In j2 l -> fst j1 <> fst j2 -> snd j1 <> snd j2) ->
  NoDup (map snd l).
Proof.
  induction l as [|j l IH]; intros Hnd Hinj; simpl; [constructor|].
  simpl in Hnd. apply NoDup_cons in Hnd as [Hnotin Hnd].
  apply NoDup_cons. split.
  - intros Hin. apply list_elem_of_In, in_map_iff in Hin as [j' [Heq Hin]].
    apply (Hinj j j'); [left; reflexivity|right; exact Hin| |congruence].
    intros E. apply Hnotin. rewrite E. apply list_elem_of_In, in_map.
    exact Hin.
  - apply IH; [exact Hnd|]. intros j1 j2 H1 H2. apply Hinj; right; assumption.
Qed.

Lemma jobs_shape (d src : list (list N))
    (js : list (list (list N) * list (list N))) :
  Forall (fun j => dest_path_of (Some d) (Some src) (fst j) = inr (snd j)) js ->
  Forall (under src) (map fst js) ->
  Forall (fun j =>
            exists rel,
              fst j = src ++ rel
              /\ snd j = if decide (d = src) then fst j else joinpath d rel)
         js.
Proof.
  induction js as [|j js IH]; intros Hjobs Hsub; [constructor|].
  apply Forall_cons in Hjobs as [Hj Hjobs]. simpl in Hsub.
  apply Forall_cons in Hsub as [[rel Hrel] Hsub].
  constructor; [|apply IH; assumption].
  exists rel. split; [exact Hrel|].
  rewrite Hrel, dest_path_of_under in Hj. injection Hj as <-.
  rewrite <- Hrel. reflexivity.
Qed.

(** C3, as amended. In a batch during which the source folder is not
    changed, every destination the worker computes is the input path
    itself when its destination base is the source folder, and the
    destination base joined with the input's path relative to the source
    folder otherwise; the inputs are the discovered files in order; two
    jobs with distinct inputs have distinct destinations, and on a file
    system with unique entry names no two jobs have the same
    destination. *)
Theorem dest_paths_mirror_and_are_distinct (cs : bool) (sys0 sys : Sys)
    (src : list (list N)) (sched : list Action) (tr : list Label)
    (sys' : Sys) :
  _start cs sys0 = Started sys ->
  src_folder (self (session sys0)) = Some src ->
  Forall (keeps_src src) sched ->
  run L cs sched sys = (tr, sys') ->
  exists th' d,
    threads sys' !! length (threads sys0) = Some th'
    /\ (pc th' <> AtEntry -> thr_dest_base th' = Some d)
    /\ crashed th' = false
    /\ Forall (fun j =>
                 exists rel,
                   fst j = src ++ rel
                   /\ snd j = if decide (d = src) then fst j
                              else joinpath d rel)
              (jobs (events_of (length (threads sys0)) tr))
    /\ (forall j1 j2,
           In j1 (jobs (events_of (length (threads sys0)) tr)) ->
           In j2 (jobs (events_of (length (threads sys0)) tr)) ->
           fst j1 <> fst j2 -> snd j1 <> snd j2)
    /\ (exists rest,
           walk_pdfs cs (fs (world sys0)) src
           = map fst (jobs (events_of (length (threads sys0)) tr)) ++ rest)
    /\ (forall t,
           resolve (fs (world sys0)) src = Some t ->
           unique_names t = true ->
           NoDup (map snd (jobs (events_of (length (threads sys0)) tr)))).
Proof.
  intros Hstart Hsrc Hsched Hrun.
  destruct (started_thread cs sys0 sys Hstart)
    as [src' [Hsrc' [Hsess [Hworld [Hth [_ [Hunder _]]]]]]].
  rewrite Hsrc in Hsrc'. injection Hsrc' as <-.
  destruct (thread_jobs L cs src sched sys tr sys' _ _ Hsched
              ltac:(rewrite Hsess; exact Hsrc) Hth Hunder
              ltac:(intros H; destruct H; reflexivity) eq_refl Hrun)
    as [th' [d [Hth' [_ [Hbase [Hjobs [Hrest Hcr]]]]]]].
  assert (Hinj : forall j1 j2,
             In j1 (jobs (events_of (length (threads sys0)) tr)) ->
             In j2 (jobs (events_of (length (threads sys0)) tr)) ->
             fst j1 <> fst j2 -> snd j1 <> snd j2).
  { intros j1 j2 H1 H2. rewrite Forall_forall in Hjobs.
    apply (distinct_dests d src);
      apply Hjobs, list_elem_of_In; assumption. }
  unfold rest_of at 1 in Hrest. cbn [pc batch] in Hrest.
  exists th', d. split; [exact Hth'|]. split; [exact Hbase|].
  split; [exact Hcr|]. split.
  { assert (Hsub : Forall (under src)
                     (map fst (jobs (events_of (length (threads sys0)) tr)))).
    { rewrite Hrest in Hunder. apply Forall_app in Hunder as [H _]. exact H. }
    apply jobs_shape; assumption. }
  split; [exact Hinj|]. split; [eexists; exact Hrest|].
  intros t Hres Hu. apply NoDup_map_snd; [|exact Hinj].
  pose proof (walk_pdfs_NoDup cs _ _ _ Hres Hu) as Hnd.
  rewrite Hrest in Hnd. apply NoDup_app in Hnd as [H _]. exact H.
Qed.

(** C4, as amended. In a batch over the N discovered files, under every
    interleaving of the worker threads, the foreground and the handlers:
    what was queued and what the threads enqueued is, in the same order,
    what the foreground has taken followed by what is still queued, and
    the items of the batch are among the enqueued items in the order the
    worker enqueued them; the progress tuples of the batch carry 1, 2, ...,
    K where K is the number of files reported so far, and K is at most N;
    the completion tuple is enqueued exactly when the worker has returned,
    once, as its last item, and carries N, and then K is N; a worker that
    died (which takes a change of the source folder) has enqueued none and
    K is less than N.  While this is the only batch running, what the
    foreground has taken carries 1, ..., J with J at most K and the display
    shows J; some interleaving then lets the worker return and the
    foreground take everything, and the display shows N. *)
Theorem progress_events_in_fifo_order (cs : bool) (sys0 sys : Sys) :
  _start cs sys0 = Started sys ->
  exists src,
    src_folder (self (session sys0)) = Some src
    /\ (forall sched tr sys',
           run L cs sched sys = (tr, sys') ->
           log_q (world sys0) ++ puts tr = gets tr ++ log_q (world sys')
           /\ sublist (puts_of (length (threads sys0)) tr) (puts tr)
           /\ exists th' K,
               threads sys' !! length (threads sys0) = Some th'
               /\ total th' = length (walk_pdfs cs (fs (world sys0)) src)
               /\ (K <= total th')%nat
               /\ pending th' = (total th' - K)%nat
               /\ progress_values (puts_of (length (threads sys0)) tr)
                  = seq 1 K
               /\ done_values (puts_of (length (threads sys0)) tr)
                  = (if finished th' then [total th'] else [])
               /\ (finished th' = true ->
                   K = total th'
                   /\ exists items,
                       puts_of (length (threads sys0)) tr
                       = items ++ [Tagged DONE (total th')])
               /\ (crashed th' = true ->
                   (K < total th')%nat /\ ~ Forall (keeps_src src) sched)
               /\ (Forall (fun th => alive th = false) (threads sys0) ->
                   log_q (world sys0) = [] ->
                   Forall no_start sched ->
                   exists J,
                     (J <= K)%nat
                     /\ progress_values (gets tr) = seq 1 J
                     /\ progress_value (ui sys') = J))
    /\ (Forall (fun th => alive th = false) (threads sys0) ->
        log_q (world sys0) = [] ->
        exists sched tr sys' th',
          run L cs sched sys = (tr, sys')
          /\ threads sys' !! length (threads sys0) = Some th'
          /\ pc th' = Finished
          /\ log_q (world sys') = []
          /\ gets tr = puts tr
          /\ progress_value (ui sys')
             = length (walk_pdfs cs (fs (world sys0)) src)
          /\ summary_var (ui sys')
             = summary_line (length (walk_pdfs cs (fs (world sys0)) src))).
Proof.
  intros Hstart.
  destruct (started_thread cs sys0 sys Hstart)
    as [src [Hsrc [Hsess [Hworld [Hth [Hold [Hunder [_ Hui]]]]]]]].
  set (tid := length (threads sys0)) in *.
  set (pdfs := walk_pdfs cs (fs (world sys0)) src) in *.
  set (th0 := mkThread pdfs None AtEntry) in *.
  assert (Hothers : Forall (fun th => alive th = false) (threads sys0) ->
                    forall i th, i <> tid -> threads sys !! i = Some th ->
                                 alive th = false).
  { intros Hdead i th Hi Hlk. rewrite Forall_forall in Hdead.
    apply Hdead. eapply list_elem_of_lookup_2. apply (Hold i th Hi Hlk). }
  assert (Hgen : forall sched tr sys',
             run L cs sched sys = (tr, sys') ->
             log_q (world sys0) ++ puts tr = gets tr ++ log_q (world sys')
             /\ sublist (puts_of tid tr) (puts tr)
             /\ exists th' K,
                 threads sys' !! tid = Some th'
                 /\ total th' = length pdfs
                 /\ (K <= total th')%nat
                 /\ pending th' = (total th' - K)%nat
                 /\ progress_values (puts_of tid tr) = seq 1 K
                 /\ done_values (puts_of tid tr)
                    = (if finished th' then [total th'] else [])
                 /\ (finished th' = true ->
                     K = total th'
                     /\ exists items,
                         puts_of tid tr = items ++ [Tagged DONE (total th')])
                 /\ (crashed th' = true ->
                     (K < total th')%nat /\ ~ Forall (keeps_src src) sched)
                 /\ (Forall (fun th => alive th = false) (threads sys0) ->
                     log_q (world sys0) = [] ->
                     Forall no_start sched ->
                     exists J,
                       (J <= K)%nat
                       /\ progress_values (gets tr) = seq 1 J
                       /\ progress_value (ui sys') = J)).
  { intros sched tr sys' Hrun.
    pose proof (run_fifo L cs sched sys tr sys' Hrun) as Hfifo.
    rewrite Hworld in Hfifo.
    split; [exact Hfifo|]. split; [apply puts_of_sublist|].
    destruct (thread_progress L cs sched sys tr sys' tid th0 Hth Hrun)
      as [th' [Hth' [Hb [Hle Hprog]]]].
    destruct (thread_done L cs sched sys tr sys' tid th0 Hth Hrun)
      as [th2 [Hth2 [Hdone [Hlast _]]]].
    rewrite Hth' in Hth2. injection Hth2 as <-.
    destruct (thread_crash L cs sched sys tr sys' tid th0 Hth Hrun)
      as [th2 [Hth2 Hcrash]].
    rewrite Hth' in Hth2. injection Hth2 as <-.
    change (pending th0) with (length pdfs) in Hle, Hprog.
    change (next_idx th0) with 1%nat in Hprog.
    change (alive th0) with true in Hdone, Hlast.
    change (total th0) with (length pdfs) in Hdone, Hlast.
    assert (Htot : total th' = length pdfs).
    { unfold total. rewrite Hb. reflexivity. }
    exists th', (length pdfs - pending th')%nat.
    split; [exact Hth'|]. split; [exact Htot|]. rewrite Htot.
    split; [lia|]. split; [lia|]. split; [exact Hprog|].
    split; [exact Hdone|].
    split.
    { intros Hfin. split; [|apply Hlast; [reflexivity|exact Hfin]].
      unfold finished, pending in *. destruct (pc th'); try discriminate.
      lia. }
    split.
    { intros Hcr. split.
      - unfold crashed in Hcr.
        destruct (pc th') as [| | | | |idx rest e] eqn:Hpc; try discriminate.
        destruct (Hcrash idx rest e eq_refl)
          as [H|[pdf [rest' [src' [-> _]]]]]; [discriminate|].
        unfold pending. rewrite Hpc. simpl.
        unfold pending in Hle. rewrite Hpc in Hle. simpl in Hle. lia.
      - intros Hkeep.
        destruct (thread_jobs L cs src sched sys tr sys' tid th0 Hkeep
                    ltac:(rewrite Hsess; exact Hsrc) Hth Hunder
                    ltac:(intros H; destruct H; reflexivity) eq_refl Hrun)
          as [th2 [d [Hth2 [_ [_ [_ [_ Hnc]]]]]]].
        rewrite Hth' in Hth2. injection Hth2 as <-. congruence. }
    intros Hdead Hq Hns.
    pose proof (single_batch L cs tid sched sys tr sys' Hns
                  (Hothers Hdead) Hrun) as Hone.
    pose proof (run_display L cs sched sys tr sys' Hns Hrun) as [Hshow _].
    rewrite Hq in Hfifo. simpl in Hfifo.
    assert (Hpre : progress_values (gets tr)
                   ++ progress_values (log_q (world sys'))
                   = seq 1 (length pdfs - pending th')).
    { rewrite <- progress_values_app, <- Hfifo, Hone. exact Hprog. }
    apply seq_prefix in Hpre as [Hgets HJ].
    remember (length (progress_values (gets tr))) as J eqn:EJ. clear EJ.
    exists J. split; [exact HJ|]. split; [exact Hgets|].
    rewrite Hshow, Hui, Hgets. apply last_seq_from_1. }
  exists src. split; [exact Hsrc|]. split; [exact Hgen|].
  intros Hdead Hq.
  set (n := moves_left th0).
  destruct (run L cs (repeat (ActWorker tid) n) sys) as [tr1 s1] eqn:Hr1.
  set (m := length (log_q (world s1))).
  destruct (run L cs (repeat ActGet m) s1) as [tr2 s2] eqn:Hr2.
  assert (Hrun : run L cs (repeat (ActWorker tid) n ++ repeat ActGet m) sys
                 = (tr1 ++ tr2, s2)).
  { rewrite run_app, Hr1, Hr2. reflexivity. }
  destruct (worker_finishes L cs tid n sys th0 Hth (Nat.le_refl _))
    as [th1 [Hth1 Hend]].
  rewrite Hr1 in Hth1. simpl in Hth1.
  destruct (foreground_drains L cs m s1 (Nat.le_refl _)) as [Hempty Hsame].
  rewrite Hr2 in Hempty, Hsame. simpl in Hempty, Hsame.
  assert (Hns : Forall no_start (repeat (ActWorker tid) n ++ repeat ActGet m)).
  { apply Forall_app. split; apply Forall_repeat; exact I. }
  assert (Hkeep : Forall (keeps_src src)
                         (repeat (ActWorker tid) n ++ repeat ActGet m)).
  { apply Forall_app. split; apply Forall_repeat; exact I. }
  destruct (Hgen _ _ _ Hrun)
    as [Hfifo [_ [th' [K [Hth' [Htot [HK [Hpend [Hprog [Hdone [Hfin [Hcr
         Hshow]]]]]]]]]]]].
  rewrite Hsame, Hth1 in Hth'. injection Hth' as <-. unfold pdfs in Htot.
  assert (Hf : finished th1 = true).
  { destruct (crashed th1) eqn:Hc;
      [destruct (Hcr eq_refl) as [_ []]; exact Hkeep|].
    unfold alive, finished, crashed in *. destruct (pc th1); congruence. }
  destruct (Hfin Hf) as [-> _].
  destruct (Hshow Hdead Hq Hns) as [J [HJ [Hgets HJshow]]].
  rewrite Hq, Hempty, app_nil_r in Hfifo. simpl in Hfifo.
  pose proof (single_batch L cs tid _ sys _ s2 Hns (Hothers Hdead) Hrun)
    as Hone.
  exists (repeat (ActWorker tid) n ++ repeat ActGet m), (tr1 ++ tr2), s2, th1.
  split; [exact Hrun|]. split; [rewrite Hsame; exact Hth1|].
  split; [unfold finished in Hf; destruct (pc th1); congruence|].
  split; [exact Hempty|]. split; [symmetry; exact Hfifo|].
  split.
  { rewrite HJshow, <- Htot. rewrite <- Hfifo, Hone, Hprog in Hgets.
    apply (f_equal (@length nat)) in Hgets. rewrite !length_seq in Hgets.
    lia. }
  pose proof (run_display L cs _ sys _ s2 Hns Hrun) as [_ [Hsum _]].
  rewrite Hsum, <- Hfifo, Hone, Hdone, Hf, Htot. reflexivity.
Qed.

(** C5, as amended. Under every interleaving of the worker threads, the
    foreground and the handlers: each call of the engine in the batch is
    bound to the keyword list current when the call starts, and runs with
    that very list whatever is rebound while it is in flight; a later call
    uses the list as rebound.  When nothing rebinds the list to another
    value during the run, every call uses the list the batch started
    with. *)
Theorem keyword_list_is_bound_per_call (cs : bool) (sys0 sys : Sys)
    (sched : list Action) (tr : list Label) (sys' : Sys) :
  _start cs sys0 = Started sys ->
  run L cs sched sys = (tr, sys') ->
  keywords_discipline (length (threads sys0)) (current_keywords sys0) None tr
  /\ (Forall (fun k => k = current_keywords sys0) (rebinds tr) ->
      Forall (fun k => k = current_keywords sys0)
             (lists_used (events_of (length (threads sys0)) tr))).
Proof.
  intros Hstart Hrun.
  destruct (started_thread cs sys0 sys Hstart)
    as [src [Hsrc [Hsess [Hworld [Hth [_ [_ [Hrefs _]]]]]]]].
  pose proof (run_keywords L cs _ sched sys tr sys' Hrefs Hrun) as Hd.
  assert (Hcur : current_keywords sys = current_keywords sys0)
    by (unfold current_keywords; rewrite Hsess; reflexivity).
  assert (Hfl : bound (length (threads sys0)) sys = None)
    by (unfold bound; rewrite Hth; reflexivity).
  rewrite Hcur, Hfl in Hd.
  split; [exact Hd|].
  intros Hre.
  eapply disciplined_same_list; [exact Hd|reflexivity| |exact Hre].
  intros ? ? [=].
Qed.

(** C1, as amended. When a step of the engine raises, the call still
    returns and has enqueued exactly one line, the failure line with the
    file's name and the error text.  What is on disk depends on the step:
    when opening, searching, annotating or [mkdir] raised, nothing at all
    has changed; when [save] raised, the directories are made and the tree
    is what the failing [save] left, and when [close] raised the output
    has been written: the handler removes nothing.  So no file is written
    only for a capability whose failing [save] writes nothing and whose
    [close] does not raise.  In every run of the application a worker that
    has returned has enqueued one line and one progress tuple for every
    discovered file, in order, and then the completion tuple with their
    number, whether calls failed or not; a worker dies only of the error of
    the destination computation, which is raised outside the call; it does
    not while the source folder is left alone, and then enough further
    moves let it return. *)
Theorem failure_is_logged_once_and_isolated (src dest : list (list N))
    (kws : list (list N)) (w : World) (e : list N) (w1 : World) :
  highlight_try L src dest kws w = Raised e w1 ->
  highlight_document L src dest kws w
  = Returned tt (mkWorld (fs w1) (log_q w ++ [Line (failure_line src e)]))
  /\ ((annotate_document L src kws w = Raised e w /\ w1 = w)
      \/ (exists doc hits,
             annotate_document L src kws w = Returned (doc, hits) w
             /\ mkdir_parents (parent dest) (fs w) = None
             /\ e = mkdir_error L (fs w) (parent dest) /\ w1 = w)
      \/ (exists doc hits t1,
             annotate_document L src kws w = Returned (doc, hits) w
             /\ mkdir_parents (parent dest) (fs w) = Some t1
             /\ save L doc dest 4 true t1 = (fs w1, Some e))
      \/ (exists doc hits t1,
             annotate_document L src kws w = Returned (doc, hits) w
             /\ mkdir_parents (parent dest) (fs w) = Some t1
             /\ save L doc dest 4 true t1 = (fs w1, None)
             /\ close L doc = Some e))
  /\ (failed_save_writes_nothing L -> close_never_raises L ->
      forall q, read_file (fs w1) q = read_file (fs w) q)
  /\ (forall cs sys0 sys sched tr sys',
         _start cs sys0 = Started sys ->
         run L cs sched sys = (tr, sys') ->
         exists th',
           threads sys' !! length (threads sys0) = Some th'
           /\ (finished th' = true ->
               exists lines,
                 Forall2 reports (batch th') lines
                 /\ puts_of (length (threads sys0)) tr
                    = batch_items 1 lines
                      ++ [Tagged DONE (length (batch th'))])
           /\ (forall idx rest e',
                  pc th' = Crashed idx rest e' ->
                  exists pdf rest' src',
                    rest = pdf :: rest'
                    /\ dest_path_of (thr_dest_base th') src' pdf = inl e')
           /\ (forall src0,
                  src_folder (self (session sys0)) = Some src0 ->
                  batch th' = walk_pdfs cs (fs (world sys0)) src0
                  /\ (Forall (keeps_src src0) sched ->
                      crashed th' = false
                      /\ exists th'',
                          threads
                            (snd (run L cs
                                    (sched
                                     ++ repeat
                                          (ActWorker (length (threads sys0)))
                                          (moves_left th'))
                                    sys))
                          !! length (threads sys0) = Some th''
                          /\ finished th'' = true))).
Proof.
  intros Hraise.
  pose proof (highlight_try_end L src dest kws w) as Hend.
  rewrite Hraise in Hend.
  split; [|split; [|split]].
  - unfold highlight_document, try_except, bind. rewrite Hraise.
    inversion Hend; subst; reflexivity.
  - inversion Hend
      as [e' Ha | doc hits Ha Hm | doc hits t1 t2 e' Ha Hm Hs
          | doc hits t1 t2 e' Ha Hm Hs Hc | ]; subst.
    + left. split; [exact Ha|reflexivity].
    + right. left. exists doc, hits. repeat split; assumption.
    + right. right. left. exists doc, hits, t1. repeat split; assumption.
    + right. right. right. exists doc, hits, t1. repeat split; assumption.
  - intros Hsave Hclose.
    inversion Hend
      as [e' Ha | doc hits Ha Hm | doc hits t1 t2 e' Ha Hm Hs
          | doc hits t1 t2 e' Ha Hm Hs Hc | ];
      subst; simpl; try reflexivity.
    + intros q. rewrite (Hsave _ _ _ _ _ _ _ Hs q).
      eapply mkdir_parents_keeps_files; eassumption.
    + rewrite Hclose in Hc. discriminate.
  - intros cs sys0 sys sched tr sys' Hstart Hrun.
    destruct (started_thread cs sys0 sys Hstart)
      as [src0 [Hsrc [Hsess [Hworld [Hth [_ [Hunder _]]]]]]].
    set (tid := length (threads sys0)) in *.
    set (th0 := mkThread (walk_pdfs cs (fs (world sys0)) src0) None AtEntry)
      in *.
    destruct (thread_output L cs sched sys tr sys' tid th0 Hth Hrun)
      as [th' [Hth' Hout]].
    destruct (thread_crash L cs sched sys tr sys' tid th0 Hth Hrun)
      as [th2 [Hth2 Hcrash]].
    rewrite Hth' in Hth2. injection Hth2 as <-.
    destruct (thread_progress L cs sched sys tr sys' tid th0 Hth Hrun)
      as [th2 [Hth2 [Hb _]]].
    rewrite Hth' in Hth2. injection Hth2 as <-.
    exists th'. split; [exact Hth'|]. split; [|split].
    + intros Hfin. destruct (Hout Hfin) as [lines [Hall Hitems]].
      exists lines. rewrite Hb. split; [exact Hall|exact Hitems].
    + intros idx rest e' Hpc.
      destruct (Hcrash idx rest e' Hpc) as [H|H]; [discriminate|exact H].
    + intros src1 Hsrc1. rewrite Hsrc in Hsrc1. injection Hsrc1 as <-.
      split; [exact Hb|]. intros Hkeep.
      destruct (thread_jobs L cs src0 sched sys tr sys' tid th0 Hkeep
                  ltac:(rewrite Hsess; exact Hsrc) Hth Hunder
                  ltac:(intros H; destruct H; reflexivity) eq_refl Hrun)
        as [th2 [d [Hth2 [_ [_ [_ [_ Hnc]]]]]]].
      rewrite Hth' in Hth2. injection Hth2 as <-.
      split; [exact Hnc|].
      set (more := repeat (ActWorker tid) (moves_left th')).
      assert (Hall : run L cs (sched ++ more) sys
                     = (tr ++ fst (run L cs more sys'),
                        snd (run L cs more sys'))).
      { rewrite run_app, Hrun. destruct (run L cs more sys'). reflexivity. }
      destruct (worker_finishes L cs tid (moves_left th') sys' th' Hth'
                  (Nat.le_refl _)) as [th'' [Hth'' Hend']].
      fold more in Hth''.
      assert (Hkeep' : Forall (keeps_src src0) (sched ++ more)).
      { apply Forall_app. split; [exact Hkeep|].
        apply Forall_repeat. exact I. }
      destruct (thread_jobs L cs src0 (sched ++ more) sys _ _ tid th0 Hkeep'
                  ltac:(rewrite Hsess; exact Hsrc) Hth Hunder
                  ltac:(intros H; destruct H; reflexivity) eq_refl Hall)
        as [th3 [d3 [Hth3 [_ [_ [_ [_ Hnc3]]]]]]].
      rewrite Hth'' in Hth3. injection Hth3 as <-.
      exists th''. rewrite Hall. split; [exact Hth''|].
      unfold alive, finished, crashed in *. destruct (pc th''); congruence.
Qed.

End BatchClaims.

(** ** The sample capability, and runs on the sample folder *)

Section SampleFacts.

Lemma toy_annotations_keep_text : annotations_keep_text Toy.lib.
Proof.
  split; [|split].
  - intros d i r d' a [= <- _] j kw q h f. reflexivity.
  - intros d a c d' [= <-] j kw q h f. reflexivity.
  - intros d a d' [= <-] j kw q h f. reflexivity.
Qed.

Lemma sample_start_eq : _start true Toy.sample_app = Started Toy.sample_sys.
Proof. vm_compute. reflexivity. Qed.

Lemma twin_start_eq : _start true Toy.twin_app = Started Toy.twin_sys.
Proof. vm_compute. reflexivity. Qed.

Lemma full_disk_contracts :
  failed_save_writes_nothing Toy.full_disk_lib
  /\ close_never_raises Toy.full_disk_lib.
Proof.
  split.
  - intros d p g z t t' e [= <- _] q. reflexivity.
  - intros d. reflexivity.
Qed.

Lemma failure_is_logged_once_and_isolated_witness :
  exists t,
    highlight_document Toy.full_disk_lib [py "docs"; py "a.pdf"]
                       [py "out"; py "a.pdf"] [py "safe"] Toy.sample_world
    = Returned tt
        (mkWorld t
           [Line (failure_line [py "docs"; py "a.pdf"] (py "disk full"))])
    /\ is_dir t [py "out"] = true
    /\ forall q, read_file t q = read_file Toy.sample_fs q.
Proof.
  destruct (failure_is_logged_once_and_isolated
              Toy.full_disk_lib [py "docs"; py "a.pdf"]
              [py "out"; py "a.pdf"] [py "safe"] Toy.sample_world
              (py "disk full")
              (mkWorld
                 (Dir [(py "docs",
                        Dir [(py "a.pdf", File (py "%PDFFail-Safe plan"));
                             (py "b.pdf", File (py "not a pdf"));
                             (py "sub",
                              Dir [(py "c.pdf",
                                    File (py "%PDFsafe and SAFE"))])]);
                       (py "out", Dir [])])
                 [])
              ltac:(vm_compute; reflexivity))
    as [Hline [_ [Hfiles _]]].
  eexists. split; [exact Hline|]. split; [reflexivity|].
  exact (Hfiles (proj1 full_disk_contracts) (proj2 full_disk_contracts)).
Defined.

(** C1, as stated, fails: on a disk that fills up while the output is
    being written, [save] raises after it has written the beginning of the
    file; the call logs its failure line and the torn output stays. *)
Lemma failed_call_may_leave_partial_output :
  ~ (forall (L : PdfLib) (src dest : list (list N)) (kws : list (list N))
            (w : World) (e : list N) (w1 : World),
        highlight_try L src dest kws w = Raised e w1 ->
        highlight_document L src dest kws w
        = Returned tt
            (mkWorld (fs w1) (log_q w ++ [Line (failure_line src e)]))
        /\ forall q, read_file (fs w1) q = read_file (fs w) q).
Proof.
  intros H.
  destruct (H Toy.filling_disk_lib [py "docs"; py "a.pdf"]
              [py "out"; py "a.pdf"] [py "safe"] Toy.sample_world
              (py "disk full")
              (mkWorld
                 (Dir [(py "docs",
                        Dir [(py "a.pdf", File (py "%PDFFail-Safe plan"));
                             (py "b.pdf", File (py "not a pdf"));
                             (py "sub",
                              Dir [(py "c.pdf",
                                    File (py "%PDFsafe and SAFE"))])]);
                       (py "out", Dir [(py "a.pdf", File (py "%PD"))])])
                 [])
              ltac:(vm_compute; reflexivity)) as [_ Hq].
  specialize (Hq [py "out"; py "a.pdf"]). vm_compute in Hq. discriminate Hq.
Qed.

Lemma hit_count_is_sum_of_matched_regions_witness :
  exists w',
    highlight_try Toy.lib [py "docs"; py "sub"; py "c.pdf"]
                  [py "out"; py "sub"; py "c.pdf"] [py "safe"]
                  Toy.sample_world
    = Returned 2%nat w'
    /\ exists doc0 doc1,
        fitz_open Toy.lib Toy.sample_fs [py "docs"; py "sub"; py "c.pdf"]
        = inr doc0
        /\ 2%nat = spec_hit_count Toy.lib doc0 [py "safe"]
        /\ highlight_regions Toy.lib doc0
             (spec_matches Toy.lib doc0 [py "safe"])
           = inr doc1
        /\ Toy.marks doc1 = [(0%nat, 0%nat); (0%nat, 9%nat)]
        /\ read_file (fs w') [py "out"; py "sub"; py "c.pdf"]
           = Some (Toy.render doc1).
Proof.
  eexists. split; [vm_compute; reflexivity|].
  destruct (hit_count_is_sum_of_matched_regions
              Toy.lib [py "docs"; py "sub"; py "c.pdf"]
              [py "out"; py "sub"; py "c.pdf"] [py "safe"]
              Toy.sample_world 2%nat _ toy_annotations_keep_text
              ltac:(vm_compute; reflexivity))
    as [doc0 [doc1 [t1 [Ho [_ [Hh [_ [Hann [_ [Hsave _]]]]]]]]]].
  exists doc0, doc1. split; [exact Ho|]. split; [exact Hh|].
  split; [exact Hann|].
  injection Ho as <-. vm_compute in Hann. injection Hann as <-.
  split; reflexivity.
Defined.

Lemma parents_exist_before_save_witness :
  is_dir Toy.sample_fs [py "out"] = false
  /\ exists t,
      highlight_document Toy.lib [py "docs"; py "sub"; py "c.pdf"]
                         [py "out"; py "sub"; py "c.pdf"] [py "safe"]
                         Toy.sample_world
      = Returned tt
          (mkWorld t
             [Line (success_line [py "docs"; py "sub"; py "c.pdf"] 2)])
      /\ is_dir t [py "out"] = true
      /\ is_dir t [py "out"; py "sub"] = true
      /\ is_file t [py "out"; py "sub"; py "c.pdf"] = true.
Proof.
  split; [reflexivity|].
  destruct (proj1 (parents_exist_before_save
                     Toy.lib [py "docs"; py "sub"; py "c.pdf"]
                     [py "out"; py "sub"; py "c.pdf"] [py "safe"]
                     Toy.sample_world
                     (Toy.mkDoc [py "safe and SAFE"]
                                [(0%nat, 0%nat); (0%nat, 9%nat)])
                     2%nat
                     ltac:(vm_compute; reflexivity))
                  ltac:(intros [|[|[|k]]]; reflexivity))
    as [t1 [Hm [Hdirs [_ [_ [_ Hrun]]]]]].
  eexists. split; [rewrite Hrun; vm_compute in Hm; injection Hm as <-;
                   vm_compute; reflexivity|].
  split; [reflexivity|]. split; reflexivity.
Defined.

Lemma dest_paths_mirror_and_are_distinct_witness :
  jobs (events_of 0 (fst (run Toy.lib true (repeat (ActWorker 0) 11)
                              Toy.sample_sys)))
  = [([py "docs"; py "a.pdf"], [py "out"; py "a.pdf"]);
     ([py "docs"; py "b.pdf"], [py "out"; py "b.pdf"]);
     ([py "docs"; py "sub"; py "c.pdf"], [py "out"; py "sub"; py "c.pdf"])]
  /\ NoDup (map snd
              (jobs (events_of 0
                       (fst (run Toy.lib true (repeat (ActWorker 0) 11)
                                 Toy.sample_sys))))).
Proof.
  split; [vm_compute; reflexivity|].
  destruct (dest_paths_mirror_and_are_distinct
              Toy.lib true Toy.sample_app Toy.sample_sys Toy.docs
              (repeat (ActWorker 0) 11) _ _ sample_start_eq eq_refl
              ltac:(repeat constructor) (surjective_pairing _))
    as [th' [d [_ [_ [_ [_ [_ [_ Hnd]]]]]]]].
  eapply Hnd; reflexivity.
Defined.

(** C3, as stated, fails: when the source folder is changed to a
    subfolder after the first file of a batch that annotates in place, the
    second file, another input, gets the destination of the first. *)
Lemma dest_paths_collide_when_source_changes :
  ~ (forall (L : PdfLib) (cs : bool) (sys0 sys : Sys) (sched : list Action)
            (tr : list Label) (sys' : Sys)
            (j1 j2 : list (list N) * list (list N)),
        _start cs sys0 = Started sys ->
        run L cs sched sys = (tr, sys') ->
        In j1 (jobs (events_of (length (threads sys0)) tr)) ->
        In j2 (jobs (events_of (length (threads sys0)) tr)) ->
        fst j1 <> fst j2 -> snd j1 <> snd j2).
Proof.
  intros H.
  apply (H Toy.lib true Toy.twin_app Toy.twin_sys Toy.source_narrowed _ _
           ([py "docs"; py "c.pdf"], [py "docs"; py "c.pdf"])
           ([py "docs"; py "sub"; py "c.pdf"], [py "docs"; py "c.pdf"])
           twin_start_eq (surjective_pairing _)).
  - vm_compute. left. reflexivity.
  - vm_compute. right. left. reflexivity.
  - discriminate.
  - reflexivity.
Qed.

Lemma progress_events_in_fifo_order_witness :
  exists sched tr sys' th',
    run Toy.lib true sched Toy.sample_sys = (tr, sys')
    /\ threads sys' !! 0%nat = Some th'
    /\ pc th' = Finished
    /\ progress_value (ui sys') = 3%nat.
Proof.
  destruct (progress_events_in_fifo_order
              Toy.lib true Toy.sample_app Toy.sample_sys sample_start_eq)
    as [src [Hsrc [_ Hex]]].
  injection Hsrc as <-.
  destruct (Hex ltac:(constructor) eq_refl)
    as [sched [tr [sys' [th' [Hrun [Hth [Hpc [_ [_ [Hshow _]]]]]]]]]].
  exists sched, tr, sys', th'. split; [exact Hrun|]. split; [exact Hth|].
  split; [exact Hpc|exact Hshow].
Defined.

(** C4, as stated, fails: when the source folder is changed to another
    folder after the first file, the worker dies in the next loop turn; the
    batch has ended with one progress tuple and no completion tuple. *)
Lemma batch_may_end_without_completion :
  ~ (forall (L : PdfLib) (cs : bool) (sys0 sys : Sys) (sched : list Action)
            (tr : list Label) (sys' : Sys) (th' : Thread),
        _start cs sys0 = Started sys ->
        run L cs sched sys = (tr, sys') ->
        threads sys' !! length (threads sys0) = Some th' ->
        alive th' = false ->
        done_values (puts_of (length (threads sys0)) tr) = [total th']).
Proof.
  intros H.
  specialize (H Toy.lib true Toy.sample_app Toy.sample_sys Toy.source_changed
                _ _ _ sample_start_eq (surjective_pairing _)
                ltac:(vm_compute; reflexivity) ltac:(vm_compute; reflexivity)).
  vm_compute in H. discriminate H.
Qed.

Lemma keyword_list_is_bound_per_call_witness :
  lists_used (events_of 0 (fst (run Toy.lib true Toy.edit_in_flight
                                    Toy.sample_sys)))
  = [[py "safe"]]
  /\ keywords_discipline 0 [py "safe"] None
       (fst (run Toy.lib true Toy.edit_in_flight Toy.sample_sys)).
Proof.
  split; [vm_compute; reflexivity|].
  exact (proj1 (keyword_list_is_bound_per_call
                  Toy.lib true Toy.sample_app Toy.sample_sys
                  Toy.edit_in_flight _ _ sample_start_eq
                  (surjective_pairing _))).
Defined.

(** C5, as stated, fails: when the list is edited after the first file,
    the second call runs with the edited list, not with the list the batch
    started with. *)
Lemma keyword_list_not_frozen_at_start :
  ~ (forall (L : PdfLib) (cs : bool) (sys0 sys : Sys) (sched : list Action)
            (tr : list Label) (sys' : Sys),
        _start cs sys0 = Started sys ->
        run L cs sched sys = (tr, sys') ->
        Forall (fun k => k = current_keywords sys0)
               (lists_used (events_of (length (threads sys0)) tr))).
Proof.
  intros H.
  specialize (H Toy.lib true Toy.sample_app Toy.sample_sys
                Toy.edit_between_jobs _ _ sample_start_eq
                (surjective_pairing _)).
  vm_compute in H.
  apply Forall_cons in H as [_ H]. apply Forall_cons in H as [H _].
  discriminate H.
Qed.

End SampleFacts.

(* ===================================================================== *)
(** * Further properties *)
(* ===================================================================== *)

Import Handlers.

(** ** Keyword lists: what they never contain, and round trips *)

Section KeywordRoundTrips.

Lemma lstrip_start (s : list N) : starts_ws s = false -> lstrip s = s.
Proof.
  destruct s as [|c s]; simpl; [reflexivity|]. intros ->. reflexivity.
Qed.

Lemma strip_keyword (k : list N) : is_keyword k -> strip k = k.
Proof.
  intros [_ [Hs He]]. unfold strip, rstrip.
  rewrite (lstrip_start k Hs). unfold ends_ws in He.
  rewrite (lstrip_start (rev k) He). apply rev_involutive.
Qed.

Lemma stripped_nonempty_keywords_id (kws : list (list N)) :
  Forall is_keyword kws -> stripped_nonempty kws = kws.
Proof.
  induction 1 as [|k kws Hk _ IH]; simpl; [reflexivity|].
  rewrite (strip_keyword k Hk), IH.
  destruct Hk as [Hne _]. destruct k; [congruence|reflexivity].
Qed.

Lemma lstrip_suffix (P : N -> Prop) (s : list N) :
  Forall P s -> Forall P (lstrip s).
Proof.
  induction 1 as [|c s Hc Hs IH]; simpl; [constructor|].
  destruct (isspace c); [exact IH|constructor; assumption].
Qed.

Lemma strip_keeps (P : N -> Prop) (s : list N) :
  Forall P s -> Forall P (strip s).
Proof.
  intros H. unfold strip, rstrip.
  apply Forall_rev, lstrip_suffix, Forall_rev, lstrip_suffix, H.
Qed.

Lemma stripped_nonempty_keeps (P : N -> Prop) (xs : list (list N)) :
  Forall (Forall P) xs -> Forall (Forall P) (stripped_nonempty xs).
Proof.
  induction 1 as [|x xs Hx _ IH]; simpl; [constructor|].
  destruct (truthy (strip x)); [|exact IH].
  constructor; [apply strip_keeps, Hx|exact IH].
Qed.

Lemma lines_of_no_break (s : list N) (ls : list (list N)) :
  lines_of s ls -> Forall no_break ls.
Proof.
  induction 1; constructor; try assumption. constructor.
Qed.

(** Scanning a piece without line breaks only extends the current line. *)
Lemma splitlines_from_piece (k : list N) :
  no_break k ->
  forall line s,
    splitlines_from line (k ++ s) = splitlines_from (line ++ k) s.
Proof.
  induction 1 as [|c k Hc _ IH]; intros line s; simpl.
  - rewrite app_nil_r. reflexivity.
  - rewrite Hc, IH, <- app_assoc. reflexivity.
Qed.

Lemma splitlines_from_LF (line s : list N) :
  splitlines_from line (LF :: s) = line :: splitlines_from [] s.
Proof. destruct s; reflexivity. Qed.

Lemma splitlines_join (kws : list (list N)) :
  Forall (fun k => k <> [] /\ no_break k) kws ->
  splitlines (join [LF] kws) = kws.
Proof.
  unfold splitlines.
  induction 1 as [|k kws [Hne Hk] Hrest IH]; [reflexivity|].
  simpl. destruct kws as [|k2 kws].
  - rewrite <- (app_nil_r k) at 1.
    rewrite splitlines_from_piece by exact Hk.
    simpl. destruct k; [congruence|reflexivity].
  - rewrite splitlines_from_piece by exact Hk.
    change ([LF] ++ join [LF] (k2 :: kws)) with (LF :: join [LF] (k2 :: kws)).
    rewrite splitlines_from_LF, IH. reflexivity.
Qed.

(** X1. Writing keywords one per line and loading the text gives the
    keywords back, provided each is a keyword (non-empty, trimmed) without
    a line-break character. *)
Theorem load_keywords_round_trip (kws : list (list N)) :
  Forall is_keyword kws ->
  Forall no_break kws ->
  load_keywords_from_text (join [LF] kws) = kws.
Proof.
  intros Hk Hb. unfold load_keywords_from_text.
  rewrite splitlines_join.
  - apply stripped_nonempty_keywords_id, Hk.
  - rewrite Forall_forall in Hk, Hb. apply Forall_forall. intros k Hin.
    split; [apply (Hk k Hin)|apply (Hb k Hin)].
Qed.

Lemma load_keywords_round_trip_witness :
  load_keywords_from_text (join [LF] [py "fail safe"; py "plan"])
  = [py "fail safe"; py "plan"].
Proof.
  apply load_keywords_round_trip.
  - repeat constructor; discriminate.
  - repeat constructor.
Defined.

(** Scanning a piece without the separator only extends the current
    piece. *)
Lemma split_from_piece (sep : N) (k : list N) :
  Forall (fun c => c <> sep) k ->
  forall piece s,
    split_from sep piece (k ++ s) = split_from sep (piece ++ k) s.
Proof.
  induction 1 as [|c k Hc _ IH]; intros piece s; simpl.
  - rewrite app_nil_r. reflexivity.
  - apply N.eqb_neq in Hc. rewrite Hc, IH, <- app_assoc. reflexivity.
Qed.

Lemma split_from_sep (sep : N) (piece s : list N) :
  split_from sep piece (sep :: s) = piece :: split_from sep [] s.
Proof. simpl. rewrite N.eqb_refl. reflexivity. Qed.

Lemma split_from_other (sep c : N) (piece s : list N) :
  c <> sep -> split_from sep piece (c :: s) = split_from sep (piece ++ [c]) s.
Proof. intros H. apply N.eqb_neq in H. simpl. rewrite H. reflexivity. Qed.

Lemma split_join_comma_space (kws : list (list N)) :
  Forall (Forall (fun c => c <> COMMA)) kws ->
  forall k piece,
    Forall (fun c => c <> COMMA) k ->
    split_from COMMA piece (join [COMMA; SPACE] (k :: kws))
    = (piece ++ k) :: map (cons SPACE) kws.
Proof.
  induction 1 as [|k2 kws Hk2 _ IH]; intros k piece Hk.
  - simpl. rewrite <- (app_nil_r k) at 1.
    rewrite split_from_piece by exact Hk. reflexivity.
  - change (join [COMMA; SPACE] (k :: k2 :: kws))
      with (k ++ COMMA :: SPACE :: join [COMMA; SPACE] (k2 :: kws)).
    rewrite split_from_piece by exact Hk.
    rewrite split_from_sep, split_from_other by discriminate.
    rewrite (IH k2 ([] ++ [SPACE]) Hk2). reflexivity.
Qed.

Lemma stripped_nonempty_spaced (kws : list (list N)) :
  Forall is_keyword kws ->
  stripped_nonempty (map (cons SPACE) kws) = kws.
Proof.
  induction 1 as [|k kws Hk _ IH]; simpl; [reflexivity|].
  change (strip (SPACE :: k)) with (strip k).
  rewrite (strip_keyword k Hk), IH.
  destruct Hk as [Hne _]. destruct k; [congruence|reflexivity].
Qed.

Lemma parse_keywords_no_comma (result : list N) :
  Forall (Forall (fun c => c <> COMMA)) (parse_keywords result).
Proof.
  apply stripped_nonempty_keeps, split_from_pieces. constructor.
Qed.

(** X2. Confirming the edit dialog without touching its text leaves a
    list of keywords as it is exactly when no keyword contains a comma: a
    keyword with a comma (one line of a keyword file may have one) is cut
    at it. *)
Theorem edit_unchanged_round_trip (kws : list (list N)) :
  Forall is_keyword kws ->
  parse_keywords (edit_initial_value kws) = kws
  <-> Forall (Forall (fun c => c <> COMMA)) kws.
Proof.
  intros Hk. split.
  - intros <-. apply parse_keywords_no_comma.
  - intros Hc. unfold edit_initial_value, parse_keywords, split.
    destruct kws as [|k kws]; [reflexivity|]. simpl truthy_list. cbv iota.
    apply Forall_cons in Hc as [Hc1 Hc]. apply Forall_cons in Hk as [Hk1 Hk].
    rewrite (split_join_comma_space kws Hc k [] Hc1). simpl.
    rewrite (strip_keyword k Hk1), (stripped_nonempty_spaced kws Hk).
    destruct Hk1 as [Hne _]. destruct k; [congruence|reflexivity].
Qed.

Lemma edit_unchanged_round_trip_witness :
  parse_keywords (edit_initial_value [py "fail safe"; py "plan"])
  = [py "fail safe"; py "plan"]
  /\ parse_keywords (edit_initial_value [py "a,b"]) = [py "a"; py "b"].
Proof.
  split; [|reflexivity].
  apply (edit_unchanged_round_trip [py "fail safe"; py "plan"]).
  - repeat constructor; discriminate.
  - repeat constructor; discriminate.
Defined.

(** X3. A keyword loaded from a file never contains a line-break
    character, and a keyword entered in the edit dialog never contains a
    comma. *)
Theorem keywords_never_contain_separator (text : list N) :
  Forall no_break (load_keywords_from_text text)
  /\ Forall (Forall (fun c => c <> COMMA)) (parse_keywords text).
Proof.
  split; [|apply parse_keywords_no_comma].
  apply stripped_nonempty_keeps.
  apply (lines_of_no_break text), splitlines_spec.
Qed.

End KeywordRoundTrips.

(** ** The engine: one line per call, what is left behind on failure *)

Section EngineExtras.
Context (L : PdfLib).
Local Open Scope engine_scope.

(** X4. Every call of [highlight_document] returns and has enqueued
    exactly one line after what was queued: the success line with the hit
    count when the [try] block returned, the failure line with the error
    text when it raised; the file system is the one the [try] block left. *)
Theorem every_call_logs_exactly_one_line (src dest : list (list N))
    (kws : list (list N)) (w : World) :
  exists t line,
    highlight_document L src dest kws w
    = Returned tt (mkWorld t (log_q w ++ [Line line]))
    /\ (forall hits w',
           highlight_try L src dest kws w = Returned hits w' ->
           line = success_line src hits /\ t = fs w')
    /\ (forall e w',
           highlight_try L src dest kws w = Raised e w' ->
           line = failure_line src e /\ t = fs w').
Proof.
  unfold highlight_document, try_except, bind.
  destruct (highlight_try_end L src dest kws w); simpl;
    eexists; eexists; (split; [reflexivity|]);
    (split; intros x w' Heq); inversion Heq; subst; split; reflexivity.
Qed.

Lemma no_keywords_pages (pages : list nat) (st : Doc L * nat) (w : World) :
  for_each pages (search_page L []) st w = Returned st w.
Proof.
  induction pages as [|i pages IH]; simpl; [reflexivity|].
  unfold bind. simpl. exact IH.
Qed.

(** X5. With an empty keyword list, or a document without pages, no
    search is made: the document is the opened one, the hit count is 0,
    and when [mkdir], [save] and [close] succeed the success line reports
    0 hits for the opened document saved as it is. *)
Theorem nothing_to_search (src dest : list (list N)) (kws : list (list N))
    (w : World) (doc0 : Doc L) :
  fitz_open L (fs w) src = inr doc0 ->
  kws = [] \/ page_count L doc0 = 0%nat ->
  annotate_document L src kws w = Returned (doc0, 0%nat) w
  /\ forall t1 t2,
      mkdir_parents (parent dest) (fs w) = Some t1 ->
      save L doc0 dest 4 true t1 = (t2, None) ->
      close L doc0 = None ->
      highlight_document L src dest kws w
      = Returned tt (mkWorld t2 (log_q w ++ [Line (success_line src 0)])).
Proof.
  intros Ho Hnone.
  assert (Ha : annotate_document L src kws w = Returned (doc0, 0%nat) w).
  { unfold annotate_document, bind, get_fs. rewrite Ho. simpl.
    destruct Hnone as [-> | ->]; [apply no_keywords_pages|reflexivity]. }
  split; [exact Ha|].
  intros t1 t2 Hm Hs Hc.
  unfold highlight_document, try_except, highlight_try, bind.
  rewrite Ha. unfold mkdir. rewrite Hm. unfold doc_save. simpl.
  rewrite Hs. unfold doc_close. rewrite Hc. reflexivity.
Qed.

(** X6. When opening, searching or annotating raises, or [mkdir] finds a
    regular file in the way, the file system is left exactly as it was:
    not even a directory has been created. *)
Theorem failure_before_save_changes_nothing (src dest : list (list N))
    (kws : list (list N)) (w : World) (e : list N) :
  (exists w1, annotate_document L src kws w = Raised e w1)
  \/ (exists doc hits,
         annotate_document L src kws w = Returned (doc, hits) w
         /\ mkdir_parents (parent dest) (fs w) = None
         /\ e = mkdir_error L (fs w) (parent dest)) ->
  highlight_document L src dest kws w
  = Returned tt (mkWorld (fs w) (log_q w ++ [Line (failure_line src e)])).
Proof.
  unfold highlight_document, try_except, highlight_try, bind.
  intros [[w1 Ha]|[doc [hits [Ha [Hm ->]]]]].
  - pose proof (readonly_annotate_document L src kws w) as Hro.
    rewrite Ha in Hro. subst w1. rewrite Ha. reflexivity.
  - rewrite Ha. unfold mkdir. rewrite Hm. reflexivity.
Qed.

(** X7. When [save] raises, the directories [mkdir] created for the
    destination are not removed: if the failing [save] left the tree as it
    found it, every directory on the way to the destination's parent
    exists afterwards, although no file was written. *)
Theorem failed_save_leaves_directories (src dest : list (list N))
    (kws : list (list N)) (w : World) (doc : Doc L) (hits : nat)
    (t1 : node) (e : list N) :
  annotate_document L src kws w = Returned (doc, hits) w ->
  mkdir_parents (parent dest) (fs w) = Some t1 ->
  save L doc dest 4 true t1 = (t1, Some e) ->
  highlight_document L src dest kws w
  = Returned tt (mkWorld t1 (log_q w ++ [Line (failure_line src e)]))
  /\ (forall k, is_dir t1 (take k (parent dest)) = true)
  /\ (forall q, read_file t1 q = read_file (fs w) q).
Proof.
  intros Ha Hm Hs. split; [|split].
  - unfold highlight_document, try_except, highlight_try, bind.
    rewrite Ha. unfold mkdir. rewrite Hm. unfold doc_save. simpl.
    rewrite Hs. reflexivity.
  - apply chain_exists_prefixes. eapply mkdir_parents_chain. exact Hm.
  - eapply mkdir_parents_keeps_files. exact Hm.
Qed.

End EngineExtras.

Section EngineExtraSamples.

Lemma nothing_to_search_witness :
  exists doc0,
    fitz_open Toy.lib Toy.sample_fs [py "docs"; py "a.pdf"] = inr doc0
    /\ annotate_document Toy.lib [py "docs"; py "a.pdf"] [] Toy.sample_world
       = Returned (doc0, 0%nat) Toy.sample_world.
Proof.
  eexists. split; [reflexivity|].
  exact (proj1 (nothing_to_search Toy.lib [py "docs"; py "a.pdf"]
                  [py "out"; py "a.pdf"] [] Toy.sample_world _ eq_refl
                  (or_introl eq_refl))).
Defined.

Lemma failure_before_save_changes_nothing_witness :
  highlight_document Toy.lib [py "docs"; py "b.pdf"] [py "out"; py "b.pdf"]
                     [py "safe"] Toy.sample_world
  = Returned tt
      (mkWorld Toy.sample_fs
         [Line (failure_line [py "docs"; py "b.pdf"]
                             (py "cannot open broken document"))]).
Proof.
  apply (failure_before_save_changes_nothing
           Toy.lib [py "docs"; py "b.pdf"] [py "out"; py "b.pdf"]
           [py "safe"] Toy.sample_world).
  left. exists Toy.sample_world. vm_compute. reflexivity.
Defined.

End EngineExtraSamples.

(** ** Directories and discovery *)

Section MkdirExtras.

(** X8. [mkdir(parents=True, exist_ok=True)] raises exactly when a
    regular file lies on the way (the path itself included); otherwise it
    succeeds, keeps every file and every directory there was, and doing it
    again changes nothing. *)
Theorem mkdir_fails_only_on_files (p : list (list N)) (t : node) :
  (mkdir_parents p t = None
   <-> exists k, is_file t (take k p) = true)
  /\ forall t',
      mkdir_parents p t = Some t' ->
      (forall q, read_file t' q = read_file t q)
      /\ (forall q, is_dir t q = true -> is_dir t' q = true)
      /\ mkdir_parents p t' = Some t'.
Proof.
  split; [apply mkdir_parents_None_iff|].
  intros t' Hm. split; [eapply mkdir_parents_keeps_files; exact Hm|].
  split; [eapply mkdir_parents_keeps_dirs; exact Hm|].
  eapply mkdir_parents_again; exact Hm.
Qed.

End MkdirExtras.

Section WalkExtras.

(** X9. On a file system whose directories have unique entry names,
    discovery lists no file twice and every listed path lies strictly
    below the folder. *)
Theorem walk_pdfs_lists_each_file_once (cs : bool) (fs : node)
    (folder : list (list N)) (t : node) :
  resolve fs folder = Some t ->
  unique_names t = true ->
  NoDup (walk_pdfs cs fs folder)
  /\ Forall (fun p => take (length folder) p = folder
                      /\ (length folder < length p)%nat)
            (walk_pdfs cs fs folder).
Proof.
  intros Hres Hu. split; [eapply walk_pdfs_NoDup; eassumption|].
  unfold walk_pdfs, rglob. rewrite Hres.
  - apply Forall_forall. intros p Hp.
    apply list_elem_of_In, filter_In in Hp as [Hp _].
    split; [eapply rglob_tree_prefix|eapply rglob_tree_longer]; exact Hp.
Qed.

Lemma walk_pdfs_lists_each_file_once_witness :
  NoDup (walk_pdfs true Toy.sample_fs Toy.docs).
Proof.
  refine (proj1 (walk_pdfs_lists_each_file_once
                   true Toy.sample_fs Toy.docs _ _ _));
    vm_compute; reflexivity.
Defined.

End WalkExtras.

(** ** The batch driver and the handlers *)

Section BatchExtras.
Context (L : PdfLib).

(** X10. In a batch over the files discovered under the source folder
    (directories with unique entry names), every file has a destination,
    the destination has the file's name, in mirror mode it is the
    destination base joined with the file's path relative to the source,
    and no two files of the batch have the same destination. *)
Theorem batch_destinations_are_distinct (s : Self) (src : list (list N))
    (cs : bool) (fs : node) (t : node) :
  src_folder s = Some src ->
  resolve fs src = Some t ->
  unique_names t = true ->
  exists dests,
    Forall2 (fun pdf d =>
               dest_path_of (dest_base_of s) (Some src) pdf = inr d
               /\ name d = name pdf
               /\ exists rel,
                   pdf = src ++ rel
                   /\ (dest_base_of s <> Some src ->
                       exists base, dest_base_of s = Some base
                                    /\ d = base ++ rel))
            (walk_pdfs cs fs src) dests
    /\ NoDup dests.
Proof.
  intros Hsrc Hres Hu.
  pose proof (walk_pdfs_NoDup cs fs src t Hres Hu) as Hnd.
  assert (Hunder : Forall (fun p => exists rel, rel <> [] /\ p = src ++ rel)
                          (walk_pdfs cs fs src)).
  { apply Forall_forall. intros p Hp.
    apply list_elem_of_In, walk_pdfs_iff in Hp as [_ [rel [Hne [-> _]]]].
    exists rel. split; [exact Hne|reflexivity]. }
  set (d0 := match dest_folder s with Some d => d | None => src end).
  assert (Hdb : dest_base_of s = Some d0).
  { unfold dest_base_of, d0. rewrite Hsrc. destruct (dest_folder s);
      reflexivity. }
  rewrite Hdb. clear Hres Hu.
  induction (walk_pdfs cs fs src) as [|pdf pdfs IH].
  - exists []. split; constructor.
  - apply NoDup_cons in Hnd as [Hnotin Hnd].
    apply Forall_cons in Hunder as [[rel [Hne ->]] Hunder].
    destruct (IH Hnd Hunder) as [dests [Hall Hdd]].
    destruct (decide (d0 = src)) as [Heq|Hneq].
    + exists ((src ++ rel) :: dests). split.
      * constructor; [|exact Hall]. rewrite Heq.
        split; [apply dest_path_of_in_place|]. split; [reflexivity|].
        exists rel. split; [reflexivity|]. intros H. congruence.
      * apply NoDup_cons. split; [|exact Hdd].
        intros Hin. apply Hnotin.
        apply list_elem_of_In in Hin.
        destruct (Forall2_In_r _ _ _ _ Hall Hin) as [pdf' [Hin' [Hd _]]].
        rewrite Heq, dest_path_of_in_place in Hd. injection Hd as ->.
        apply list_elem_of_In. exact Hin'.
    + exists ((d0 ++ rel) :: dests). split.
      * constructor; [|exact Hall].
        split; [apply dest_path_of_mirror; [exact Hneq|];
                exists rel; split; reflexivity|].
        split; [rewrite !name_app by exact Hne; reflexivity|].
        exists rel. split; [reflexivity|]. intros _. exists d0.
        split; reflexivity.
      * apply NoDup_cons. split; [|exact Hdd].
        intros Hin. apply Hnotin.
        apply list_elem_of_In in Hin.
        destruct (Forall2_In_r _ _ _ _ Hall Hin) as [pdf' [Hin' [Hd _]]].
        apply dest_path_of_mirror in Hd as [rel' [-> Hd]]; [|exact Hneq].
        unfold joinpath in Hd. apply app_inv_head in Hd. subst rel'.
        apply list_elem_of_In. exact Hin'.
Qed.

End BatchExtras.

Section WorkerExtras.
Context (L : PdfLib).

(** X11. An exception outside the per-file [try] ends the batch: when
    the destination of a file cannot be computed (the file does not lie
    under the source folder the worker reads), [_worker] raises; the files
    before it have their line and progress tuple, the file itself and the
    files after it have nothing, and no completion tuple is enqueued. *)
Theorem uncaught_error_ends_the_batch (s : Session)
    (before after : list (list (list N))) (bad : list (list N))
    (e : list N) (w : World) :
  Forall (has_dest (dest_base_of (self s)) (src_folder (self s))) before ->
  dest_path_of (dest_base_of (self s)) (src_folder (self s)) bad = inl e ->
  exists t lines,
    Forall2 reports before lines
    /\ _worker L s (before ++ bad :: after) w
       = Raised e (mkWorld t (log_q w ++ batch_items 1 lines))
    /\ progress_values (batch_items 1 lines) = seq 1 (length before)
    /\ done_values (batch_items 1 lines) = [].
Proof.
  intros Hb Hbad. unfold _worker.
  generalize 1%nat as idx. revert w.
  induction Hb as [|pdf before [d Hd] _ IH]; intros w idx.
  - exists (fs w), []. split; [constructor|].
    split; [|split; reflexivity].
    simpl. unfold bind, worker_iteration, bind, lift. rewrite Hbad.
    simpl. rewrite app_nil_r. destruct w; reflexivity.
  - destruct (highlight_document_one_line L pdf d
                (deref (heap s) (keywords (self s))) w)
      as [t [line [Hrun Hrep]]].
    destruct (IH (mkWorld t ((log_q w ++ [Line line])
                             ++ [Tagged PROGRESS idx])) (S idx))
      as [t' [lines [Hall [Hloop [Hp Hdn]]]]].
    exists t', (line :: lines). split; [constructor; assumption|].
    split; [|split].
    + simpl. unfold bind at 1 2. unfold worker_iteration, bind at 1 2.
      rewrite Hd. simpl. rewrite Hrun. unfold put at 1. simpl.
      unfold bind in Hloop. 
      destruct (worker_loop L s (dest_base_of (self s)) (S idx)
                  (before ++ bad :: after)
                  (mkWorld t ((log_q w ++ [Line line])
                              ++ [Tagged PROGRESS idx])))
        as [[] w2|e2 w2]; [discriminate|].
      injection Hloop as -> ->. simpl. rewrite <- !app_assoc. reflexivity.
    + simpl. destruct (decide (PROGRESS = PROGRESS)); [|congruence].
      rewrite Hp. reflexivity.
    + simpl. destruct (decide (PROGRESS = DONE)) as [E|_];
        [destruct (PROGRESS_ne_DONE E)|exact Hdn].
Qed.

End WorkerExtras.

Section DisplayExtras.
Context (L : PdfLib).

Lemma drain_app (q1 q2 : list LogItem) (u : UI) :
  fst (_drain_log_q u (q1 ++ q2))
  = fst (_drain_log_q (fst (_drain_log_q u q1)) q2).
Proof. unfold _drain_log_q. simpl. apply fold_left_app. Qed.

Lemma logged_app (a b : list LogItem) : logged (a ++ b) = logged a ++ logged b.
Proof.
  induction a as [|[text|tag n] a IH]; simpl; [reflexivity| |exact IH].
  rewrite IH, <- !app_assoc. reflexivity.
Qed.

Lemma drain_log (q : list LogItem) :
  forall u, log_txt (fst (_drain_log_q u q)) = log_txt u ++ logged q
            /\ progress_maximum (fst (_drain_log_q u q)) = progress_maximum u.
Proof.
  unfold _drain_log_q. simpl.
  induction q as [|item q IH]; intros u; simpl.
  - rewrite app_nil_r. split; reflexivity.
  - destruct (IH (show_item u item)) as [H1 H2]. rewrite H1, H2.
    destruct item as [text|tag n]; simpl.
    + rewrite <- !app_assoc. split; reflexivity.
    + destruct (decide (tag = PROGRESS)); [split; reflexivity|].
      destruct (decide (tag = DONE)); split; reflexivity.
Qed.

(** X13. One call of [_drain_log_q] empties the queue and appends to the
    log the text of every queued line in order, each followed by a
    newline; progress tuples set the progress value to the last payload,
    tuples with another tag change nothing; two polls in a row show what
    one poll of both batches of items shows. *)
Theorem drain_shows_every_item_in_order (u : UI) (q1 q2 : list LogItem) :
  snd (_drain_log_q u q1) = []
  /\ log_txt (fst (_drain_log_q u q1)) = log_txt u ++ logged q1
  /\ progress_value (fst (_drain_log_q u q1))
     = List.last (progress_values q1) (progress_value u)
  /\ progress_maximum (fst (_drain_log_q u q1)) = progress_maximum u
  /\ fst (_drain_log_q u (q1 ++ q2))
     = fst (_drain_log_q (fst (_drain_log_q u q1)) q2)
  /\ (forall tag n, tag <> PROGRESS -> tag <> DONE ->
                    show_item u (Tagged tag n) = u).
Proof.
  split; [reflexivity|].
  split; [apply drain_log|].
  split.
  { unfold _drain_log_q. simpl. revert u.
    induction q1 as [|item q IH]; intros u; [reflexivity|].
    simpl. rewrite IH. destruct item as [text|tag n]; simpl; [reflexivity|].
    destruct (decide (tag = PROGRESS)); simpl.
    - symmetry. apply last_cons_default.
    - destruct (decide (tag = DONE)); reflexivity. }
  split; [apply drain_log|].
  split; [apply drain_app|].
  intros tag n Hp Hd. simpl.
  destruct (decide (tag = PROGRESS)); [congruence|].
  destruct (decide (tag = DONE)); [congruence|reflexivity].
Qed.

(** X14. Along every run of worker threads, foreground and handlers in
    which no further batch is started, the log display only grows: it is
    the lines the foreground has taken, in the order the workers enqueued
    them, and the progress maximum stays the number of files. *)
Theorem log_display_is_append_only (cs : bool) (sys0 sys : Sys)
    (sched : list Action) (tr : list Label) (sys' : Sys) :
  _start cs sys0 = Started sys ->
  Forall no_start sched ->
  run L cs sched sys = (tr, sys') ->
  log_txt (ui sys') = logged (gets tr)
  /\ (forall th, threads sys !! length (threads sys0) = Some th ->
                 progress_maximum (ui sys') = total th)
  /\ exists rest,
      logged (log_q (world sys0) ++ puts tr) = log_txt (ui sys') ++ rest.
Proof.
  intros Hstart Hns Hrun.
  destruct (started_thread cs sys0 sys Hstart)
    as [src [_ [_ [Hworld [Hth [_ [_ [_ Hui]]]]]]]].
  assert (Hlog : log_txt (ui sys') = log_txt (ui sys) ++ logged (gets tr)).
  { apply (run_moves L cs no_start (fun _ => True)
             (fun s tr s' =>
                log_txt (ui s') = log_txt (ui s) ++ logged (gets tr)))
      with (sched := sched) (s := sys) (tr := tr) (s' := sys').
    - intros s0 _. simpl. rewrite app_nil_r. reflexivity.
    - intros; exact I.
    - intros s0 a l s1 tr0 s2 _ Hq Hmove IH.
      destruct Hmove as [i thi ev th1 w1 Hthi Hw|item q Hq'|result|text
                        |folder|folder|s1 Hs1|title Hs1];
        simpl in *; try exact IH; try destruct Hq.
      rewrite IH. destruct item as [text|tag n]; simpl.
      + rewrite <- !app_assoc. reflexivity.
      + destruct (decide (tag = PROGRESS)); [reflexivity|].
        destruct (decide (tag = DONE)); reflexivity.
    - exact Hns.
    - exact I.
    - exact Hrun. }
  pose proof (run_display L cs sched sys tr sys' Hns Hrun) as [_ [_ Hmax]].
  pose proof (run_fifo L cs sched sys tr sys' Hrun) as Hfifo.
  rewrite Hui in Hlog, Hmax. simpl in Hlog, Hmax. rewrite Hworld in Hfifo.
  split; [exact Hlog|]. split.
  { intros th Hth'. rewrite Hth in Hth'. injection Hth' as <-. exact Hmax. }
  exists (logged (log_q (world sys'))).
  rewrite Hfifo, logged_app, Hlog. reflexivity.
Qed.

End DisplayExtras.

Section FolderExtras.

(** X15. Cancelling the output-folder dialog puts the session back in
    place mode, whatever destination was chosen before: every discovered
    file is then its own destination.  Cancelling the source-folder dialog
    changes nothing, and neither dialog touches the keyword list. *)
Theorem cancelled_destination_means_in_place (s : Session)
    (src : list (list N)) :
  src_folder (self s) = Some src ->
  (forall pdf,
      dest_path_of (dest_base_of (self (_choose_dest None s)))
                   (src_folder (self (_choose_dest None s))) pdf
      = inr pdf)
  /\ _choose_src None s = s
  /\ (forall f,
         deref (heap (_choose_dest f s)) (keywords (self (_choose_dest f s)))
         = deref (heap s) (keywords (self s))
         /\ deref (heap (_choose_src f s)) (keywords (self (_choose_src f s)))
            = deref (heap s) (keywords (self s))).
Proof.
  intros Hsrc. split; [|split].
  - intros pdf. simpl. unfold dest_base_of. simpl. rewrite Hsrc.
    apply dest_path_of_in_place.
  - reflexivity.
  - intros [f|]; split; reflexivity.
Qed.

End FolderExtras.

Section OverwriteExtras.

(** X16. When neither the destination base nor the source folder lies
    inside the other (nor are they the same), no destination of the batch
    lies under the source folder: no output overwrites a discovered
    input. *)
Theorem outputs_never_overwrite_inputs (src base : list (list N))
    (cs : bool) (fs : node) (pdf d : list (list N)) :
  (forall r, base <> src ++ r) ->
  (forall r, src <> base ++ r) ->
  In pdf (walk_pdfs cs fs src) ->
  dest_path_of (Some base) (Some src) pdf = inr d ->
  (forall r, d <> src ++ r) /\ ~ In d (walk_pdfs cs fs src).
Proof.
  intros Hbs Hsb Hin Hd.
  assert (Hne : base <> src).
  { intros ->. apply (Hbs []). rewrite app_nil_r. reflexivity. }
  apply dest_path_of_mirror in Hd as [rel [-> ->]]; [|exact Hne].
  assert (Hout : forall r, joinpath base rel <> src ++ r).
  { intros r Heq. unfold joinpath in Heq.
    apply List.app_eq_app in Heq as [l [[H1 _]|[H1 _]]].
    - apply (Hbs l H1).
    - apply (Hsb l H1). }
  split; [exact Hout|].
  intros Hd. apply walk_pdfs_iff in Hd as [_ [r [_ [Heq _]]]].
  apply (Hout r Heq).
Qed.

End OverwriteExtras.

Section ExtraSamples.

Lemma failed_save_leaves_directories_witness :
  is_dir Toy.sample_fs Toy.out = false
  /\ exists t1,
      highlight_document Toy.full_disk_lib [py "docs"; py "a.pdf"]
                         [py "out"; py "a.pdf"] [py "safe"] Toy.sample_world
      = Returned tt
          (mkWorld t1
             [Line (failure_line [py "docs"; py "a.pdf"] (py "disk full"))])
      /\ is_dir t1 Toy.out = true
      /\ is_file t1 [py "out"; py "a.pdf"] = false.
Proof.
  split; [reflexivity|].
  destruct (failed_save_leaves_directories
              Toy.full_disk_lib [py "docs"; py "a.pdf"]
              [py "out"; py "a.pdf"] [py "safe"] Toy.sample_world
              _ _ _ (py "disk full")
              ltac:(vm_compute; reflexivity)
              ltac:(vm_compute; reflexivity)
              ltac:(vm_compute; reflexivity))
    as [Hrun [Hdir _]].
  eexists. split; [exact Hrun|].
  split; [exact (Hdir 1%nat)|]. reflexivity.
Defined.

Lemma batch_destinations_are_distinct_witness :
  exists dests,
    Forall2 (fun pdf d =>
               dest_path_of (Some Toy.out) (Some Toy.docs) pdf = inr d)
            (walk_pdfs true Toy.sample_fs Toy.docs) dests
    /\ NoDup dests.
Proof.
  destruct (batch_destinations_are_distinct
              (mkSelf (Some Toy.docs) (Some Toy.out) 0) Toy.docs true
              Toy.sample_fs _ eq_refl eq_refl eq_refl)
    as [dests [Hall Hnd]].
  exists dests. split; [|exact Hnd].
  eapply Forall2_impl; [exact Hall|]. intros pdf d [H _]. exact H.
Defined.

Lemma uncaught_error_ends_the_batch_witness :
  exists t,
    _worker Toy.lib
            (mkSession (mkSelf (Some [py "docs"; py "sub"]) (Some Toy.out) 0)
                       {[ 0%nat := [py "safe"] ]})
            (walk_pdfs true Toy.sample_fs Toy.docs) Toy.sample_world
    = Raised VALUE_ERROR (mkWorld t []).
Proof.
  destruct (uncaught_error_ends_the_batch
              Toy.lib
              (mkSession (mkSelf (Some [py "docs"; py "sub"])
                                 (Some Toy.out) 0)
                         {[ 0%nat := [py "safe"] ]})
              [] [[py "docs"; py "b.pdf"]; [py "docs"; py "sub"; py "c.pdf"]]
              [py "docs"; py "a.pdf"] VALUE_ERROR Toy.sample_world
              (List.Forall_nil _) eq_refl)
    as [t [lines [Hall [Hrun _]]]].
  inversion Hall; subst. exists t. exact Hrun.
Defined.

Lemma log_display_is_append_only_witness :
  log_txt (ui (snd (run Toy.lib true [ActWorker 0; ActWorker 0; ActWorker 0;
                                      ActGet]
                        Toy.sample_sys)))
  = success_line [py "docs"; py "a.pdf"] 1 ++ [LF].
Proof.
  rewrite (proj1 (log_display_is_append_only
                    Toy.lib true Toy.sample_app Toy.sample_sys
                    [ActWorker 0; ActWorker 0; ActWorker 0; ActGet] _ _
                    sample_start_eq ltac:(repeat constructor)
                    (surjective_pairing _))).
  vm_compute. reflexivity.
Defined.

Lemma cancelled_destination_means_in_place_witness :
  dest_path_of
    (dest_base_of
       (self (_choose_dest None
                (Toy.sample_session (Some Toy.out) [py "safe"]))))
    (Some Toy.docs) [py "docs"; py "a.pdf"]
  = inr [py "docs"; py "a.pdf"].
Proof.
  exact (proj1 (cancelled_destination_means_in_place
                  (Toy.sample_session (Some Toy.out) [py "safe"])
                  Toy.docs eq_refl)
               [py "docs"; py "a.pdf"]).
Defined.

Lemma outputs_never_overwrite_inputs_witness :
  ~ In [py "out"; py "a.pdf"] (walk_pdfs true Toy.sample_fs Toy.docs).
Proof.
  refine (proj2 (outputs_never_overwrite_inputs
                   Toy.docs Toy.out true Toy.sample_fs
                   [py "docs"; py "a.pdf"] [py "out"; py "a.pdf"]
                   _ _ _ eq_refl)).
  - intros r H. discriminate H.
  - intros r H. discriminate H.
  - left. reflexivity.
Defined.

End ExtraSamples.
